(** * The IPL scorecard loader (loader.py), embedded and verified

    The loader reads one JSON scorecard per match and writes it to a MySQL
    schema of six tables.  This development embeds the ingestion path of
    [loader.py] -- [safe_int], [safe_float], [safe_date],
    [get_or_create_player], [process_json_file] and the batch loop of
    [main] -- together with the schema setup of
    [ensure_database_and_schema], and proves properties of them.

    Conventions of the embedding.
    - A parsed JSON document is a value of [json]; Python's dynamic
      operations on such values ([.get], [len], indexing, [in], iteration,
      truthiness, [==]) are total functions into [result], whose [Raise]
      carries the Python exception.
    - A Python [str] is a [string] whose characters stand for the code
      points 0..255.
    - Statements run in the monad [M]: a world (the two database images of
      a connection, a call counter, the printed log and the mutable locals
      of [process_json_file]) is threaded through, and a raised exception
      keeps the effects made before it.
    - The MySQL engine is outside the repository.  Its tables follow the
      keys declared in [ensure_database_and_schema], texts in a key being
      compared under the collation declared there ([utf8mb4_unicode_ci],
      taken as a parameter); every storage call ([cur.execute],
      [conn.commit], [conn.rollback]) may raise, as decided by a fault
      oracle indexed by the call counter. *)

From Stdlib Require Import ZArith QArith Qround Ascii String.
From stdpp Require Import gmap strings list pretty.

Local Open Scope string_scope.
Local Open Scope Z_scope.

(** ** Python exceptions and results *)

Inductive exn :=
  | TypeError | AttributeError | KeyError | IndexError | ValueError
  | OverflowError | ZeroDivisionError | StorageError.

Inductive result (A : Type) :=
  | Ret (a : A)
  | Raise (e : exn).
Arguments Ret {A} a.
Arguments Raise {A} e.

#[global] Instance result_ret : MRet result := fun A a => Ret a.
#[global] Instance result_bind : MBind result := fun A B f r =>
  match r with Ret a => f a | Raise e => Raise e end.

(** ** JSON values as Python sees them *)

(** A Python float: a finite value (kept as the rational it denotes), an
    infinity or a NaN.  [json.load] yields the last two for the literals
    [Infinity] and [NaN]. *)
Inductive pyfloat :=
  | FNum (q : Q)
  | FInf (negative : bool)
  | FNan.

(** A dict keeps insertion order; a parsed dict has no repeated key, and a
    lookup takes the first binding. *)
#[warnings="-register-all"]
Inductive json :=
  | JNull
  | JBool (b : bool)
  | JInt (z : Z)
  | JFloat (f : pyfloat)
  | JStr (s : string)
  | JList (l : list json)
  | JDict (d : list (string * json)).

(** The date built by [datetime.strptime(...).date()]: year, month, day. *)
Definition pydate : Type := Z * Z * Z.

(** What the embedding takes from the Python runtime and from the MySQL
    server without defining it: the parser behind [float(str)] ([None] for
    [ValueError]), the text of a float and of a list or dict under
    [str()], [datetime.strptime] ([None] when the layout does not match),
    and the sort key of a text under [utf8mb4_unicode_ci], the collation
    of every table: the server takes two texts for equal when their sort
    keys are, whatever their letter case or accents. *)
Record py_runtime := {
  float_of_str : string -> option pyfloat;
  str_of_float : pyfloat -> string;
  str_of_container : json -> string;
  strptime : string -> string -> option pydate;
  collation_key : string -> string
}.

(** *** Strings *)

(** [str.isspace] on the code points 0..255. *)
Definition is_space (c : ascii) : bool :=
  let n := nat_of_ascii c in
  ((9 <=? n) && (n <=? 13) || (28 <=? n) && (n <=? 32) || (n =? 133) || (n =? 160))%nat.

Fixpoint lstrip (s : string) : string :=
  match s with
  | String c s' => if is_space c then lstrip s' else s
  | EmptyString => EmptyString
  end.

Fixpoint rstrip (s : string) : string :=
  match s with
  | EmptyString => EmptyString
  | String c s' =>
      match rstrip s' with
      | EmptyString => if is_space c then EmptyString else String c EmptyString
      | t => String c t
      end
  end.

(** [s.strip()] *)
Definition strip (s : string) : string := rstrip (lstrip s).

Definition str_empty (s : string) : bool :=
  match s with EmptyString => true | _ => false end.

(** [k in s] for two strings: [k] occurs in [s]. *)
Fixpoint is_substring (k s : string) : bool :=
  String.prefix k s ||
  match s with
  | EmptyString => false
  | String _ s' => is_substring k s'
  end.

Fixpoint chars_of (s : string) : list string :=
  match s with
  | EmptyString => []
  | String c s' => String c EmptyString :: chars_of s'
  end.

(** [sep.join(parts)] *)
Fixpoint join (sep : string) (parts : list string) : string :=
  match parts with
  | [] => ""
  | [p] => p
  | p :: ps => p +:+ sep +:+ join sep ps
  end.

(** *** Dicts *)

Fixpoint dict_get (d : list (string * json)) (k : string) : option json :=
  match d with
  | [] => None
  | (k', v) :: d' => if String.eqb k k' then Some v else dict_get d' k
  end.

Definition dict_has (d : list (string * json)) (k : string) : bool :=
  match dict_get d k with Some _ => true | None => false end.

(** *** Truth value, equality *)

Definition float_nonzero (f : pyfloat) : bool :=
  match f with
  | FNum q => negb (Qeq_bool q 0)
  | _ => true
  end.

(** [bool(v)] *)
Definition truthy (v : json) : bool :=
  match v with
  | JNull => false
  | JBool b => b
  | JInt z => negb (z =? 0)
  | JFloat f => float_nonzero f
  | JStr s => negb (str_empty s)
  | JList l => match l with [] => false | _ => true end
  | JDict d => match d with [] => false | _ => true end
  end.

Definition num_of (v : json) : option pyfloat :=
  match v with
  | JBool b => Some (FNum (if b then 1 else 0)%Q)
  | JInt z => Some (FNum (inject_Z z))
  | JFloat f => Some f
  | _ => None
  end.

Definition num_eq (x y : pyfloat) : bool :=
  match x, y with
  | FNum p, FNum q => Qeq_bool p q
  | FInf a, FInf b => Bool.eqb a b
  | _, _ => false
  end.

(** [a == b]: numbers (bools included) compare by value, a NaN equals
    nothing, lists compare element by element and dicts binding by
    binding whatever their order. *)
Fixpoint py_eq (a b : json) {struct a} : bool :=
  match a, b with
  | JNull, JNull => true
  | JStr s, JStr t => String.eqb s t
  | JList l, JList m =>
      (fix go (l m : list json) {struct l} : bool :=
         match l, m with
         | [], [] => true
         | x :: l', y :: m' => py_eq x y && go l' m'
         | _, _ => false
         end) l m
  | JDict d, JDict e =>
      (length d =? length e)%nat &&
      (fix go (d : list (string * json)) {struct d} : bool :=
         match d with
         | [] => true
         | (k, v) :: d' =>
             match dict_get e k with
             | Some v' => py_eq v v'
             | None => false
             end && go d'
         end) d
  | _, _ =>
      match num_of a, num_of b with
      | Some x, Some y => num_eq x y
      | _, _ => false
      end
  end.

Definition is_none (v : json) : bool :=
  match v with JNull => true | _ => false end.

(** *** Attribute and item access *)

(** [v.get(k, dflt)]: only a dict has the method. *)
Definition py_get (v : json) (k : string) (dflt : json) : result json :=
  match v with
  | JDict d => Ret (default dflt (dict_get d k))
  | _ => Raise AttributeError
  end.

(** [len(v)] *)
Definition py_len (v : json) : result Z :=
  match v with
  | JStr s => Ret (Z.of_nat (String.length s))
  | JList l => Ret (Z.of_nat (length l))
  | JDict d => Ret (Z.of_nat (length d))
  | _ => Raise TypeError
  end.

(** [v[i]] for a literal index [i >= 0].  The keys of a parsed dict are
    strings, so an integer key is never found. *)
Definition py_index (v : json) (i : nat) : result json :=
  match v with
  | JList l => match l !! i with Some x => Ret x | None => Raise IndexError end
  | JStr s =>
      match String.get i s with
      | Some c => Ret (JStr (String c EmptyString))
      | None => Raise IndexError
      end
  | JDict _ => Raise KeyError
  | _ => Raise TypeError
  end.

(** [v[k]] for a string key. *)
Definition py_item (v : json) (k : string) : result json :=
  match v with
  | JDict d => match dict_get d k with Some x => Ret x | None => Raise KeyError end
  | _ => Raise TypeError
  end.

Definition is_jstr (k : string) (v : json) : bool :=
  match v with JStr s => String.eqb k s | _ => false end.

(** [k in v] for a string [k]: a key of a dict, an element of a list, a
    substring of a string. *)
Definition py_contains (k : string) (v : json) : result bool :=
  match v with
  | JDict d => Ret (dict_has d k)
  | JList l => Ret (existsb (is_jstr k) l)
  | JStr s => Ret (is_substring k s)
  | _ => Raise TypeError
  end.

(** The items a [for] loop over [v] visits. *)
Definition py_iter (v : json) : result (list json) :=
  match v with
  | JList l => Ret l
  | JStr s => Ret (JStr <$> chars_of s)
  | JDict d => Ret ((fun kv => JStr kv.1) <$> d)
  | _ => Raise TypeError
  end.

(** [v.items()] *)
Definition py_items (v : json) : result (list (string * json)) :=
  match v with
  | JDict d => Ret d
  | _ => Raise AttributeError
  end.

(** [d.get(key)] where the key is itself a JSON value: a list or dict key
    is unhashable, and only a string key can be found among string keys. *)
Definition py_get_key (v key : json) : result json :=
  match v with
  | JDict d =>
      match key with
      | JList _ | JDict _ => Raise TypeError
      | JStr s => Ret (default JNull (dict_get d s))
      | _ => Ret JNull
      end
  | _ => Raise AttributeError
  end.

(** *** Numbers *)

(** [float(z)] for an int, as the integer the float denotes: the nearest
    53-bit value, ties to even; [None] is [OverflowError]. *)
Definition float_of_int (z : Z) : option Z :=
  let a := Z.abs z in
  let n := Z.log2 a + 1 in
  if n <=? 53 then Some z
  else
    let sh := n - 53 in
    let q := Z.shiftr a sh in
    let r := Z.land a (Z.ones sh) in
    let half := Z.shiftl 1 (sh - 1) in
    let q' := if (half <? r) || ((half =? r) && Z.odd q) then q + 1 else q in
    let v := Z.shiftl q' sh in
    if Z.shiftl 1 1024 <=? v then None else Some (Z.sgn z * v).

Section Loader.
Context (rt : py_runtime).

(** [float(v)] *)
Definition py_float (v : json) : result pyfloat :=
  match v with
  | JBool b => Ret (FNum (if b then 1 else 0)%Q)
  | JInt z =>
      match float_of_int z with
      | Some r => Ret (FNum (inject_Z r))
      | None => Raise OverflowError
      end
  | JFloat f => Ret f
  | JStr s =>
      match float_of_str rt s with
      | Some f => Ret f
      | None => Raise ValueError
      end
  | _ => Raise TypeError
  end.

(** [int(f)] for a float: truncation toward zero. *)
Definition py_int (f : pyfloat) : result Z :=
  match f with
  | FNum q => Ret (Qnum q ÷ Z.pos (Qden q))
  | FInf _ => Raise OverflowError
  | FNan => Raise ValueError
  end.

(** [str(v)], also what an f-string field renders. *)
Definition py_str (v : json) : string :=
  match v with
  | JNull => "None"
  | JBool true => "True"
  | JBool false => "False"
  | JInt z => pretty z
  | JFloat f => str_of_float rt f
  | JStr s => s
  | _ => str_of_container rt v
  end.

(** ** Scalar coercion *)

(** The [try] block of [safe_int]. *)
Definition safe_int_try (val : json) (dflt : option Z) : result (option Z) :=
  match val with
  | JStr s =>
      let s' := strip s in
      if str_empty s' then Ret dflt
      else f ← py_float (JStr s'); z ← py_int f; Ret (Some z)
  | _ => f ← py_float val; z ← py_int f; Ret (Some z)
  end.

(** [safe_int(val, default)]: the bare [except] turns whatever the block
    raises into the default. *)
Definition safe_int (val : json) (dflt : option Z) : result (option Z) :=
  if is_none val || py_eq val (JStr "") then Ret dflt
  else
    match safe_int_try val dflt with
    | Ret r => Ret r
    | Raise _ => Ret dflt
    end.

Definition date_formats : list string :=
  ["%Y-%m-%d"; "%d/%m/%Y"; "%m/%d/%Y"; "%Y/%m/%d"; "%d-%m-%Y"; "%m-%d-%Y"].

Fixpoint first_date (val : string) (fmts : list string) : option pydate :=
  match fmts with
  | [] => None
  | fmt :: rest =>
      match strptime rt val fmt with
      | Some d => Some d
      | None => first_date val rest
      end
  end.

(** [safe_date(val)] *)
Definition safe_date (val : json) : option pydate :=
  if negb (truthy val) then None
  else
    let s := strip (py_str val) in
    if str_empty s then None else first_date s date_formats.

(** ** Header helpers of [process_json_file] *)

(** Lines 400-406: the margin text. *)
Definition margin_of (outcome : json) : result (option string) :=
  has_by ← py_contains "by" outcome;
  if has_by : bool then
    by_info ← py_item outcome "by";
    has_runs ← py_contains "runs" by_info;
    if has_runs : bool then
      n ← py_item by_info "runs"; Ret (Some (py_str n +:+ " runs"))
    else
      has_wk ← py_contains "wickets" by_info;
      if has_wk : bool then
        n ← py_item by_info "wickets"; Ret (Some (py_str n +:+ " wickets"))
      else Ret None
  else Ret None.

(** Lines 607-611: overs played and run rate of one innings.  Python's
    float arithmetic is carried out on exact rationals; [//] and [%] are
    floored, as [Z.div] and [Z.modulo] are. *)
Definition overs_played (balls_played balls_per_over : Z) : Q :=
  let complete_overs := balls_played / balls_per_over in
  let remaining_balls := balls_played mod balls_per_over in
  if 0 <? remaining_balls
  then (inject_Z complete_overs + inject_Z remaining_balls / 10)%Q
  else inject_Z complete_overs.

Definition run_rate (total_runs : Z) (overs : Q) : Q :=
  if Qle_bool overs 0 then 0%Q else (inject_Z total_runs / overs)%Q.

(** ** The storage *)

(** One row per table of [ensure_database_and_schema], with the columns the
    loader writes.  A column that receives whatever the JSON holds is a
    [json]; a column fed by [safe_int] is an [option Z]. *)

Record match_row := {
  m_start_date : option pydate;
  m_team_type : json;
  m_match_type : json;
  m_match_type_number : option Z;
  m_gender : json;
  m_competition : json;
  m_season : option string;
  m_season_year : option Z;
  m_team1 : json;
  m_team2 : json;
  m_venue : json;
  m_city : json;
  m_toss_winner : json;
  m_toss_decision : json;
  m_winner : json;
  m_margin : option string;
  m_overs : option Z;
  m_balls_per_over : option Z;
  m_player_of_match : option string;
  m_data_version : json
}.

Record player_row := {
  p_id : Z;
  p_name : string;
  p_registry_id : json
}.

Record link_row := {
  l_team : json;
  l_registry_name : json
}.

Record innings_row := {
  i_team : json;
  i_batting_team : json;
  i_bowling_team : json;
  i_total_runs : Z;
  i_total_balls : Z;
  i_wickets : Z;
  i_overs : Q;
  i_run_rate : Q
}.

Record delivery_row := {
  d_match_id : string;
  d_innings_number : Z;
  d_over_number : Z;
  d_ball_in_over : Z;
  d_ball_sequence : Z;
  d_batsman : json;
  d_batsman_id : option Z;
  d_non_striker : json;
  d_non_striker_id : option Z;
  d_bowler : json;
  d_bowler_id : option Z;
  d_runs_batsman : option Z;
  d_runs_extras : option Z;
  d_runs_total : Z;
  d_extra_type : option string;
  d_extra_value : option Z;
  d_is_wicket : bool;
  d_wicket_kind : json;
  d_wicket_player : json;
  d_wicket_player_id : option Z;
  d_fielder : json;
  d_fielder_id : option Z
}.

Record official_row := {
  o_match_id : string;
  o_role : string;
  o_name : json
}.

(** The tables.  [players] is keyed by its unique [player_name],
    [matches] by [match_id], [match_players] by its primary key (match,
    player), [innings] by its unique key (match, innings number).  A text
    column of a key compares under the collation of the table, so the
    entry of a text is its sort key ([index_key] below), not the text
    itself.  [deliveries] and [match_officials] have only a generated key
    and are kept in insertion order. *)
Record db := {
  players : gmap string player_row;
  next_player_id : Z;
  matches : gmap string match_row;
  match_players : gmap (string * Z) link_row;
  innings : gmap (string * Z) innings_row;
  deliveries : list delivery_row;
  match_officials : list official_row
}.

Definition set_players (f : gmap string player_row -> gmap string player_row) (d : db) : db :=
  {| players := f (players d); next_player_id := next_player_id d;
     matches := matches d; match_players := match_players d;
     innings := innings d; deliveries := deliveries d;
     match_officials := match_officials d |}.

Definition set_next_player_id (n : Z) (d : db) : db :=
  {| players := players d; next_player_id := n;
     matches := matches d; match_players := match_players d;
     innings := innings d; deliveries := deliveries d;
     match_officials := match_officials d |}.

Definition set_matches (f : gmap string match_row -> gmap string match_row) (d : db) : db :=
  {| players := players d; next_player_id := next_player_id d;
     matches := f (matches d); match_players := match_players d;
     innings := innings d; deliveries := deliveries d;
     match_officials := match_officials d |}.

Definition set_match_players
    (f : gmap (string * Z) link_row -> gmap (string * Z) link_row) (d : db) : db :=
  {| players := players d; next_player_id := next_player_id d;
     matches := matches d; match_players := f (match_players d);
     innings := innings d; deliveries := deliveries d;
     match_officials := match_officials d |}.

Definition set_innings
    (f : gmap (string * Z) innings_row -> gmap (string * Z) innings_row) (d : db) : db :=
  {| players := players d; next_player_id := next_player_id d;
     matches := matches d; match_players := match_players d;
     innings := f (innings d); deliveries := deliveries d;
     match_officials := match_officials d |}.

Definition set_deliveries (f : list delivery_row -> list delivery_row) (d : db) : db :=
  {| players := players d; next_player_id := next_player_id d;
     matches := matches d; match_players := match_players d;
     innings := innings d; deliveries := f (deliveries d);
     match_officials := match_officials d |}.

Definition set_match_officials (f : list official_row -> list official_row) (d : db) : db :=
  {| players := players d; next_player_id := next_player_id d;
     matches := matches d; match_players := match_players d;
     innings := innings d; deliveries := deliveries d;
     match_officials := f (match_officials d) |}.

Definition empty_db : db :=
  {| players := ∅; next_player_id := 1; matches := ∅; match_players := ∅;
     innings := ∅; deliveries := []; match_officials := [] |}.

(** *** The SQL statements of the loader *)

Inductive stmt :=
  | UpsertMatch (match_id : string) (row : match_row)
  | UpsertPlayer (player_name : string) (registry_id : json)
  | SelectPlayer (player_name : string)
  | UpsertMatchPlayer (match_id : string) (player_id : Z) (team registry_name : json)
  | InsertIgnoreMatchPlayer (match_id : string) (player_id : Z) (team : json)
  | InsertOfficial (match_id role : string) (name : json)
  | InsertDelivery (row : delivery_row)
  | UpsertInnings (match_id : string) (innings_number : Z) (row : innings_row).

(** The entry of a text in a unique index: [unique_name] of [players],
    and the [match_id] part of the keys of [matches], [match_players] and
    [innings]. *)
Definition index_key (s : string) : string := collation_key rt s.

(** [INSERT INTO players ... ON DUPLICATE KEY UPDATE
    player_id=LAST_INSERT_ID(player_id),
    registry_id=COALESCE(VALUES(registry_id), registry_id)]: a name that
    collides with no stored one takes the next generated id; otherwise the
    stored row keeps its id, which becomes [lastrowid], and its name as it
    was first written, and [COALESCE] takes the supplied registry id
    unless it is NULL. *)
Definition upsert_player (name : string) (registry_id : json) (d : db) : db * Z :=
  match players d !! index_key name with
  | Some p =>
      let reg := if is_none registry_id then p_registry_id p else registry_id in
      (set_players <[index_key name :=
                       {| p_id := p_id p; p_name := p_name p; p_registry_id := reg |}]> d,
       p_id p)
  | None =>
      let id := next_player_id d in
      (set_next_player_id (id + 1)
         (set_players <[index_key name :=
                          {| p_id := id; p_name := name; p_registry_id := registry_id |}]> d),
       id)
  end.

(** [INSERT IGNORE INTO match_players (match_id, player_id, team)] *)
Definition insert_ignore_link (k : string * Z) (team : json)
    (t : gmap (string * Z) link_row) : gmap (string * Z) link_row :=
  match t !! k with
  | Some _ => t
  | None => <[k := {| l_team := team; l_registry_name := JNull |}]> t
  end.

(** The effect of a statement that succeeds, and the id it reports
    ([lastrowid], or the fetched [player_id]). *)
Definition run_stmt (s : stmt) (d : db) : db * option Z :=
  match s with
  | UpsertMatch mid row => (set_matches <[index_key mid := row]> d, None)
  | UpsertPlayer name reg => let '(d', id) := upsert_player name reg d in (d', Some id)
  | SelectPlayer name => (d, p_id <$> players d !! index_key name)
  | UpsertMatchPlayer mid pid team reg =>
      (set_match_players
         <[(index_key mid, pid) := {| l_team := team; l_registry_name := reg |}]> d, None)
  | InsertIgnoreMatchPlayer mid pid team =>
      (set_match_players (insert_ignore_link (index_key mid, pid) team) d, None)
  | InsertOfficial mid role name =>
      (set_match_officials
         (fun t => (t ++ [{| o_match_id := mid; o_role := role; o_name := name |}])%list) d, None)
  | InsertDelivery row => (set_deliveries (fun t => (t ++ [row])%list) d, None)
  | UpsertInnings mid n row => (set_innings <[(index_key mid, n) := row]> d, None)
  end.

(** The kinds of storage call, for the fault oracle. *)
Inductive op :=
  | OpMatch | OpPlayerUpsert | OpPlayerSelect | OpLink | OpLinkIgnore
  | OpOfficial | OpDelivery | OpInnings | OpCommit | OpRollback.

Definition stmt_op (s : stmt) : op :=
  match s with
  | UpsertMatch _ _ => OpMatch
  | UpsertPlayer _ _ => OpPlayerUpsert
  | SelectPlayer _ => OpPlayerSelect
  | UpsertMatchPlayer _ _ _ _ => OpLink
  | InsertIgnoreMatchPlayer _ _ _ => OpLinkIgnore
  | InsertOfficial _ _ _ => OpOfficial
  | InsertDelivery _ => OpDelivery
  | UpsertInnings _ _ _ => OpInnings
  end.

(** ** The world and the statement monad *)

(** The running totals [innings_data[innings_idx]] keeps for one innings. *)
Record innings_acc := {
  a_team : json;
  a_total_runs : Z;
  a_total_balls : Z;
  a_wickets : Z;
  a_max_over : Z;
  a_batting_team : json;
  a_bowling_team : json
}.

(** The locals of [process_json_file] that are assigned inside its [try]
    blocks and loops. *)
Record locals := {
  innings_data : list (Z * innings_acc);
  ball_sequence : Z;
  total_deliveries : Z;
  delivery_errors : Z
}.

Definition init_locals : locals :=
  {| innings_data := []; ball_sequence := 1; total_deliveries := 0; delivery_errors := 0 |}.

(** What the loader prints, without the wording. *)
Inductive log_entry :=
  | LogProcessing (match_id : string)
  | LogReadFailed
  | LogMatchFailed (e : exn)
  | LogPlayerFailed (name : string) (e : exn)
  | LogLinkFailed (name : json) (e : exn)
  | LogPlayersFailed (e : exn)
  | LogOfficialsFailed (e : exn)
  | LogDeliveryError (e : exn)
  | LogProcessed (n_deliveries : Z) (n_innings : nat)
  | LogSkipped (n : Z)
  | LogDeliveriesFailed (e : exn)
  | LogFatal (e : exn).

(** [cur] is what the connection sees, [saved] what is committed; [clock]
    counts the storage calls made so far. *)
Record world := {
  cur : db;
  saved : db;
  clock : nat;
  log : list log_entry;
  loc : locals
}.

Definition M (A : Type) : Type := world -> world * result A.

#[global] Instance M_ret : MRet M := fun A a w => (w, Ret a).
#[global] Instance M_bind : MBind M := fun A B f c w =>
  match c w with
  | (w', Ret a) => f a w'
  | (w', Raise e) => (w', Raise e)
  end.

Definition lift {A} (r : result A) : M A := fun w => (w, r).

Definition raise {A} (e : exn) : M A := fun w => (w, Raise e).

(** [try: c except Exception as e: h e] *)
Definition try_except {A} (c : M A) (h : exn -> M A) : M A := fun w =>
  match c w with
  | (w', Raise e) => h e w'
  | r => r
  end.

Fixpoint for_each {A} (l : list A) (body : A -> M unit) : M unit :=
  match l with
  | [] => mret tt
  | x :: l' => body x;; for_each l' body
  end.

(** [for i, x in enumerate(l, i0)] *)
Fixpoint for_each_from {A} (i0 : Z) (l : list A) (body : Z -> A -> M unit) : M unit :=
  match l with
  | [] => mret tt
  | x :: l' => body i0 x;; for_each_from (i0 + 1) l' body
  end.

Definition print (e : log_entry) : M unit := fun w =>
  ({| cur := cur w; saved := saved w; clock := clock w;
      log := (log w ++ [e])%list; loc := loc w |}, Ret tt).

Definition get_loc : M locals := fun w => (w, Ret (loc w)).

Definition modify_loc (f : locals -> locals) : M unit := fun w =>
  ({| cur := cur w; saved := saved w; clock := clock w;
      log := log w; loc := f (loc w) |}, Ret tt).

Definition set_innings_data (f : list (Z * innings_acc) -> list (Z * innings_acc))
    (l : locals) : locals :=
  {| innings_data := f (innings_data l); ball_sequence := ball_sequence l;
     total_deliveries := total_deliveries l; delivery_errors := delivery_errors l |}.

Definition set_ball_sequence (f : Z -> Z) (l : locals) : locals :=
  {| innings_data := innings_data l; ball_sequence := f (ball_sequence l);
     total_deliveries := total_deliveries l; delivery_errors := delivery_errors l |}.

Definition set_total_deliveries (f : Z -> Z) (l : locals) : locals :=
  {| innings_data := innings_data l; ball_sequence := ball_sequence l;
     total_deliveries := f (total_deliveries l); delivery_errors := delivery_errors l |}.

Definition set_delivery_errors (f : Z -> Z) (l : locals) : locals :=
  {| innings_data := innings_data l; ball_sequence := ball_sequence l;
     total_deliveries := total_deliveries l; delivery_errors := f (delivery_errors l) |}.

(** [innings_data[i] = a] *)
Fixpoint idata_set (i : Z) (a : innings_acc) (l : list (Z * innings_acc))
    : list (Z * innings_acc) :=
  match l with
  | [] => [(i, a)]
  | (j, b) :: l' => if j =? i then (j, a) :: l' else (j, b) :: idata_set i a l'
  end.

(** [innings_data[i][...] = ...] *)
Fixpoint idata_update (i : Z) (f : innings_acc -> innings_acc)
    (l : list (Z * innings_acc)) : list (Z * innings_acc) :=
  match l with
  | [] => []
  | (j, b) :: l' => if j =? i then (j, f b) :: l' else (j, b) :: idata_update i f l'
  end.

Fixpoint idata_get (i : Z) (l : list (Z * innings_acc)) : option innings_acc :=
  match l with
  | [] => None
  | (j, b) :: l' => if j =? i then Some b else idata_get i l'
  end.

Definition add_runs (r : Z) (a : innings_acc) : innings_acc :=
  {| a_team := a_team a; a_total_runs := a_total_runs a + r;
     a_total_balls := a_total_balls a; a_wickets := a_wickets a;
     a_max_over := a_max_over a; a_batting_team := a_batting_team a;
     a_bowling_team := a_bowling_team a |}.

Definition add_ball (a : innings_acc) : innings_acc :=
  {| a_team := a_team a; a_total_runs := a_total_runs a;
     a_total_balls := a_total_balls a + 1; a_wickets := a_wickets a;
     a_max_over := a_max_over a; a_batting_team := a_batting_team a;
     a_bowling_team := a_bowling_team a |}.

Definition add_wickets (n : Z) (a : innings_acc) : innings_acc :=
  {| a_team := a_team a; a_total_runs := a_total_runs a;
     a_total_balls := a_total_balls a; a_wickets := a_wickets a + n;
     a_max_over := a_max_over a; a_batting_team := a_batting_team a;
     a_bowling_team := a_bowling_team a |}.

Definition raise_max_over (n : Z) (a : innings_acc) : innings_acc :=
  {| a_team := a_team a; a_total_runs := a_total_runs a;
     a_total_balls := a_total_balls a; a_wickets := a_wickets a;
     a_max_over := Z.max (a_max_over a) n; a_batting_team := a_batting_team a;
     a_bowling_team := a_bowling_team a |}.

(** *** Storage calls *)

(** [DB_CONFIG["autocommit"]] and the fault oracle: the call number [n]
    of kind [k] raises when [fault n k] holds. *)
Context (autocommit : bool) (fault : nat -> op -> bool).

(** [cur.execute(s)]: a statement that raises changes no table; one that
    succeeds changes the connection's image and, under autocommit, the
    committed image with it. *)
Definition execute (s : stmt) : M (option Z) := fun w =>
  if fault (clock w) (stmt_op s) then
    ({| cur := cur w; saved := saved w; clock := S (clock w);
        log := log w; loc := loc w |}, Raise StorageError)
  else
    let '(d, r) := run_stmt s (cur w) in
    ({| cur := d; saved := if autocommit then d else saved w;
        clock := S (clock w); log := log w; loc := loc w |}, Ret r).

(** [conn.commit()] *)
Definition commit : M unit := fun w =>
  if fault (clock w) OpCommit then
    ({| cur := cur w; saved := saved w; clock := S (clock w);
        log := log w; loc := loc w |}, Raise StorageError)
  else
    ({| cur := cur w; saved := cur w; clock := S (clock w);
        log := log w; loc := loc w |}, Ret tt).

(** [conn.rollback()] *)
Definition rollback : M unit := fun w =>
  if fault (clock w) OpRollback then
    ({| cur := cur w; saved := saved w; clock := S (clock w);
        log := log w; loc := loc w |}, Raise StorageError)
  else
    ({| cur := saved w; saved := saved w; clock := S (clock w);
        log := log w; loc := loc w |}, Ret tt).

(** ** Player identity *)

(** [s.strip()] as a method call: only a [str] has it. *)
Definition py_strip (v : json) : result string :=
  match v with
  | JStr s => Ret (strip s)
  | _ => Raise AttributeError
  end.

(** [if player_id:] *)
Definition id_truthy (o : option Z) : bool :=
  match o with
  | Some z => negb (z =? 0)
  | None => false
  end.

(** Lines 336-337: [clean_name[:500]] when the name is longer. *)
Definition truncate_name (stripped : string) : string :=
  if (500 <? String.length stripped)%nat then substring 0 500 stripped
  else stripped.

(** [get_or_create_player(cur, conn, player_name, registry_id)] *)
Definition get_or_create_player (player_name registry_id : json) : M (option Z) :=
  if negb (truthy player_name) then mret None
  else
    stripped ← lift (py_strip player_name);
    if str_empty stripped then mret None
    else
      let clean_name := truncate_name stripped in
      try_except
        (lastrowid ← execute (UpsertPlayer clean_name registry_id);
         commit;;
         mret lastrowid)
        (fun _ =>
           try_except
             (execute (SelectPlayer clean_name))
             (fun e2 => print (LogPlayerFailed clean_name e2);; mret None)).

(** ** One match file *)

(** [a + b] on two results of [safe_int]: [None] cannot be added. *)
Definition py_add (a b : option Z) : result Z :=
  match a, b with
  | Some x, Some y => Ret (x + y)
  | _, _ => Raise TypeError
  end.

(** [', '.join(v)]: every item must be a [str]. *)
Fixpoint all_strs (l : list json) : result (list string) :=
  match l with
  | [] => Ret []
  | JStr s :: l' => rest ← all_strs l'; Ret (s :: rest)
  | _ :: _ => Raise TypeError
  end.

Definition py_join (sep : string) (v : json) : result string :=
  items ← py_iter v; parts ← all_strs items; Ret (join sep parts).

(** [v[0] if len(v) > n else None] *)
Definition item_or_none (v : json) (n : nat) : result json :=
  len ← py_len v;
  if Z.of_nat n <? len then py_index v n else Ret JNull.

(** Lines 371-412: everything read from the record before the first
    statement.  The values bound to [created] and [revision] are read (and
    may raise) though nothing uses them. *)
Record header := {
  h_row : match_row;
  h_info : json;
  h_innings_list : json;
  h_team1 : json;
  h_team2 : json;
  h_balls_per_over : option Z
}.

Definition read_header (match_data : json) : result header :=
  info ← py_get match_data "info" (JDict []);
  meta ← py_get match_data "meta" (JDict []);
  innings_list ← py_get match_data "innings" (JList []);
  dates ← py_get info "dates" JNull;
  first ← (if truthy dates
           then dd ← py_get info "dates" (JList [JNull]); py_index dd 0
           else Ret JNull);
  let start_date := safe_date first in
  venue ← py_get info "venue" JNull;
  city ← py_get info "city" JNull;
  gender ← py_get info "gender" (JStr "male");
  match_type ← py_get info "match_type" (JStr "T20");
  ov ← py_get info "overs" (JInt 20);
  overs ← safe_int ov None;
  bpo ← py_get info "balls_per_over" (JInt 6);
  balls_per_over ← safe_int bpo None;
  teams ← py_get info "teams" (JList []);
  team1 ← item_or_none teams 0;
  team2 ← item_or_none teams 1;
  event_info ← py_get info "event" (JDict []);
  competition ← py_get event_info "name" (JStr "Indian Premier League");
  mn ← py_get event_info "match_number" JNull;
  match_number ← safe_int mn None;
  sn ← py_get info "season" JNull;
  season_year ← safe_int sn None;
  toss_info ← py_get info "toss" (JDict []);
  toss_winner ← py_get toss_info "winner" JNull;
  toss_decision ← py_get toss_info "decision" JNull;
  outcome ← py_get info "outcome" (JDict []);
  winner ← py_get outcome "winner" JNull;
  margin ← margin_of outcome;
  pom ← py_get info "player_of_match" JNull;
  player_of_match ← (if truthy pom
                     then pl ← py_get info "player_of_match" (JList []);
                          s ← py_join ", " pl; Ret (Some s)
                     else Ret None);
  data_version ← py_get meta "data_version" JNull;
  _ ← py_get meta "created" JNull;
  rv ← py_get meta "revision" JNull;
  _ ← safe_int rv None;
  team_type ← py_get info "team_type" (JStr "club");
  Ret {| h_row :=
           {| m_start_date := start_date; m_team_type := team_type;
              m_match_type := match_type; m_match_type_number := match_number;
              m_gender := gender; m_competition := competition;
              m_season := (if id_truthy season_year
                           then pretty <$> season_year else None);
              m_season_year := season_year; m_team1 := team1; m_team2 := team2;
              m_venue := venue; m_city := city; m_toss_winner := toss_winner;
              m_toss_decision := toss_decision; m_winner := winner;
              m_margin := margin; m_overs := overs;
              m_balls_per_over := balls_per_over;
              m_player_of_match := player_of_match;
              m_data_version := data_version |};
         h_info := info; h_innings_list := innings_list;
         h_team1 := team1; h_team2 := team2;
         h_balls_per_over := balls_per_over |}.

(** Lines 414-442: the match row, committed; [false] is [return False]. *)
Definition persist_header (match_id : string) (row : match_row) : M bool :=
  try_except
    (execute (UpsertMatch match_id row);; commit;; mret true)
    (fun e => rollback;; print (LogMatchFailed e);; mret false).

(** Lines 447-464: the roster. *)
Definition link_player (match_id team : string) (registry player_name : json) : M unit :=
  registry_id ← lift (py_get_key registry player_name);
  player_id ← get_or_create_player player_name registry_id;
  match player_id with
  | Some pid =>
      if negb (pid =? 0) then
        try_except
          (execute (UpsertMatchPlayer match_id pid (JStr team) registry_id);; mret tt)
          (fun e => print (LogLinkFailed player_name e))
      else mret tt
  | None => mret tt
  end.

Definition process_players (match_id : string) (registry players_info : json) : M unit :=
  try_except
    (teams ← lift (py_items players_info);
     for_each teams (fun '(team, player_list) =>
       names ← lift (py_iter player_list);
       for_each names (link_player match_id team registry));;
     commit)
    (fun e => rollback;; print (LogPlayersFailed e)).

(** Lines 466-487: the officials. *)
Definition insert_officials (match_id : string) (officials : json) (key role : string)
    : M unit :=
  names ← lift (py_get officials key (JList []));
  items ← lift (py_iter names);
  for_each items (fun name => execute (InsertOfficial match_id role name);; mret tt).

Definition process_officials (match_id : string) (info : json) : M unit :=
  try_except
    (officials ← lift (py_get info "officials" (JDict []));
     insert_officials match_id officials "umpires" "umpire";;
     insert_officials match_id officials "tv_umpires" "tv_umpire";;
     insert_officials match_id officials "reserve_umpires" "reserve_umpire";;
     insert_officials match_id officials "match_referees" "match_referee";;
     commit)
    (fun e => rollback;; print (LogOfficialsFailed e)).

(** Lines 531-541: the roster link of a player seen in a delivery. *)
Definition link_seen_player (match_id : string) (pid : option Z) (pname team : json)
    : M unit :=
  match pid with
  | Some id =>
      if negb (id =? 0) && truthy pname then
        try_except
          (execute (InsertIgnoreMatchPlayer match_id id team);; mret tt)
          (fun _ => mret tt)
      else mret tt
  | None => mret tt
  end.

(** Lines 548-556: the first extra kind present, and its value. *)
Fixpoint find_extra (extras_info : json) (kinds : list string)
    : result (option string * option Z) :=
  match kinds with
  | [] => Ret (None, Some 0)
  | ext_type :: rest =>
      present ← py_contains ext_type extras_info;
      if present : bool then
        v ← py_item extras_info ext_type;
        extra_value ← safe_int v None;
        Ret (Some ext_type, extra_value)
      else find_extra extras_info rest
  end.

Definition extra_kinds : list string :=
  ["wides"; "noballs"; "byes"; "legbyes"; "penalty"].

(** Lines 558-576: the dismissal, from the first record of [wickets]. *)
Record wicket_info := {
  wk_kind : json;
  wk_player : json;
  wk_player_id : option Z;
  wk_fielder : json;
  wk_fielder_id : option Z
}.

Definition no_wicket : wicket_info :=
  {| wk_kind := JNull; wk_player := JNull; wk_player_id := None;
     wk_fielder := JNull; wk_fielder_id := None |}.

Definition read_wicket (registry wickets : json) : M wicket_info :=
  wicket ← lift (py_index wickets 0);
  wicket_kind ← lift (py_get wicket "kind" JNull);
  wicket_player_name ← lift (py_get wicket "player_out" JNull);
  reg ← lift (py_get_key registry wicket_player_name);
  wicket_player_id ← get_or_create_player wicket_player_name reg;
  fielders ← lift (py_get wicket "fielders" (JList []));
  if truthy fielders then
    fielder_info ← lift (py_index fielders 0);
    fielder_name ← lift (py_get fielder_info "name" JNull);
    freg ← lift (py_get_key registry fielder_name);
    fielder_id ← get_or_create_player fielder_name freg;
    mret {| wk_kind := wicket_kind; wk_player := wicket_player_name;
            wk_player_id := wicket_player_id; wk_fielder := fielder_name;
            wk_fielder_id := fielder_id |}
  else
    mret {| wk_kind := wicket_kind; wk_player := wicket_player_name;
            wk_player_id := wicket_player_id; wk_fielder := JNull;
            wk_fielder_id := None |}.

(** What the walk knows when it reaches a delivery. *)
Record delivery_ctx := {
  c_match_id : string;
  c_registry : json;
  c_innings_idx : Z;
  c_batting_team : json;
  c_bowling_team : json;
  c_over_num : Z
}.

(** The locals a delivery binds before the counters are touched. *)
Record delivery_fields := {
  f_batsman_name : json;
  f_batsman_id : option Z;
  f_non_striker_name : json;
  f_non_striker_id : option Z;
  f_bowler_name : json;
  f_bowler_id : option Z;
  f_runs_batsman : option Z;
  f_runs_extras : option Z;
  f_runs_total : option Z;
  f_extra_type : option string;
  f_extra_value : option Z;
  f_n_wickets : Z;
  f_wicket : wicket_info
}.

(** Lines 523-576: a delivery is read and its players are resolved. *)
Definition read_delivery (c : delivery_ctx) (delivery : json) : M delivery_fields :=
  batsman_name ← lift (py_get delivery "batter" JNull);
  non_striker_name ← lift (py_get delivery "non_striker" JNull);
  bowler_name ← lift (py_get delivery "bowler" JNull);
  reg1 ← lift (py_get_key (c_registry c) batsman_name);
  batsman_id ← get_or_create_player batsman_name reg1;
  reg2 ← lift (py_get_key (c_registry c) non_striker_name);
  non_striker_id ← get_or_create_player non_striker_name reg2;
  reg3 ← lift (py_get_key (c_registry c) bowler_name);
  bowler_id ← get_or_create_player bowler_name reg3;
  link_seen_player (c_match_id c) batsman_id batsman_name (c_batting_team c);;
  link_seen_player (c_match_id c) non_striker_id non_striker_name (c_batting_team c);;
  link_seen_player (c_match_id c) bowler_id bowler_name (c_bowling_team c);;
  runs_info ← lift (py_get delivery "runs" (JDict []));
  rb ← lift (py_get runs_info "batter" (JInt 0));
  runs_batsman ← lift (safe_int rb None);
  re ← lift (py_get runs_info "extras" (JInt 0));
  runs_extras ← lift (safe_int re None);
  both ← lift (py_add runs_batsman runs_extras);
  tot ← lift (py_get runs_info "total" (JInt both));
  runs_total ← lift (safe_int tot None);
  extras_info ← lift (py_get delivery "extras" (JDict []));
  extra ← lift (if truthy extras_info then find_extra extras_info extra_kinds
                else Ret (None, Some 0));
  wickets ← lift (py_get delivery "wickets" (JList []));
  n_wickets ← lift (py_len wickets);
  wk ← (if 0 <? n_wickets then read_wicket (c_registry c) wickets
        else mret no_wicket);
  mret {| f_batsman_name := batsman_name; f_batsman_id := batsman_id;
          f_non_striker_name := non_striker_name;
          f_non_striker_id := non_striker_id;
          f_bowler_name := bowler_name; f_bowler_id := bowler_id;
          f_runs_batsman := runs_batsman; f_runs_extras := runs_extras;
          f_runs_total := runs_total;
          f_extra_type := extra.1; f_extra_value := extra.2;
          f_n_wickets := n_wickets; f_wicket := wk |}.

(** Lines 578-581: the running counters.  [+=] raises on a [runs_total]
    that is [None], before any counter has changed. *)
Definition count_delivery (innings_idx : Z) (f : delivery_fields) : M Z :=
  match f_runs_total f with
  | None => raise TypeError
  | Some runs_total =>
      modify_loc (set_innings_data (idata_update innings_idx (add_runs runs_total)));;
      modify_loc (set_innings_data (idata_update innings_idx add_ball));;
      (if 0 <? f_n_wickets f
       then modify_loc (set_innings_data
                          (idata_update innings_idx (add_wickets (f_n_wickets f))))
       else mret tt);;
      mret runs_total
  end.

(** The parameters of the [INSERT INTO deliveries] of lines 583-595. *)
Definition delivery_row_of (c : delivery_ctx) (ball_idx ball_seq : Z)
    (f : delivery_fields) (runs_total : Z) : delivery_row :=
  {| d_match_id := c_match_id c; d_innings_number := c_innings_idx c;
     d_over_number := c_over_num c; d_ball_in_over := ball_idx;
     d_ball_sequence := ball_seq;
     d_batsman := f_batsman_name f; d_batsman_id := f_batsman_id f;
     d_non_striker := f_non_striker_name f; d_non_striker_id := f_non_striker_id f;
     d_bowler := f_bowler_name f; d_bowler_id := f_bowler_id f;
     d_runs_batsman := f_runs_batsman f; d_runs_extras := f_runs_extras f;
     d_runs_total := runs_total;
     d_extra_type := f_extra_type f; d_extra_value := f_extra_value f;
     d_is_wicket := 0 <? f_n_wickets f;
     d_wicket_kind := wk_kind (f_wicket f); d_wicket_player := wk_player (f_wicket f);
     d_wicket_player_id := wk_player_id (f_wicket f);
     d_fielder := wk_fielder (f_wicket f); d_fielder_id := wk_fielder_id (f_wicket f) |}.

(** Lines 522-603: one delivery, inside its [try]. *)
Definition process_delivery (c : delivery_ctx) (ball_idx : Z) (delivery : json) : M unit :=
  try_except
    (f ← read_delivery c delivery;
     runs_total ← count_delivery (c_innings_idx c) f;
     l ← get_loc;
     execute (InsertDelivery (delivery_row_of c ball_idx (ball_sequence l) f runs_total));;
     modify_loc (set_ball_sequence (fun n => n + 1));;
     modify_loc (set_total_deliveries (fun n => n + 1)))
    (fun e =>
       modify_loc (set_delivery_errors (fun n => n + 1));;
       l ← get_loc;
       if delivery_errors l <=? 3 then print (LogDeliveryError e) else mret tt).

(** Lines 516-521: one over. *)
Definition process_over (match_id : string) (registry : json) (innings_idx : Z)
    (batting_team bowling_team : json) (over_data : json) : M unit :=
  ov ← lift (py_get over_data "over" JNull);
  over_num ← lift (safe_int ov None);
  deliveries ← lift (py_get over_data "deliveries" (JList []));
  match over_num with
  | None => raise TypeError
  | Some n =>
      modify_loc (set_innings_data (idata_update innings_idx (raise_max_over n)));;
      balls ← lift (py_iter deliveries);
      for_each_from 1 balls
        (process_delivery
           {| c_match_id := match_id; c_registry := registry;
              c_innings_idx := innings_idx; c_batting_team := batting_team;
              c_bowling_team := bowling_team; c_over_num := n |})
  end.

(** Lines 493-515: one innings. *)
Definition process_innings (match_id : string) (registry team1 team2 : json)
    (innings_idx : Z) (innings : json) : M unit :=
  innings_team ← lift (py_get innings "team" JNull);
  overs_list ← lift (py_get innings "overs" (JList []));
  let batting_team := innings_team in
  let bowling_team :=
    if innings_idx =? 1
    then (if py_eq innings_team team1 then team2 else team1)
    else (if py_eq innings_team team2 then team1 else team2) in
  modify_loc (set_innings_data (idata_set innings_idx
    {| a_team := innings_team; a_total_runs := 0; a_total_balls := 0;
       a_wickets := 0; a_max_over := 0;
       a_batting_team := batting_team; a_bowling_team := bowling_team |}));;
  modify_loc (set_ball_sequence (fun _ => 1));;
  overs ← lift (py_iter overs_list);
  for_each overs (process_over match_id registry innings_idx batting_team bowling_team).

(** Lines 489-603: the innings walk. *)
Definition process_deliveries (match_id : string) (registry team1 team2 innings_list : json)
    : M unit :=
  modify_loc (set_innings_data (fun _ => []));;
  modify_loc (set_total_deliveries (fun _ => 0));;
  modify_loc (set_delivery_errors (fun _ => 0));;
  all_innings ← lift (py_iter innings_list);
  for_each_from 1 all_innings (process_innings match_id registry team1 team2).

(** Lines 607-625: the aggregate row of one innings. *)
Definition persist_innings (match_id : string) (balls_per_over : option Z)
    (entry : Z * innings_acc) : M unit :=
  let '(innings_num, data) := entry in
  match balls_per_over with
  | None => raise TypeError
  | Some k =>
      if k =? 0 then raise ZeroDivisionError
      else
        let ov := overs_played (a_total_balls data) k in
        execute (UpsertInnings match_id innings_num
                   {| i_team := a_team data; i_batting_team := a_batting_team data;
                      i_bowling_team := a_bowling_team data;
                      i_total_runs := a_total_runs data;
                      i_total_balls := a_total_balls data;
                      i_wickets := a_wickets data;
                      i_overs := ov;
                      i_run_rate := run_rate (a_total_runs data) ov |});;
        mret tt
  end.

(** Lines 606-627: the aggregate rows, committed. *)
Definition write_aggregates (match_id : string) (balls_per_over : option Z) : M unit :=
  l ← get_loc;
  for_each (innings_data l) (persist_innings match_id balls_per_over);;
  commit.

(** Lines 605-638: the aggregates, and the result of the file. *)
Definition persist_aggregates (match_id : string) (balls_per_over : option Z) : M bool :=
  try_except
    (write_aggregates match_id balls_per_over;;
     l ← get_loc;
     print (LogProcessed (total_deliveries l) (length (innings_data l)));;
     (if 0 <? delivery_errors l then print (LogSkipped (delivery_errors l))
      else mret tt);;
     mret true)
    (fun e => rollback;; print (LogDeliveriesFailed e);; mret false).

(** Lines 444-603: roster, officials and the innings walk. *)
Definition process_body (match_id : string) (h : header) : M unit :=
  people ← lift (py_get (h_info h) "registry" (JDict []));
  registry ← lift (py_get people "people" (JDict []));
  players_info ← lift (py_get (h_info h) "players" (JDict []));
  process_players match_id registry players_info;;
  process_officials match_id (h_info h);;
  process_deliveries match_id registry (h_team1 h) (h_team2 h) (h_innings_list h).

(** [process_json_file(json_file_path, conn, cur)].  [match_id] is the
    file name without [.json]; [content] is what [json.load] returns, or
    [None] when the file cannot be read or parsed.  A call starts with
    fresh locals. *)
Definition process_json_file (match_id : string) (content : option json) : M bool :=
  modify_loc (fun _ => init_locals);;
  print (LogProcessing match_id);;
  match content with
  | None => print LogReadFailed;; mret false
  | Some match_data =>
      h ← lift (read_header match_data);
      ok ← persist_header match_id (h_row h);
      if ok : bool then
        process_body match_id h;;
        persist_aggregates match_id (h_balls_per_over h)
      else mret false
  end.

(** Lines 664-682 of [main]: the tally over the files of a batch. *)
Record tally := {
  successful : Z;
  failed : Z
}.

Definition count_file (t : tally) (match_id : string) (content : option json) : M tally :=
  try_except
    (ok ← process_json_file match_id content;
     if ok : bool
     then mret {| successful := successful t + 1; failed := failed t |}
     else mret {| successful := successful t; failed := failed t + 1 |})
    (fun e =>
       print (LogFatal e);;
       try_except rollback (fun _ => mret tt);;
       mret {| successful := successful t; failed := failed t + 1 |}).

Fixpoint count_files (t : tally) (files : list (string * option json)) : M tally :=
  match files with
  | [] => mret t
  | (match_id, content) :: rest =>
      t' ← count_file t match_id content; count_files t' rest
  end.

(** ** The float coercion *)

(** The [try] block of [safe_float]. *)
Definition safe_float_try (val : json) (dflt : option pyfloat) : result (option pyfloat) :=
  match val with
  | JStr s =>
      let s' := strip s in
      if str_empty s' then Ret dflt
      else f ← py_float (JStr s'); Ret (Some f)
  | _ => f ← py_float val; Ret (Some f)
  end.

(** [safe_float(val, default)] *)
Definition safe_float (val : json) (dflt : option pyfloat) : result (option pyfloat) :=
  if is_none val || py_eq val (JStr "") then Ret dflt
  else
    match safe_float_try val dflt with
    | Ret r => Ret r
    | Raise _ => Ret dflt
    end.

(** ** The schema *)

(** What the server holds of the schema: whether the database of
    [DB_CONFIG] exists, and the names of its tables and views. *)
Record server := {
  has_database : bool;
  tables : list string;
  views : list string
}.

(** The statements of [ensure_database_and_schema]: a table with the
    tables its foreign keys refer to, a view with the tables it reads. *)
Inductive ddl :=
  | CreateDatabase
  | CreateTable (name : string) (refs : list string)
  | CreateView (name : string) (reads : list string).

(** Lines 52-218. *)
Definition table_creation_queries : list ddl :=
  [CreateTable "matches" [];
   CreateTable "players" [];
   CreateTable "match_players" ["players"];
   CreateTable "innings" [];
   CreateTable "deliveries" [];
   CreateTable "partnerships" [];
   CreateTable "match_officials" []].

(** Lines 230-270. *)
Definition view_queries : list ddl :=
  [CreateView "match_summary" ["matches"; "innings"];
   CreateView "team_stats" ["matches"]].

(** The engine: [CREATE DATABASE IF NOT EXISTS]; [CREATE TABLE IF NOT
    EXISTS], which leaves an existing table alone and refuses a foreign
    key to a table that does not exist; [CREATE OR REPLACE VIEW], which
    refuses a view over a table that does not exist.  [None] is an error
    of the engine. *)
Definition run_ddl (q : ddl) (s : server) : option server :=
  match q with
  | CreateDatabase =>
      Some {| has_database := true; tables := tables s; views := views s |}
  | CreateTable name refs =>
      if bool_decide (name ∈ tables s) then Some s
      else if forallb (fun r => bool_decide (r ∈ tables s)) refs
      then Some {| has_database := has_database s; tables := (tables s ++ [name])%list;
                   views := views s |}
      else None
  | CreateView name reads =>
      if forallb (fun r => bool_decide (r ∈ tables s)) reads
      then Some {| has_database := has_database s; tables := tables s;
                   views := if bool_decide (name ∈ views s) then views s
                            else (views s ++ [name])%list |}
      else None
  end.

(** The kinds of call of the setup, for its fault oracle. *)
Inductive setup_op :=
  | SConnect | SCursor | SDatabase | STable | SView | SCommit | SRollback | SClose.

Definition ddl_op (q : ddl) : setup_op :=
  match q with
  | CreateDatabase => SDatabase
  | CreateTable _ _ => STable
  | CreateView _ _ => SView
  end.

(** What the setup prints, without the wording. *)
Inductive setup_entry :=
  | LogSettingUp
  | LogDatabaseVerified
  | LogDatabaseFailed (e : exn)
  | LogTableVerified (i : Z) (n : nat)
  | LogTableFailed (i : Z) (e : exn)
  | LogViewCreated (i : Z) (n : nat)
  | LogViewFailed (i : Z) (e : exn)
  | LogSchemaComplete.

Record setup_world := {
  srv : server;
  s_clock : nat;
  s_log : list setup_entry
}.

Definition Setup (A : Type) : Type := setup_world -> setup_world * result A.

#[global] Instance Setup_ret : MRet Setup := fun A a w => (w, Ret a).
#[global] Instance Setup_bind : MBind Setup := fun A B f c w =>
  match c w with
  | (w', Ret a) => f a w'
  | (w', Raise e) => (w', Raise e)
  end.

Definition s_raise {A} (e : exn) : Setup A := fun w => (w, Raise e).

Definition s_try {A} (c : Setup A) (h : exn -> Setup A) : Setup A := fun w =>
  match c w with
  | (w', Raise e) => h e w'
  | r => r
  end.

Fixpoint s_for_each_from {A} (i0 : Z) (l : list A) (body : Z -> A -> Setup unit)
    : Setup unit :=
  match l with
  | [] => mret tt
  | x :: l' => body i0 x;; s_for_each_from (i0 + 1) l' body
  end.

Definition s_print (e : setup_entry) : Setup unit := fun w =>
  ({| srv := srv w; s_clock := s_clock w; s_log := (s_log w ++ [e])%list |}, Ret tt).

Definition s_tick (w : setup_world) : setup_world :=
  {| srv := srv w; s_clock := S (s_clock w); s_log := s_log w |}.

(** The keys of [DB_CONFIG]. *)
Definition DB_CONFIG : list string :=
  ["host"; "port"; "user"; "password"; "database"; "charset"; "autocommit";
   "raise_on_warnings"; "connection_timeout"].

Context (setup_fault : nat -> setup_op -> bool).

(** A call that changes nothing on the server: [conn.cursor()],
    [conn.commit()] (the statements of the setup commit themselves),
    [conn.rollback()], [close()]. *)
Definition s_call (k : setup_op) : Setup unit := fun w =>
  (s_tick w, if setup_fault (s_clock w) k then Raise StorageError else Ret tt).

(** [mysql.connector.connect] with the keys [cfg]: a configuration that
    names a database needs it to exist. *)
Definition connect (cfg : list string) : Setup unit := fun w =>
  (s_tick w,
   if setup_fault (s_clock w) SConnect then Raise StorageError
   else if bool_decide ("database" ∈ cfg) && negb (has_database (srv w))
   then Raise StorageError
   else Ret tt).

(** [cfg = DB_CONFIG.copy(); cfg.pop("database", None)] *)
Definition connect_no_db : Setup unit :=
  connect (filter (fun k => k ≠ "database") DB_CONFIG).

Definition get_connection : Setup unit := connect DB_CONFIG.

(** [cur.execute(query)] *)
Definition s_execute (q : ddl) : Setup unit := fun w =>
  if setup_fault (s_clock w) (ddl_op q) then (s_tick w, Raise StorageError)
  else
    match run_ddl q (srv w) with
    | Some s => ({| srv := s; s_clock := S (s_clock w); s_log := s_log w |}, Ret tt)
    | None => (s_tick w, Raise StorageError)
    end.

(** Lines 220-228: one table.  A failure is printed, rolled back and
    raised again. *)
Definition create_table (n : nat) (i : Z) (query : ddl) : Setup unit :=
  s_try
    (s_execute query;;
     s_call SCommit;;
     s_print (LogTableVerified i n))
    (fun e => s_print (LogTableFailed i e);; s_call SRollback;; s_raise e).

(** Lines 272-278: one view.  A failure is printed and forgotten. *)
Definition create_view (n : nat) (i : Z) (query : ddl) : Setup unit :=
  s_try
    (s_execute query;;
     s_call SCommit;;
     s_print (LogViewCreated i n))
    (fun e => s_print (LogViewFailed i e)).

(** [ensure_database_and_schema()] *)
Definition ensure_database_and_schema : Setup unit :=
  s_print LogSettingUp;;
  s_try
    (connect_no_db;;
     s_call SCursor;;
     s_execute CreateDatabase;;
     s_call SCommit;;
     s_call SClose;;
     s_call SClose;;
     s_print LogDatabaseVerified)
    (fun e => s_print (LogDatabaseFailed e);; s_raise e);;
  get_connection;;
  s_call SCursor;;
  s_for_each_from 1 table_creation_queries
    (create_table (length table_creation_queries));;
  s_for_each_from 1 view_queries (create_view (length view_queries));;
  s_call SClose;;
  s_call SClose;;
  s_print LogSchemaComplete.

(** ** Sample data *)

(** A runtime to evaluate with: [float(str)] reads an optional sign and
    decimal digits, the sort key of a text is the text with the letters A
    to Z in lower case, and the other three entries are never consulted by
    the samples. *)
Fixpoint digits_value (acc : Z) (s : string) : option Z :=
  match s with
  | EmptyString => Some acc
  | String c s' =>
      let n := Z.of_nat (nat_of_ascii c) in
      if (48 <=? n) && (n <=? 57) then digits_value (10 * acc + (n - 48)) s'
      else None
  end.

Definition sample_float_of_str (s : string) : option pyfloat :=
  match strip s with
  | EmptyString => None
  | String "-" EmptyString | String "+" EmptyString => None
  | String "-" s' => (fun z => FNum (inject_Z (- z))) <$> digits_value 0 s'
  | String "+" s' => (fun z => FNum (inject_Z z)) <$> digits_value 0 s'
  | s' => (fun z => FNum (inject_Z z)) <$> digits_value 0 s'
  end.

Definition lower_case (c : ascii) : ascii :=
  let n := nat_of_ascii c in
  if ((65 <=? n) && (n <=? 90))%nat then ascii_of_nat (n + 32) else c.

Fixpoint fold_case (s : string) : string :=
  match s with
  | EmptyString => EmptyString
  | String c s' => String (lower_case c) (fold_case s')
  end.

Definition sample_runtime : py_runtime :=
  {| float_of_str := sample_float_of_str;
     str_of_float := fun _ => "";
     str_of_container := fun _ => "";
     strptime := fun _ _ => None;
     collation_key := fold_case |}.

Definition no_fault : nat -> op -> bool := fun _ _ => false.

(** The players table cannot be written or read; the rest works. *)
Definition players_down : nat -> op -> bool := fun _ k =>
  match k with
  | OpPlayerUpsert | OpPlayerSelect => true
  | _ => false
  end.

(** The innings table cannot be written; the rest works. *)
Definition innings_down : nat -> op -> bool := fun _ k =>
  match k with
  | OpInnings => true
  | _ => false
  end.

(** Roster links and officials cannot be written; the rest works. *)
Definition children_down : nat -> op -> bool := fun _ k =>
  match k with
  | OpLink | OpOfficial => true
  | _ => false
  end.

Definition empty_world : world :=
  {| cur := empty_db; saved := empty_db; clock := 0; log := []; loc := init_locals |}.

(** A store that already knows one player, with a registry id; the entry
    is the sort key of the name. *)
Definition known_player_world : world :=
  {| cur := set_next_player_id 2
              (set_players <["v kohli" := {| p_id := 1; p_name := "V Kohli";
                                             p_registry_id := JStr "ba607b88" |}]>
                 empty_db);
     saved := set_next_player_id 2
              (set_players <["v kohli" := {| p_id := 1; p_name := "V Kohli";
                                             p_registry_id := JStr "ba607b88" |}]>
                 empty_db);
     clock := 0; log := []; loc := init_locals |}.

(** The deliveries table cannot be written; the rest works. *)
Definition deliveries_down : nat -> op -> bool := fun _ k =>
  match k with
  | OpDelivery => true
  | _ => false
  end.

Definition sample_acc (runs balls : Z) : innings_acc :=
  {| a_team := JStr "Mumbai Indians"; a_total_runs := runs; a_total_balls := balls;
     a_wickets := 0; a_max_over := 2;
     a_batting_team := JStr "Mumbai Indians";
     a_bowling_team := JStr "Chennai Super Kings" |}.

(** A world in the middle of the first innings of match 1001. *)
Definition mid_innings_world : world :=
  {| cur := empty_db; saved := empty_db; clock := 0; log := [];
     loc := {| innings_data := [(1, sample_acc 0 0)]; ball_sequence := 1;
               total_deliveries := 0; delivery_errors := 0 |} |}.

Definition sample_ctx : delivery_ctx :=
  {| c_match_id := "1001"; c_registry := JDict []; c_innings_idx := 1;
     c_batting_team := JStr "Mumbai Indians";
     c_bowling_team := JStr "Chennai Super Kings"; c_over_num := 0 |}.

(** A boundary on which the striker is caught: one dismissal record. *)
Definition sample_wicket_delivery : json :=
  JDict [("batter", JStr "RG Sharma"); ("bowler", JStr "DL Chahar");
         ("non_striker", JStr "Q de Kock");
         ("runs", JDict [("batter", JInt 4); ("extras", JInt 0); ("total", JInt 4)]);
         ("wickets", JList [JDict [("kind", JStr "caught");
                                   ("player_out", JStr "RG Sharma");
                                   ("fielders", JList [JDict [("name", JStr "MS Dhoni")]])]])].

(** A single whose run total is the text "x". *)
Definition sample_unreadable_total : json :=
  JDict [("batter", JStr "RG Sharma"); ("bowler", JStr "DL Chahar");
         ("non_striker", JStr "Q de Kock");
         ("runs", JDict [("batter", JInt 1); ("extras", JInt 0); ("total", JStr "x")])].

Definition sample_delivery (batter non_striker bowler : string) (runs extras : Z) : json :=
  JDict [("batter", JStr batter); ("bowler", JStr bowler);
         ("non_striker", JStr non_striker);
         ("runs", JDict [("batter", JInt runs); ("extras", JInt extras);
                         ("total", JInt (runs + extras))])].

(** One innings of one over: a single, then a wide. *)
Definition sample_match : json :=
  JDict [
    ("meta", JDict [("data_version", JStr "1.1.0")]);
    ("info", JDict [
       ("balls_per_over", JInt 6);
       ("teams", JList [JStr "Mumbai Indians"; JStr "Chennai Super Kings"]);
       ("outcome", JDict [("winner", JStr "Mumbai Indians");
                          ("by", JDict [("runs", JInt 7)])]);
       ("players", JDict [
          ("Mumbai Indians", JList [JStr "RG Sharma"]);
          ("Chennai Super Kings", JList [JStr "DL Chahar"])]);
       ("registry", JDict [("people", JDict [("RG Sharma", JStr "740742ef")])])]);
    ("innings", JList [
       JDict [("team", JStr "Mumbai Indians");
              ("overs", JList [
                 JDict [("over", JInt 0);
                        ("deliveries", JList [
                           sample_delivery "RG Sharma" "Q de Kock" "DL Chahar" 1 0;
                           sample_delivery "Q de Kock" "RG Sharma" "DL Chahar" 0 1])]])]])].

(** The merge policy of the resolver in the specification's words
    (first write wins): a registry identifier that is stored and not null
    survives every later resolution of the name. *)
Definition first_write_wins : Prop :=
  ∀ (w : world) (s : string) (reg : json) (p : player_row),
    players (cur w) !! index_key (truncate_name (strip s)) = Some p ->
    is_none (p_registry_id p) = false ->
    p_registry_id <$>
      players (cur (get_or_create_player (JStr s) reg w).1)
        !! index_key (truncate_name (strip s))
    = Some (p_registry_id p).

(** The deliveries stored for innings [n] of match [mid] (the rows whose
    [match_id] is equal to [mid] as the server compares texts), and their
    runs. *)
Definition innings_rows (mid : string) (n : Z) (d : db) : list delivery_row :=
  filter (fun r => index_key (d_match_id r) = index_key mid ∧ d_innings_number r = n)
    (deliveries d).

Definition sum_runs (rows : list delivery_row) : Z :=
  foldr (fun r acc => d_runs_total r + acc) 0 rows.

(** The invariant of the specification: each innings row of the match
    carries the sum of [runs_total] and the number of its delivery rows. *)
Definition totals_agree (mid : string) (d : db) : Prop :=
  ∀ n row, innings d !! (index_key mid, n) = Some row ->
    sum_runs (innings_rows mid n d) = i_total_runs row ∧
    Z.of_nat (length (innings_rows mid n d)) = i_total_balls row.

(** The match has not been ingested: no innings and no delivery of it. *)
Definition fresh_match (mid : string) (d : db) : Prop :=
  (∀ n, innings d !! (index_key mid, n) = None) ∧
  Forall (fun r => index_key (d_match_id r) ≠ index_key mid) (deliveries d).

(** The world after [n] ingestions of one file in a row. *)
Fixpoint ingest (n : nat) (mid : string) (content : option json) (w : world) : world :=
  match n with
  | O => w
  | S n' => (process_json_file mid content (ingest n' mid content w)).1
  end.

(** * The vocabulary of the properties *)

(** ** Runs of a statement *)

(** [steps R c]: running [c] moves the world along [R], whether [c]
    returns or raises. *)
Definition steps {A} (R : relation world) (c : M A) : Prop :=
  ∀ w, R w (c w).1.

(** [keeps I]: a world that satisfies [I] still does afterwards. *)
Definition keeps (I : world -> Prop) : relation world := fun w w' => I w -> I w'.

(** [P] holds of the image the connection sees and of the committed one. *)
Definition both (P : db -> Prop) (w : world) : Prop := P (cur w) ∧ P (saved w).

(** The deliveries and the locals are as they were. *)
Definition calm : relation world := fun w w' =>
  deliveries (cur w') = deliveries (cur w) ∧ loc w' = loc w.

(** The deliveries and the sequence counter are as they were. *)
Definition quiet : relation world := fun w w' =>
  deliveries (cur w') = deliveries (cur w) ∧
  ball_sequence (loc w') = ball_sequence (loc w).

(** Rows were appended to the deliveries of innings [idx] of [mid], each
    with the sequence number that was current, and nothing else moved the
    counter. *)
Definition appended (mid : string) (idx : Z) : relation world := fun w w' =>
  ∃ rows, deliveries (cur w') = (deliveries (cur w) ++ rows)%list ∧
    ball_sequence (loc w') = ball_sequence (loc w) + Z.of_nat (length rows) ∧
    d_ball_sequence <$> rows = seqZ (ball_sequence (loc w)) (Z.of_nat (length rows)) ∧
    Forall (fun r => d_match_id r = mid ∧ d_innings_number r = idx) rows.

(** ** The worlds a file passes through *)

(** The world in which the first statement of a file runs. *)
Definition file_start (match_id : string) (w : world) : world :=
  {| cur := cur w; saved := saved w; clock := clock w;
     log := (log w ++ [LogProcessing match_id])%list; loc := init_locals |}.

(** The world in which the body of a file starts, its header stored. *)
Definition header_done (mid : string) (row : match_row) (w : world) : world :=
  {| cur := set_matches <[index_key mid := row]> (cur w);
     saved := set_matches <[index_key mid := row]> (cur w);
     clock := S (S (clock w));
     log := (log w ++ [LogProcessing mid])%list;
     loc := init_locals |}.

(** The world after lines 578-581. *)
Definition counted (innings_idx : Z) (f : delivery_fields) (runs_total : Z) (w : world)
    : world :=
  {| cur := cur w; saved := saved w; clock := clock w; log := log w;
     loc := set_innings_data
              (fun l => idata_update innings_idx
                          (fun a => add_wickets (f_n_wickets f) (add_ball (add_runs runs_total a)))
                          l)
              (loc w) |}.

(** The [except] branch of a delivery. *)
Definition delivery_failed (e : exn) : M unit :=
  modify_loc (set_delivery_errors (fun n => n + 1));;
  l ← get_loc;
  if delivery_errors l <=? 3 then print (LogDeliveryError e) else mret tt.

(** The world after a delivery row went in: lines 583-598. *)
Definition delivered (row : delivery_row) (w : world) : world :=
  {| cur := set_deliveries (fun t => (t ++ [row])%list) (cur w);
     saved := if autocommit then set_deliveries (fun t => (t ++ [row])%list) (cur w)
              else saved w;
     clock := S (clock w); log := log w;
     loc := set_total_deliveries (fun n => n + 1)
              (set_ball_sequence (fun n => n + 1) (loc w)) |}.

(** The world after a storage call that raised. *)
Definition ticked (w : world) : world :=
  {| cur := cur w; saved := saved w; clock := S (clock w); log := log w; loc := loc w |}.

(** ** Kinds of statements *)

(** The calls that write neither a delivery nor an innings row. *)
Definition keeps_match_data (k : op) : bool :=
  match k with
  | OpDelivery | OpInnings => false
  | _ => true
  end.

(** The calls that write no innings row. *)
Definition not_innings (k : op) : bool :=
  match k with
  | OpInnings => false
  | _ => true
  end.

(** The statements that leave the players table alone. *)
Definition player_free (s : stmt) : bool :=
  match s with
  | UpsertPlayer _ _ | SelectPlayer _ => false
  | _ => true
  end.

(** The statements the body of a file issues besides resolving players;
    its delivery rows belong to the match. *)
Definition plain (mid : string) (s : stmt) : Prop :=
  match s with
  | UpsertPlayer _ _ | SelectPlayer _ | UpsertMatch _ _ => False
  | InsertDelivery row => d_match_id row = mid
  | _ => True
  end.

(** ** Counters against deliveries *)

(** The match has no innings row. *)
Definition no_innings (mid : string) (d : db) : Prop :=
  ∀ n, innings d !! (index_key mid, n) = None.

(** The counters the locals hold for innings [n]: runs and balls. *)
Definition totals (n : Z) (l : locals) : Z * Z :=
  match idata_get n (innings_data l) with
  | Some a => (a_total_runs a, a_total_balls a)
  | None => (0, 0)
  end.

(** The counters match the deliveries the connection sees. *)
Definition tallied (mid : string) (w : world) : Prop :=
  ∀ n, sum_runs (innings_rows mid n (cur w)) = (totals n (loc w)).1 ∧
       Z.of_nat (length (innings_rows mid n (cur w))) = (totals n (loc w)).2.

(** The walk is about to start innings [i]: the innings before it have
    their counters, which match the deliveries. *)
Definition walking (mid : string) (i : Z) (w : world) : Prop :=
  1 <= i ∧ (innings_data (loc w)).*1 = seqZ 1 (i - 1) ∧ tallied mid w.

(** The aggregate step runs over fixed locals and fixed deliveries. *)
Definition aggregating (mid : string) (w0 w : world) : Prop :=
  loc w = loc w0 ∧ deliveries (cur w) = deliveries (cur w0) ∧
  totals_agree mid (cur w) ∧ totals_agree mid (saved w).

(** ** What a statement does at one key of a table *)

(** At one key, a statement keeps the row, puts a row, or puts a row
    unless there is one. *)
Inductive key_effect (V : Type) :=
  | Keep
  | Default (v : V)
  | Put (v : V).
Arguments Keep {V}.
Arguments Default {V} v.
Arguments Put {V} v.

Definition run_effect {V} (e : key_effect V) (x : option V) : option V :=
  match e with
  | Keep => x
  | Default v => Some (default v x)
  | Put v => Some v
  end.

(** [e1], then [e2]. *)
Definition then_effect {V} (e1 e2 : key_effect V) : key_effect V :=
  match e2 with
  | Keep => e1
  | Put v => Put v
  | Default v =>
      match e1 with
      | Keep => Default v
      | _ => e1
      end
  end.

(** The effect of a list of statements, given that of each. *)
Definition ops_effect {K V} (eff : stmt -> K -> key_effect V) (ops : list stmt) (k : K)
    : key_effect V :=
  foldl (fun e s => then_effect e (eff s k)) Keep ops.

(** The roster links: [ON DUPLICATE KEY UPDATE] puts, [INSERT IGNORE]
    puts unless there is a row. *)
Definition link_effect (s : stmt) (k : string * Z) : key_effect link_row :=
  match s with
  | UpsertMatchPlayer m p team reg =>
      if decide ((index_key m, p) = k) then Put {| l_team := team; l_registry_name := reg |}
      else Keep
  | InsertIgnoreMatchPlayer m p team =>
      if decide ((index_key m, p) = k) then Default {| l_team := team; l_registry_name := JNull |}
      else Keep
  | _ => Keep
  end.

(** The innings rows. *)
Definition innings_effect (s : stmt) (k : string * Z) : key_effect innings_row :=
  match s with
  | UpsertInnings m n row => if decide ((index_key m, n) = k) then Put row else Keep
  | _ => Keep
  end.

(** ** Players across runs *)

(** The identifier the players table gives each entry of its index. *)
Definition ids (d : db) : gmap string Z := p_id <$> players d.

(** Every player the connection sees is committed. *)
Definition psync (w : world) : Prop := players (saved w) = players (cur w).

(** From a world whose players are committed, the players stay committed
    and none of them loses or changes its identifier. *)
Definition grows : relation world := fun w w' =>
  psync w -> psync w' ∧ ids (cur w) ⊆ ids (cur w').

(** ** Two runs of one file *)

(** Two images agree on every table but the players. *)
Definition np_eq (d d' : db) : Prop :=
  matches d = matches d' ∧ match_players d = match_players d' ∧
  innings d = innings d' ∧ deliveries d = deliveries d' ∧
  match_officials d = match_officials d'.

(** The image after a list of statements, none of which raises. *)
Definition apply_ops (ops : list stmt) (d : db) : db :=
  foldl (fun d s => (run_stmt s d).1) d ops.

(** The delivery rows a list of statements inserts. *)
Definition new_rows (ops : list stmt) : list delivery_row :=
  omap (fun s => match s with InsertDelivery row => Some row | _ => None end) ops.

(** The worlds of a first run ([w]) and of a later run ([u]) at the same
    point of the body: same locals; both have issued the same plain
    statements and committed the same ones, starting from [bw] and [bu];
    the later run already knows every player, under the identifiers [F]. *)
Definition related (mid : string) (F : gmap string Z) (bw bu : db) (w u : world) : Prop :=
  loc u = loc w ∧ psync w ∧ ids (cur u) = F ∧ ids (saved u) = F ∧
  ∃ opsC opsS, Forall (plain mid) opsC ∧ Forall (plain mid) opsS ∧
    np_eq (cur w) (apply_ops opsC bw) ∧ np_eq (saved w) (apply_ops opsS bw) ∧
    np_eq (cur u) (apply_ops opsC bu) ∧ np_eq (saved u) (apply_ops opsS bu).

(** Provided the first run ends with players that [F] knows, the later
    run gives the same result and the worlds stay related. *)
Definition replay (mid : string) (F : gmap string Z) (bw bu : db) {A} (c : M A) : Prop :=
  ∀ w u, related mid F bw bu w u -> ids (cur (c w).1) ⊆ F ->
    (c u).2 = (c w).2 ∧ related mid F bw bu (c w).1 (c u).1.

(** A statement that keeps the players and can be replayed. *)
Definition good (mid : string) (F : gmap string Z) (bw bu : db) {A} (c : M A) : Prop :=
  steps grows c ∧ replay mid F bw bu c.

(** ** The deliveries of a file *)

(** [enumerate(l, i0)] *)
Fixpoint enumerate {A} (i0 : Z) (l : list A) : list (Z * A) :=
  match l with
  | [] => []
  | x :: l' => (i0, x) :: enumerate (i0 + 1) l'
  end.

(** A delivery of a file as the walk meets it: the number of its innings
    (from 1), the number of its over, its place in the over (from 1) and
    the record itself. *)
Record file_delivery := {
  fd_innings : Z;
  fd_over : Z;
  fd_ball : Z;
  fd_record : json
}.

(** The deliveries of one over, of the overs of an innings, of an innings
    and of the innings of a file, in the order of the loops of lines 493,
    516 and 521; an exception is one that stops the walk. *)
Definition over_deliveries (innings_idx : Z) (over_data : json) : result (list file_delivery) :=
  ov ← py_get over_data "over" JNull;
  over_num ← safe_int ov None;
  deliveries ← py_get over_data "deliveries" (JList []);
  match over_num with
  | None => Raise TypeError
  | Some n =>
      balls ← py_iter deliveries;
      Ret ((fun bd => {| fd_innings := innings_idx; fd_over := n;
                         fd_ball := bd.1; fd_record := bd.2 |}) <$> enumerate 1 balls)
  end.

Fixpoint overs_deliveries (innings_idx : Z) (overs : list json) : result (list file_delivery) :=
  match overs with
  | [] => Ret []
  | over_data :: rest =>
      ds ← over_deliveries innings_idx over_data;
      ds' ← overs_deliveries innings_idx rest;
      Ret (ds ++ ds')%list
  end.

Definition innings_deliveries (innings_idx : Z) (innings : json) : result (list file_delivery) :=
  overs_list ← py_get innings "overs" (JList []);
  overs ← py_iter overs_list;
  overs_deliveries innings_idx overs.

Fixpoint innings_from (i0 : Z) (all_innings : list json) : result (list file_delivery) :=
  match all_innings with
  | [] => Ret []
  | innings :: rest =>
      ds ← innings_deliveries i0 innings;
      ds' ← innings_from (i0 + 1) rest;
      Ret (ds ++ ds')%list
  end.

Definition walk_deliveries (innings_list : json) : result (list file_delivery) :=
  all_innings ← py_iter innings_list;
  innings_from 1 all_innings.

Definition file_deliveries (match_data : json) : result (list file_delivery) :=
  innings_list ← py_get match_data "innings" (JList []);
  walk_deliveries innings_list.

(** The row is that of the delivery [x] of match [mid]: it carries the
    place of the delivery and the names and runs that lines 523 to 546
    read from its record. *)
Definition row_reads (mid : string) (x : file_delivery) (row : delivery_row) : Prop :=
  d_match_id row = mid ∧ d_innings_number row = fd_innings x ∧
  d_over_number row = fd_over x ∧ d_ball_in_over row = fd_ball x ∧
  py_get (fd_record x) "batter" JNull = Ret (d_batsman row) ∧
  py_get (fd_record x) "non_striker" JNull = Ret (d_non_striker row) ∧
  py_get (fd_record x) "bowler" JNull = Ret (d_bowler row) ∧
  ∃ runs_info both,
    py_get (fd_record x) "runs" (JDict []) = Ret runs_info ∧
    (rb ← py_get runs_info "batter" (JInt 0); safe_int rb None) = Ret (d_runs_batsman row) ∧
    (re ← py_get runs_info "extras" (JInt 0); safe_int re None) = Ret (d_runs_extras row) ∧
    py_add (d_runs_batsman row) (d_runs_extras row) = Ret both ∧
    (tot ← py_get runs_info "total" (JInt both); safe_int tot None)
      = Ret (Some (d_runs_total row)).

(** [rows] are the rows of the deliveries of [ds] that were stored, in
    the order of [ds], and [k] is the number of deliveries of [ds] that
    were not. *)
Inductive stored_rows (mid : string) : list file_delivery -> list delivery_row -> nat -> Prop :=
  | stored_nil : stored_rows mid [] [] 0
  | stored_row x ds row rows k :
      row_reads mid x row -> stored_rows mid ds rows k ->
      stored_rows mid (x :: ds) (row :: rows) k
  | stored_skip x ds rows k :
      stored_rows mid ds rows k -> stored_rows mid (x :: ds) rows (S k).

(** Between [w] and [w'] the walk went over the deliveries [ds]: it
    appended a row for each one it stored and counted the others as
    errors. *)
Definition walked (mid : string) (ds : list file_delivery) : relation world := fun w w' =>
  ∃ rows k, stored_rows mid ds rows k ∧
    deliveries (cur w') = (deliveries (cur w) ++ rows)%list ∧
    delivery_errors (loc w') = delivery_errors (loc w) + Z.of_nat k.

(** The deliveries table cannot be written from the storage call number
    [t] on; the rest works. *)
Definition deliveries_down_from (t : nat) : nat -> op -> bool := fun n k =>
  match k with
  | OpDelivery => (t <=? n)%nat
  | _ => false
  end.

(** The innings table cannot be written before the storage call number
    [t]; the rest works. *)
Definition innings_down_before (t : nat) : nat -> op -> bool := fun n k =>
  match k with
  | OpInnings => (n <? t)%nat
  | _ => false
  end.

(** ** Outcomes of a statement *)

(** [wp c Q E w]: run from [w], the statement [c] returns a value and a
    world in [Q], or raises an exception with a world in [E]. *)
Definition wp {A} (c : M A) (Q : A -> world -> Prop) (E : exn -> world -> Prop)
    (w : world) : Prop :=
  match c w with
  | (w', Ret a) => Q a w'
  | (w', Raise e) => E e w'
  end.

(** ** Players and roster links *)

(** Some row of the players table carries the identifier [pid]. *)
Definition knows (pid : Z) (d : db) : Prop :=
  ∃ k p, players d !! k = Some p ∧ p_id p = pid.

(** The foreign key of [match_players]: every link refers to a player. *)
Definition links_known (d : db) : Prop :=
  ∀ mid pid, is_Some (match_players d !! (mid, pid)) -> knows pid d.

(** The calls that write no roster link. *)
Definition not_link (k : op) : bool :=
  match k with
  | OpLink | OpLinkIgnore => false
  | _ => true
  end.

(** ** Stored deliveries *)

(** The calls that write no delivery. *)
Definition not_delivery (k : op) : bool :=
  match k with
  | OpDelivery => false
  | _ => true
  end.

(** The shape of a stored delivery: the runs of the batter and the extras
    are not NULL, the position in the over counts from 1, a row without a
    dismissal has no dismissal column set, and a row without an extra kind
    has the extra value 0. *)
Definition row_shape (r : delivery_row) : Prop :=
  is_Some (d_runs_batsman r) ∧ is_Some (d_runs_extras r) ∧
  1 <= d_ball_in_over r ∧
  (d_is_wicket r = false ->
   d_wicket_kind r = JNull ∧ d_wicket_player r = JNull ∧ d_wicket_player_id r = None ∧
   d_fielder r = JNull ∧ d_fielder_id r = None) ∧
  (d_extra_type r = None -> d_extra_value r = Some 0).

Definition rows_shaped (d : db) : Prop := Forall row_shape (deliveries d).

(** Rows were appended to the deliveries, and [total_deliveries] grew by
    their number. *)
Definition tallying : relation world := fun w w' =>
  ∃ rows, deliveries (cur w') = (deliveries (cur w) ++ rows)%list ∧
    total_deliveries (loc w') = total_deliveries (loc w) + Z.of_nat (length rows).

(** Of [n] deliveries visited since [w], each has either added a row and
    one to [total_deliveries], or one to [delivery_errors]. *)
Definition accounted (n : nat) (w w' : world) : Prop :=
  ∃ rows, (length rows <= n)%nat ∧
    deliveries (cur w') = (deliveries (cur w) ++ rows)%list ∧
    total_deliveries (loc w') = total_deliveries (loc w) + Z.of_nat (length rows) ∧
    delivery_errors (loc w') = delivery_errors (loc w) + Z.of_nat (n - length rows).

(** ** The outcome of a file *)

(** The calls that write no match row. *)
Definition not_match (k : op) : bool :=
  match k with
  | OpMatch => false
  | _ => true
  end.

(** The match [mid] is stored with the row [row]. *)
Definition has_match (mid : string) (row : match_row) (d : db) : Prop :=
  matches d !! index_key mid = Some row.

(** The locals hold counters for the same innings. *)
Definition same_keys : relation world := fun w w' =>
  (innings_data (loc w')).*1 = (innings_data (loc w)).*1.

(** The parameters of the [INSERT INTO innings] of lines 613-625, for the
    counters [a] and [k] balls to the over. *)
Definition aggregate_row (k : Z) (a : innings_acc) : innings_row :=
  {| i_team := a_team a; i_batting_team := a_batting_team a;
     i_bowling_team := a_bowling_team a;
     i_total_runs := a_total_runs a; i_total_balls := a_total_balls a;
     i_wickets := a_wickets a;
     i_overs := overs_played (a_total_balls a) k;
     i_run_rate := run_rate (a_total_runs a) (overs_played (a_total_balls a) k) |}.

(** [c] raises from every world. *)
Definition raises {A} (c : M A) : Prop := ∀ w, ∃ w' e, c w = (w', Raise e).

(** The innings table holds exactly [t]. *)
Definition innings_are (t : gmap (string * Z) innings_row) (d : db) : Prop :=
  innings d = t.

(** ** Officials *)

(** The names listed under one key of [officials]. *)
Definition official_names (officials : json) (key : string) : result (list json) :=
  names ← py_get officials key (JList []); py_iter names.

(** The rows of one group of officials. *)
Definition official_rows (mid role : string) (names : list json) : list official_row :=
  (fun name => {| o_match_id := mid; o_role := role; o_name := name |}) <$> names.

(** The rows of the officials of a file, group by group. *)
Definition all_official_rows (mid : string) (info : json) : result (list official_row) :=
  officials ← py_get info "officials" (JDict []);
  u ← official_names officials "umpires";
  tv ← official_names officials "tv_umpires";
  rs ← official_names officials "reserve_umpires";
  rf ← official_names officials "match_referees";
  Ret (official_rows mid "umpire" u ++ official_rows mid "tv_umpire" tv ++
       official_rows mid "reserve_umpire" rs ++ official_rows mid "match_referee" rf)%list.

(** The officials step since [w]: nothing was printed, the committed image
    is untouched unless autocommit is on, and [rows] were appended. *)
Definition officials_added (rows : list official_row) (w w' : world) : Prop :=
  match_officials (cur w') = (match_officials (cur w) ++ rows)%list ∧
  log w' = log w ∧ (autocommit = false -> saved w' = saved w).

Definition officials_failed (w w' : world) : Prop :=
  log w' = log w ∧ (autocommit = false -> saved w' = saved w).

(** ** The sides of an innings *)

Definition same_teams (a a' : innings_acc) : Prop :=
  a_team a' = a_team a ∧ a_batting_team a' = a_batting_team a ∧
  a_bowling_team a' = a_bowling_team a.

(** The counters of innings [idx] are still there, with the same teams. *)
Definition teams_kept (idx : Z) : relation world := fun w w' =>
  ∀ a, idata_get idx (innings_data (loc w)) = Some a ->
    ∃ a', idata_get idx (innings_data (loc w')) = Some a' ∧ same_teams a a'.

(** ** The schema setup *)

(** [swp c Q E w]: the outcome of a setup statement, as [wp]. *)
Definition swp {A} (c : Setup A) (Q : A -> setup_world -> Prop)
    (E : exn -> setup_world -> Prop) (w : setup_world) : Prop :=
  match c w with
  | (w', Ret a) => Q a w'
  | (w', Raise e) => E e w'
  end.

(** The object of a statement exists on the server. *)
Definition created (q : ddl) (s : server) : Prop :=
  match q with
  | CreateDatabase => has_database s = true
  | CreateTable name _ => name ∈ tables s
  | CreateView name _ => name ∈ views s
  end.

(** Nothing of [s] is missing in [s']. *)
Definition server_grows (s s' : server) : Prop :=
  (has_database s = true -> has_database s' = true) ∧
  tables s ⊆ tables s' ∧ views s ⊆ views s'.

(** Every foreign key of a list of table statements refers to a table
    that is known or is created earlier in the list. *)
Fixpoint refs_before (known : list string) (l : list ddl) : bool :=
  match l with
  | [] => true
  | CreateTable name refs :: l' =>
      forallb (fun r => bool_decide (r ∈ known)) refs && refs_before (name :: known) l'
  | _ :: _ => false
  end.

(** A view over tables that all exist. *)
Definition view_readable (s : server) (q : ddl) : Prop :=
  match q with
  | CreateView _ reads => ∀ r, r ∈ reads -> r ∈ tables s
  | _ => False
  end.

(** ** What the walk and the resolver leave alone *)

(** In the connection's image every roster link is still there,
    unchanged, and the matches, innings and officials are as they were. *)
Definition roster_kept : relation world := fun w w' =>
  (∀ k row, match_players (cur w) !! k = Some row ->
     match_players (cur w') !! k = Some row) ∧
  matches (cur w') = matches (cur w) ∧
  innings (cur w') = innings (cur w) ∧
  match_officials (cur w') = match_officials (cur w).

(** The statements of the innings walk. *)
Definition walk_stmt (s : stmt) : bool :=
  match s with
  | UpsertPlayer _ _ | SelectPlayer _ | InsertIgnoreMatchPlayer _ _ _
  | InsertDelivery _ => true
  | _ => false
  end.

(** Every kind of call. *)
Definition every_call (k : op) : bool := true.

(** The player [name] (the row a lookup by that name finds) is stored
    under the identifier [id], with a registry identifier that is not
    NULL. *)
Definition registered (name : string) (id : Z) (d : db) : Prop :=
  ∃ p, players d !! index_key name = Some p ∧ p_id p = id ∧
    is_none (p_registry_id p) = false.

(** ** More sample data *)

(** The matches table cannot be written; the rest works. *)
Definition matches_down : nat -> op -> bool := fun _ k =>
  match k with
  | OpMatch => true
  | _ => false
  end.

(** The first over of match 1001. *)
Definition sample_over : list (string * json) :=
  [("over", JInt 0);
   ("deliveries", JList [sample_delivery "RG Sharma" "Q de Kock" "DL Chahar" 1 0;
                         sample_delivery "Q de Kock" "RG Sharma" "DL Chahar" 0 1])].

(** A file whose only over has no number. *)
Definition unnumbered_over : list (string * json) :=
  [("deliveries", JList [sample_delivery "RG Sharma" "Q de Kock" "DL Chahar" 1 0])].

Definition unnumbered_innings : list (string * json) :=
  [("team", JStr "Mumbai Indians"); ("overs", JList [JDict unnumbered_over])].

Definition unnumbered_match : json :=
  JDict [("info", JDict [("teams", JList [JStr "Mumbai Indians";
                                          JStr "Chennai Super Kings"])]);
         ("innings", JList [JDict unnumbered_innings])].

(** The info section of match 1001. *)
Definition sample_info : list (string * json) :=
  [("balls_per_over", JInt 6);
   ("teams", JList [JStr "Mumbai Indians"; JStr "Chennai Super Kings"]);
   ("outcome", JDict [("winner", JStr "Mumbai Indians");
                      ("by", JDict [("runs", JInt 7)])]);
   ("players", JDict [
      ("Mumbai Indians", JList [JStr "RG Sharma"]);
      ("Chennai Super Kings", JList [JStr "DL Chahar"])]);
   ("registry", JDict [("people", JDict [("RG Sharma", JStr "740742ef")])])].

(** A match with two umpires and a referee. *)
Definition sample_officials : json :=
  JDict [("officials", JDict [("umpires", JList [JStr "Nitin Menon"; JStr "AK Chaudhary"]);
                              ("match_referees", JList [JStr "J Srinath"])])].

(** A server without the database, and a setup in which nothing fails. *)
Definition empty_setup : setup_world :=
  {| srv := {| has_database := false; tables := []; views := [] |};
     s_clock := 0; s_log := [] |}.

Definition no_setup_fault : nat -> setup_op -> bool := fun _ _ => false.

(** A setup in which every view fails. *)
Definition views_down : nat -> setup_op -> bool := fun _ k =>
  match k with
  | SView => true
  | _ => false
  end.

(** * Properties *)

(** ** Scalar coercion *)

Lemma float_of_int_small (z : Z) : Z.abs z < 2 ^ 53 -> float_of_int z = Some z.
Proof.
  intros Hz. unfold float_of_int.
  assert (Z.log2 (Z.abs z) + 1 <= 53) as Hlog.
  { destruct (Z.eq_dec (Z.abs z) 0) as [->|Hne]; [simpl; lia|].
    assert (Z.log2 (Z.abs z) < 53); [|lia].
    apply Z.log2_lt_pow2; lia. }
  apply Z.leb_le in Hlog. by rewrite Hlog.
Qed.

Lemma safe_int_never_raises (val : json) (dflt : option Z) :
  ∃ r, safe_int val dflt = Ret r.
Proof.
  unfold safe_int. destruct (is_none val || py_eq val (JStr "")); [eauto|].
  destruct (safe_int_try val dflt); eauto.
Qed.

Lemma str_empty_true (s : string) : str_empty s = true -> s = "".
Proof. by destruct s. Qed.

(** The value [safe_int] gives to a [str]: the default when nothing is left
    after stripping or when [float] or [int] raise, else the integer part
    of the float read from the stripped text. *)
Lemma safe_int_str (s : string) (dflt : option Z) :
  safe_int (JStr s) dflt =
  Ret (if str_empty (strip s) then dflt
       else match float_of_str rt (strip s) with
            | Some (FNum q) => Some (Qnum q ÷ Z.pos (Qden q))
            | _ => dflt
            end).
Proof.
  unfold safe_int. simpl.
  destruct (String.eqb_spec s "") as [->|Hs]; [done|].
  unfold safe_int_try. destruct (str_empty (strip s)); [done|].
  simpl. destruct (float_of_str rt (strip s)) as [[q| |]|]; done.
Qed.

(** C8.  [safe_int] (the spec's coerceInt) returns on every input and never
    raises; it returns the default for [None], for an empty or
    whitespace-only string, for a string [float] rejects and for a list or
    a dict; an int below 2^53 in magnitude comes back unchanged, a string
    is stripped before its number is read, a finite float is cut towards
    zero, and an infinite or undefined float gives the default. *)
Theorem safe_int_total :
  (∀ val dflt, ∃ r, safe_int val dflt = Ret r) ∧
  (∀ dflt, safe_int JNull dflt = Ret dflt) ∧
  (∀ s dflt, strip s = "" -> safe_int (JStr s) dflt = Ret dflt) ∧
  (∀ s dflt, float_of_str rt (strip s) = None -> safe_int (JStr s) dflt = Ret dflt) ∧
  (∀ l dflt, safe_int (JList l) dflt = Ret dflt) ∧
  (∀ d dflt, safe_int (JDict d) dflt = Ret dflt) ∧
  (∀ z dflt, Z.abs z < 2 ^ 53 -> safe_int (JInt z) dflt = Ret (Some z)) ∧
  (∀ s q dflt, strip s ≠ "" -> float_of_str rt (strip s) = Some (FNum q) ->
     safe_int (JStr s) dflt = Ret (Some (Qnum q ÷ Z.pos (Qden q)))) ∧
  (∀ q dflt, safe_int (JFloat (FNum q)) dflt = Ret (Some (Qnum q ÷ Z.pos (Qden q)))) ∧
  (∀ f dflt, (∀ q, f ≠ FNum q) -> safe_int (JFloat f) dflt = Ret dflt).
Proof.
  split; [apply safe_int_never_raises|].
  split; [done|].
  split. { intros s dflt Hs. by rewrite safe_int_str, Hs. }
  split. { intros s dflt Hs. rewrite safe_int_str, Hs. by destruct (str_empty _). }
  split; [done|]. split; [done|].
  split.
  { intros z dflt Hz. unfold safe_int, safe_int_try. simpl.
    rewrite (float_of_int_small z Hz). simpl. by rewrite Z.quot_1_r. }
  split.
  { intros s q dflt Hs Hq. rewrite safe_int_str, Hq.
    destruct (str_empty (strip s)) eqn:E; [|done].
    by apply str_empty_true in E. }
  split; [done|].
  intros [q| |] dflt Hf; [by destruct (Hf q)|done..].
Qed.

(** ** Margin *)

(** C9.  The margin of lines 400-406: an outcome whose [by] holds [runs]
    gives the runs text, one whose [by] holds [wickets] and no [runs] gives
    the wickets text, and an outcome without [by], or whose [by] holds
    neither key, leaves the margin unset. *)
Theorem margin_rendering :
  (∀ d b n, dict_get d "by" = Some (JDict b) -> dict_get b "runs" = Some n ->
     margin_of (JDict d) = Ret (Some (py_str n +:+ " runs"))) ∧
  (∀ d b n, dict_get d "by" = Some (JDict b) -> dict_get b "runs" = None ->
     dict_get b "wickets" = Some n ->
     margin_of (JDict d) = Ret (Some (py_str n +:+ " wickets"))) ∧
  (∀ d b, dict_get d "by" = Some (JDict b) -> dict_get b "runs" = None ->
     dict_get b "wickets" = None -> margin_of (JDict d) = Ret None) ∧
  (∀ d, dict_get d "by" = None -> margin_of (JDict d) = Ret None) ∧
  margin_of (JDict [("by", JDict [("runs", JInt 7)])]) = Ret (Some "7 runs") ∧
  margin_of (JDict [("by", JDict [("wickets", JInt 4)])]) = Ret (Some "4 wickets") ∧
  margin_of (JDict [("winner", JStr "Mumbai Indians")]) = Ret None.
Proof.
  repeat split.
  - intros d b n Hby Hruns. unfold margin_of, py_contains, py_item, dict_has; simpl.
    rewrite Hby; simpl. unfold dict_has. by rewrite Hruns.
  - intros d b n Hby Hruns Hwk. unfold margin_of, py_contains, py_item, dict_has; simpl.
    rewrite Hby; simpl. unfold dict_has. rewrite Hruns; simpl. by rewrite Hwk.
  - intros d b Hby Hruns Hwk. unfold margin_of, py_contains, py_item, dict_has; simpl.
    rewrite Hby; simpl. unfold dict_has. rewrite Hruns; simpl. by rewrite Hwk.
  - intros d Hby. unfold margin_of, py_contains, dict_has; simpl. by rewrite Hby.
Qed.

(** ** Overs played *)

(** The row [persist_innings] writes for an innings. *)
Lemma persist_innings_row (match_id : string) (k n : Z) (data : innings_acc) (w : world) :
  k ≠ 0 -> fault (clock w) OpInnings = false ->
  ∃ w', persist_innings match_id (Some k) (n, data) w = (w', Ret tt) ∧
    innings (cur w') !! (index_key match_id, n) =
      Some {| i_team := a_team data; i_batting_team := a_batting_team data;
              i_bowling_team := a_bowling_team data;
              i_total_runs := a_total_runs data;
              i_total_balls := a_total_balls data;
              i_wickets := a_wickets data;
              i_overs := overs_played (a_total_balls data) k;
              i_run_rate := run_rate (a_total_runs data)
                              (overs_played (a_total_balls data) k) |}.
Proof.
  intros Hk Hf. unfold persist_innings.
  destruct (Z.eqb_spec k 0) as [|_]; [done|].
  unfold mbind, M_bind, execute. simpl. rewrite Hf. simpl.
  eexists; split; [done|]. simpl. apply lookup_insert_eq.
Qed.

(** C5.  With [k > 0] balls per over and [b] balls counted, the overs value
    stored for the innings is [b div k + (b mod k)/10] when [b mod k > 0]
    and [b div k] otherwise; 17 balls of 6 give 2.5 and 18 balls give 3. *)
Theorem overs_played_stored (match_id : string) (k n : Z) (data : innings_acc) (w : world) :
  0 < k -> fault (clock w) OpInnings = false ->
  let b := a_total_balls data in
  (∃ w' row, persist_innings match_id (Some k) (n, data) w = (w', Ret tt) ∧
     innings (cur w') !! (index_key match_id, n) = Some row ∧
     i_overs row = overs_played b k) ∧
  (0 < b mod k -> overs_played b k = (inject_Z (b / k) + inject_Z (b mod k) / 10)%Q) ∧
  (b mod k = 0 -> overs_played b k = inject_Z (b / k)) ∧
  (overs_played 17 6 == 2.5)%Q ∧
  overs_played 18 6 = 3%Q.
Proof.
  intros Hk Hf b. split; [|split; [|split; [|split]]].
  - destruct (persist_innings_row match_id k n data w) as (w' & Hrun & Hrow); [lia|done|].
    eexists _, _. split; [exact Hrun|]. split; [exact Hrow|done].
  - intros Hrem. unfold overs_played. by apply Z.ltb_lt in Hrem as ->.
  - intros Hrem. unfold overs_played. by rewrite Hrem.
  - done.
  - done.
Qed.

(** ** Player identity *)

Lemma bind_ret_run {A B} (c : M A) (f : A -> M B) (w w' : world) (a : A) :
  c w = (w', Ret a) -> (c ≫= f) w = f a w'.
Proof. intros H. unfold mbind, M_bind. by rewrite H. Qed.

Lemma bind_raise_run {A B} (c : M A) (f : A -> M B) (w w' : world) (e : exn) :
  c w = (w', Raise e) -> (c ≫= f) w = (w', Raise e).
Proof. intros H. unfold mbind, M_bind. by rewrite H. Qed.

Lemma truthy_nonblank (s : string) : strip s ≠ "" -> truthy (JStr s) = true.
Proof. intros H. destruct s; [done|reflexivity]. Qed.

Lemma str_empty_false (s : string) : s ≠ "" -> str_empty s = false.
Proof. by destruct s. Qed.

(** A name that is falsy, or blank once stripped, resolves to nothing and
    touches nothing. *)
Lemma resolve_blank (name reg : json) (w : world) :
  truthy name = false ∨ (∃ s, name = JStr s ∧ strip s = "") ->
  get_or_create_player name reg w = (w, Ret None).
Proof.
  intros [H|(s & -> & H)]; unfold get_or_create_player.
  - by rewrite H.
  - destruct (truthy (JStr s)); [|done]. simpl.
    unfold mbind, M_bind, lift. simpl. by rewrite H.
Qed.

(** What a named player resolves to, call by call. *)
Lemma resolve_named (s : string) (reg : json) (w : world) :
  strip s ≠ "" ->
  get_or_create_player (JStr s) reg w =
  try_except
    (lastrowid ← execute (UpsertPlayer (truncate_name (strip s)) reg);
     commit;; mret lastrowid)
    (fun _ =>
       try_except
         (execute (SelectPlayer (truncate_name (strip s))))
         (fun e2 => print (LogPlayerFailed (truncate_name (strip s)) e2);; mret None)) w.
Proof.
  intros H. unfold get_or_create_player.
  rewrite (truthy_nonblank s H). simpl.
  unfold mbind at 1, M_bind at 1, lift. simpl.
  by rewrite (str_empty_false _ H).
Qed.

(** [get_or_create_player] raises on no [str]. *)
Lemma resolve_str_returns (s : string) (reg : json) (w : world) :
  ∃ w' r, get_or_create_player (JStr s) reg w = (w', Ret r).
Proof.
  destruct (decide (strip s = "")) as [H|H].
  - exists w, None. apply resolve_blank. right. by exists s.
  - rewrite (resolve_named s reg w H).
    unfold try_except, mbind, M_bind, execute, commit, print, mret, M_ret. simpl.
    destruct (fault (clock w) OpPlayerUpsert); simpl.
    + destruct (fault (S (clock w)) OpPlayerSelect); simpl; eauto.
    + destruct (upsert_player _ reg (cur w)) as [d id]. simpl.
      destruct (fault (S (clock w)) OpCommit); simpl; [|eauto].
      destruct (fault (S (S (clock w))) OpPlayerSelect); simpl; eauto.
Qed.

(** C3, as the code has it.  Resolving a name the players table already
    holds (a stored name is the same name when it is equal under the
    collation of the table) returns the stored identifier; the stored
    registry identifier is replaced by the supplied one whenever the
    supplied one is not null, and kept when it is null; the stored name
    stays as it was written, and no other player changes. *)
Theorem resolve_existing_player (s : string) (reg : json) (w : world) (p : player_row) :
  strip s ≠ "" ->
  players (cur w) !! index_key (truncate_name (strip s)) = Some p ->
  fault (clock w) OpPlayerUpsert = false ->
  fault (S (clock w)) OpCommit = false ->
  ∃ w', get_or_create_player (JStr s) reg w = (w', Ret (Some (p_id p))) ∧
    players (cur w') !! index_key (truncate_name (strip s)) =
      Some {| p_id := p_id p; p_name := p_name p;
              p_registry_id := if is_none reg then p_registry_id p else reg |} ∧
    (∀ other, other ≠ index_key (truncate_name (strip s)) ->
       players (cur w') !! other = players (cur w) !! other).
Proof.
  intros Hs Hp Hf1 Hf2. rewrite (resolve_named s reg w Hs).
  unfold try_except, mbind, M_bind, execute, commit, mret, M_ret. simpl.
  rewrite Hf1. unfold upsert_player. rewrite Hp. simpl. rewrite Hf2.
  eexists. split; [done|]. simpl. split.
  - apply lookup_insert_eq.
  - intros other Ho. by apply lookup_insert_ne.
Qed.

(** ** Reasoning about statements *)

Section steps_rules.
Context (R : relation world) `{!PreOrder R}.

Lemma steps_ret {A} (a : A) : steps R (mret a).
Proof. intros w. simpl. reflexivity. Qed.

Lemma steps_lift {A} (r : result A) : steps R (lift r).
Proof. intros w. simpl. reflexivity. Qed.

Lemma steps_raise {A} (e : exn) : steps R (raise (A:=A) e).
Proof. intros w. simpl. reflexivity. Qed.

Lemma steps_get_loc : steps R get_loc.
Proof. intros w. simpl. reflexivity. Qed.

Lemma steps_bind {A B} (c : M A) (f : A -> M B) :
  steps R c -> (∀ a, steps R (f a)) -> steps R (c ≫= f).
Proof.
  intros Hc Hf w. unfold mbind, M_bind. specialize (Hc w).
  destruct (c w) as [w1 [a|e]]; simpl in *; [|done].
  etrans; [exact Hc|apply Hf].
Qed.

Lemma steps_try {A} (c : M A) (h : exn -> M A) :
  steps R c -> (∀ e, steps R (h e)) -> steps R (try_except c h).
Proof.
  intros Hc Hh w. unfold try_except. specialize (Hc w).
  destruct (c w) as [w1 [a|e]]; simpl in *; [done|].
  etrans; [exact Hc|apply Hh].
Qed.

Lemma steps_for_each {A} (l : list A) (body : A -> M unit) :
  (∀ x, steps R (body x)) -> steps R (for_each l body).
Proof.
  intros Hb. induction l as [|x l IH]; simpl.
  - apply steps_ret.
  - apply steps_bind; [apply Hb|]. intros _. exact IH.
Qed.

Lemma steps_for_each_from {A} (i0 : Z) (l : list A) (body : Z -> A -> M unit) :
  (∀ i x, steps R (body i x)) -> steps R (for_each_from i0 l body).
Proof.
  intros Hb. revert i0. induction l as [|x l IH]; intros i0; simpl.
  - apply steps_ret.
  - apply steps_bind; [apply Hb|]. intros _. apply IH.
Qed.
End steps_rules.

Create HintDb steps discriminated.

(** One structural rule, chosen by the shape of the statement. *)
Ltac steps_step :=
  lazymatch goal with
  | |- PreOrder _ => apply _
  | |- ∀ _, _ => intros ?
  | |- steps _ (mret _) => apply steps_ret
  | |- steps _ (lift _) => apply steps_lift
  | |- steps _ (raise _) => apply steps_raise
  | |- steps _ get_loc => apply steps_get_loc
  | |- steps _ (_ ≫= _) => apply steps_bind
  | |- steps _ (try_except _ _) => apply steps_try
  | |- steps _ (for_each _ _) => apply steps_for_each
  | |- steps _ (for_each_from _ _ _) => apply steps_for_each_from
  | |- steps _ (if ?b then _ else _) => destruct b
  | |- steps _ (match ?x with _ => _ end) => destruct x
  end.

Ltac steps_auto :=
  repeat first [solve [auto with steps] | steps_step].

(** *** Statements that leave the deliveries and the locals alone *)

#[local] Instance calm_preorder : PreOrder calm.
Proof.
  split.
  - by intros w.
  - intros w1 w2 w3 [H1 H1'] [H2 H2']. split; congruence.
Qed.

Lemma run_stmt_deliveries (s : stmt) (d : db) :
  stmt_op s ≠ OpDelivery -> deliveries (run_stmt s d).1 = deliveries d.
Proof.
  destruct s; simpl; try done.
  unfold upsert_player. by destruct (players d !! index_key player_name).
Qed.

Lemma calm_execute (s : stmt) : stmt_op s ≠ OpDelivery -> steps calm (execute s).
Proof.
  intros Hs w. unfold execute. destruct (fault (clock w) (stmt_op s)); [done|].
  pose proof (run_stmt_deliveries s (cur w) Hs) as Hd.
  destruct (run_stmt s (cur w)) as [d r]. by split.
Qed.

Lemma calm_commit : steps calm commit.
Proof. intros w. unfold commit. by destruct (fault (clock w) OpCommit). Qed.

Lemma calm_print (e : log_entry) : steps calm (print e).
Proof. by intros w. Qed.

#[local] Hint Resolve calm_commit calm_print : steps.
#[local] Hint Extern 1 (steps calm (execute _)) => (apply calm_execute; discriminate) : steps.

Lemma calm_resolve (name reg : json) : steps calm (get_or_create_player name reg).
Proof. unfold get_or_create_player. steps_auto. Qed.
#[local] Hint Resolve calm_resolve : steps.

Lemma calm_link_seen (match_id : string) (pid : option Z) (pname team : json) :
  steps calm (link_seen_player match_id pid pname team).
Proof. unfold link_seen_player. steps_auto. Qed.
#[local] Hint Resolve calm_link_seen : steps.

Lemma calm_read_wicket (registry wickets : json) :
  steps calm (read_wicket registry wickets).
Proof. unfold read_wicket. steps_auto. Qed.
#[local] Hint Resolve calm_read_wicket : steps.

Lemma calm_read_delivery (c : delivery_ctx) (delivery : json) :
  steps calm (read_delivery c delivery).
Proof. unfold read_delivery. steps_auto. Qed.

(** *** Inversion of a run *)

Lemma bind_ret_inv {A B} (c : M A) (f : A -> M B) (w w' : world) (b : B) :
  (c ≫= f) w = (w', Ret b) -> ∃ a w1, c w = (w1, Ret a) ∧ f a w1 = (w', Ret b).
Proof.
  unfold mbind, M_bind. destruct (c w) as [w1 [a|e]]; [eauto|done].
Qed.

Lemma lift_ret_inv {A} (r : result A) (w w' : world) (a : A) :
  lift r w = (w', Ret a) -> r = Ret a ∧ w' = w.
Proof. unfold lift. by intros [= -> ->]. Qed.

Lemma mret_inv {A} (a b : A) (w w' : world) :
  mret (M:=M) a w = (w', Ret b) -> b = a ∧ w' = w.
Proof. by intros [= -> ->]. Qed.

(** Peels the binds of a run that returned, naming what each step gave. *)
Ltac run_inv H :=
  repeat lazymatch type of H with
  | (_ ≫= _) _ = (_, Ret _) =>
      let a := fresh "a" in let w1 := fresh "w" in
      let H1 := fresh "Hrun" in
      apply bind_ret_inv in H as (a & w1 & H1 & H);
      try (apply lift_ret_inv in H1 as [H1 ->])
  | mret _ _ = (_, Ret _) => apply mret_inv in H as [-> ->]
  end.

(** *** The counters of an innings *)

Lemma idata_get_update (i : Z) (g : innings_acc -> innings_acc) (l : list (Z * innings_acc)) :
  idata_get i (idata_update i g l) = g <$> idata_get i l.
Proof.
  induction l as [|[j b] l IH]; [done|]. simpl.
  destruct (j =? i) eqn:E; simpl; rewrite E; [done|exact IH].
Qed.

Lemma idata_get_update_ne (i k : Z) (g : innings_acc -> innings_acc)
    (l : list (Z * innings_acc)) :
  i ≠ k -> idata_get k (idata_update i g l) = idata_get k l.
Proof.
  intros Hne. induction l as [|[j b] l IH]; [done|]. simpl.
  destruct (Z.eqb_spec j i) as [->|Hj]; simpl.
  - destruct (Z.eqb_spec i k); [done|reflexivity].
  - destruct (j =? k); [done|exact IH].
Qed.

Lemma idata_update_twice (i : Z) (g h : innings_acc -> innings_acc)
    (l : list (Z * innings_acc)) :
  idata_update i h (idata_update i g l) = idata_update i (fun a => h (g a)) l.
Proof.
  induction l as [|[j b] l IH]; [done|]. simpl.
  destruct (j =? i) eqn:E; simpl; rewrite E; [done|by rewrite IH].
Qed.

Lemma add_wickets_0 (a : innings_acc) : add_wickets 0 a = a.
Proof. destruct a. unfold add_wickets. simpl. f_equal. lia. Qed.

Lemma count_delivery_run (innings_idx : Z) (f : delivery_fields) (runs_total : Z) (w : world) :
  f_runs_total f = Some runs_total -> 0 <= f_n_wickets f ->
  count_delivery innings_idx f w = (counted innings_idx f runs_total w, Ret runs_total).
Proof.
  intros Hf Hn. unfold count_delivery, counted. rewrite Hf.
  unfold mbind, M_bind, modify_loc, mret, M_ret. simpl.
  destruct (Z.ltb_spec 0 (f_n_wickets f)) as [Hlt|Hge]; simpl;
    unfold set_innings_data; simpl; rewrite !idata_update_twice; [done|].
  assert (f_n_wickets f = 0) as -> by lia.
  do 3 f_equal. clear. induction (innings_data (loc w)) as [|[j b] l IH]; [done|].
  simpl. destruct (j =? innings_idx); [by rewrite add_wickets_0|by rewrite IH].
Qed.

Lemma py_len_nonneg (v : json) (n : Z) : py_len v = Ret n -> 0 <= n.
Proof. destruct v; simpl; intros [= <-]; lia. Qed.

(** What a delivery that was read says about its dismissals:
    [f_n_wickets] is [len(wickets)]. *)
Lemma read_delivery_wickets (c : delivery_ctx) (delivery : json) (w w1 : world)
    (f : delivery_fields) :
  read_delivery c delivery w = (w1, Ret f) ->
  ∃ d, delivery = JDict d ∧
    py_len (default (JList []) (dict_get d "wickets")) = Ret (f_n_wickets f) ∧
    0 <= f_n_wickets f.
Proof.
  intros H. unfold read_delivery in H. run_inv H.
  destruct delivery; try done. simpl in *.
  exists d. split; [done|]. simplify_eq. split; [done|].
  by eapply py_len_nonneg.
Qed.

(** A delivery, case by case: it is not read; it is read but its total is
    [None]; it is counted and the insert raises; it is counted and stored. *)
Lemma process_delivery_run (c : delivery_ctx) (ball_idx : Z) (delivery : json) (w : world) :
  process_delivery c ball_idx delivery w =
  match read_delivery c delivery w with
  | (w1, Raise e) => delivery_failed e w1
  | (w1, Ret f) =>
      match f_runs_total f with
      | None => delivery_failed TypeError w1
      | Some runs_total =>
          let w2 := counted (c_innings_idx c) f runs_total w1 in
          if fault (clock w2) OpDelivery
          then delivery_failed StorageError (ticked w2)
          else (delivered (delivery_row_of c ball_idx (ball_sequence (loc w2)) f runs_total) w2,
                Ret tt)
      end
  end.
Proof.
  unfold process_delivery, try_except.
  destruct (read_delivery c delivery w) as [w1 [f|e]] eqn:Hread.
  - rewrite (bind_ret_run _ _ _ _ _ Hread).
    destruct (read_delivery_wickets _ _ _ _ _ Hread) as (d & _ & _ & Hn).
    destruct (f_runs_total f) as [runs_total|] eqn:Ht.
    + rewrite (bind_ret_run _ _ _ _ _ (count_delivery_run _ _ _ _ Ht Hn)).
      unfold mbind, M_bind, get_loc, execute, modify_loc. simpl.
      by destruct (fault (clock w1) OpDelivery).
    + unfold count_delivery. rewrite Ht. by unfold mbind, M_bind, raise.
  - by rewrite (bind_raise_run _ _ _ _ _ Hread).
Qed.

Lemma delivery_failed_run (e : exn) (w : world) :
  ∃ w', delivery_failed e w = (w', Ret tt) ∧ cur w' = cur w ∧ saved w' = saved w ∧
    clock w' = clock w ∧ loc w' = set_delivery_errors (fun n => n + 1) (loc w).
Proof.
  unfold delivery_failed, mbind, M_bind, modify_loc, get_loc. simpl.
  destruct (delivery_errors (loc w) + 1 <=? 3); simpl; eauto 10.
Qed.

(** ** Running counters *)

(** C6, as the code has it.  A delivery that has been read reaches the
    counters of its innings.  When its run total is an int, the counters
    move before the insert is tried and whatever the insert does: the runs
    by the delivery's total, the balls by one, the wickets by
    [len(wickets)]; when the insert raises, no row is stored and the
    delivery counts as an error, yet the counters keep the update.  When
    its run total is [None] ([safe_int] could not read it), adding it to
    the runs raises: no counter moves, no row is stored and the delivery
    counts as an error. *)
Theorem counters_update_before_insert (c : delivery_ctx) (ball_idx : Z) (delivery : json)
    (w w1 : world) (f : delivery_fields) (a : innings_acc) :
  read_delivery c delivery w = (w1, Ret f) ->
  idata_get (c_innings_idx c) (innings_data (loc w)) = Some a ->
  let w' := (process_delivery c ball_idx delivery w).1 in
  (∃ d, delivery = JDict d ∧
     py_len (default (JList []) (dict_get d "wickets")) = Ret (f_n_wickets f)) ∧
  (∀ runs_total, f_runs_total f = Some runs_total ->
     (∃ a', idata_get (c_innings_idx c) (innings_data (loc w')) = Some a' ∧
        a_total_runs a' = a_total_runs a + runs_total ∧
        a_total_balls a' = a_total_balls a + 1 ∧
        a_wickets a' = a_wickets a + f_n_wickets f) ∧
     (fault (clock w1) OpDelivery = true ->
        deliveries (cur w') = deliveries (cur w) ∧
        delivery_errors (loc w') = delivery_errors (loc w) + 1) ∧
     (fault (clock w1) OpDelivery = false ->
        ∃ row, deliveries (cur w') = (deliveries (cur w) ++ [row])%list ∧
          d_runs_total row = runs_total)) ∧
  (f_runs_total f = None ->
     idata_get (c_innings_idx c) (innings_data (loc w')) = Some a ∧
     deliveries (cur w') = deliveries (cur w) ∧
     delivery_errors (loc w') = delivery_errors (loc w) + 1).
Proof.
  intros Hread Ha w'.
  destruct (read_delivery_wickets _ _ _ _ _ Hread) as (d & Hd & Hlen & Hn).
  destruct (calm_read_delivery c delivery w) as [Hdel Hloc].
  rewrite Hread in Hdel, Hloc. simpl in Hdel, Hloc.
  split; [by exists d|]. split.
  - intros runs_total Ht.
    assert (idata_get (c_innings_idx c)
              (innings_data (loc (counted (c_innings_idx c) f runs_total w1))) =
            Some (add_wickets (f_n_wickets f) (add_ball (add_runs runs_total a)))) as Hacc.
    { simpl. by rewrite idata_get_update, Hloc, Ha. }
    subst w'. rewrite process_delivery_run, Hread, Ht. simpl.
    destruct (fault (clock w1) OpDelivery) eqn:Hfault.
    + destruct (delivery_failed_run StorageError
                  (ticked (counted (c_innings_idx c) f runs_total w1)))
        as (w2 & -> & Hcur & _ & _ & Hloc2). simpl.
      split; [|split; [|done]].
      * eexists. split; [by rewrite Hloc2|done].
      * intros _. rewrite Hcur, Hloc2. simpl. by rewrite Hdel, Hloc.
    + simpl. split; [|split; [done|]].
      * eexists. split; [exact Hacc|done].
      * intros _. eexists. by rewrite Hdel.
  - intros Ht. subst w'. rewrite process_delivery_run, Hread, Ht.
    destruct (delivery_failed_run TypeError w1) as (w2 & -> & Hcur & _ & _ & Hloc2).
    simpl. rewrite Hcur, Hloc2, Hdel, Hloc. simpl. by rewrite Ha.
Qed.

(** ** Sequence numbers *)

#[local] Instance appended_preorder (mid : string) (idx : Z) : PreOrder (appended mid idx).
Proof.
  split.
  - intros w. exists []. rewrite app_nil_r. simpl. repeat split; [lia|constructor].
  - intros w1 w2 w3 (r1 & Hd1 & Hs1 & Hq1 & Hf1) (r2 & Hd2 & Hs2 & Hq2 & Hf2).
    exists (r1 ++ r2)%list. rewrite Hd2, Hd1, Hs2, Hs1, length_app, Nat2Z.inj_add.
    rewrite app_assoc. repeat split; [lia| |by apply Forall_app].
    rewrite fmap_app, seqZ_app by lia. by rewrite Hq1, Hq2, Hs1.
Qed.

Lemma appended_quiet (mid : string) (idx : Z) (w w' : world) :
  quiet w w' -> appended mid idx w w'.
Proof.
  intros [Hd Hs]. exists []. rewrite app_nil_r, Hd, Hs. simpl.
  repeat split; [lia|constructor].
Qed.

(** A delivery stores one row under the current sequence number and moves
    the counter by one, or stores nothing, leaves the counter and counts
    an error. *)
Lemma process_delivery_sequence (c : delivery_ctx) (ball_idx : Z) (delivery : json)
    (w : world) :
  let w' := (process_delivery c ball_idx delivery w).1 in
  (∃ row, deliveries (cur w') = (deliveries (cur w) ++ [row])%list ∧
     d_ball_sequence row = ball_sequence (loc w) ∧
     d_match_id row = c_match_id c ∧ d_innings_number row = c_innings_idx c ∧
     ball_sequence (loc w') = ball_sequence (loc w) + 1 ∧
     delivery_errors (loc w') = delivery_errors (loc w)) ∨
  (deliveries (cur w') = deliveries (cur w) ∧
   ball_sequence (loc w') = ball_sequence (loc w) ∧
   delivery_errors (loc w') = delivery_errors (loc w) + 1).
Proof.
  intros w'. subst w'. rewrite process_delivery_run.
  destruct (calm_read_delivery c delivery w) as [Hdel Hloc].
  destruct (read_delivery c delivery w) as [w1 [f|e]]; simpl in Hdel, Hloc.
  - destruct (f_runs_total f) as [runs_total|].
    + simpl. destruct (fault (clock w1) OpDelivery).
      * right.
        destruct (delivery_failed_run StorageError
                    (ticked (counted (c_innings_idx c) f runs_total w1)))
          as (w2 & -> & Hcur & _ & _ & Hloc2).
        simpl. rewrite Hcur, Hloc2. simpl. by rewrite Hdel, Hloc.
      * left. simpl. eexists. rewrite Hdel, Hloc. by repeat split.
    + right. destruct (delivery_failed_run TypeError w1) as (w2 & -> & Hcur & _ & _ & Hloc2).
      simpl. rewrite Hcur, Hloc2. simpl. by rewrite Hdel, Hloc.
  - right. destruct (delivery_failed_run e w1) as (w2 & -> & Hcur & _ & _ & Hloc2).
    simpl. rewrite Hcur, Hloc2. simpl. by rewrite Hdel, Hloc.
Qed.

Lemma appended_process_delivery (c : delivery_ctx) (ball_idx : Z) (delivery : json) :
  steps (appended (c_match_id c) (c_innings_idx c)) (process_delivery c ball_idx delivery).
Proof.
  intros w.
  destruct (process_delivery_sequence c ball_idx delivery w)
    as [(row & Hd & Hs & Hm & Hi & Hb & _)|(Hd & Hb & _)].
  - exists [row]. simpl. repeat split; try done.
    + rewrite seqZ_cons by lia. simpl. by rewrite Hs, seqZ_nil by lia.
    + by repeat constructor.
  - by apply appended_quiet.
Qed.

Lemma appended_process_over (mid : string) (registry : json) (idx : Z)
    (batting bowling over_data : json) :
  steps (appended mid idx) (process_over mid registry idx batting bowling over_data).
Proof.
  unfold process_over. steps_auto.
  - intros w. by apply appended_quiet.
  - apply (appended_process_delivery
             {| c_match_id := mid; c_registry := registry; c_innings_idx := idx;
                c_batting_team := batting; c_bowling_team := bowling; c_over_num := z |}).
Qed.

(** C10.  Within one innings of one ingestion, the rows stored for the
    innings carry the sequence numbers 1, 2, ..., n in the order they were
    stored; a delivery either stores one row under the current number and
    then advances it, or stores nothing and leaves it, so a skipped
    delivery uses no number. *)
Theorem ball_sequence_contiguous (match_id : string) (registry team1 team2 : json)
    (innings_idx : Z) (innings : json) (w : world) :
  let w' := (process_innings match_id registry team1 team2 innings_idx innings w).1 in
  (∃ rows, deliveries (cur w') = (deliveries (cur w) ++ rows)%list ∧
     d_ball_sequence <$> rows = seqZ 1 (Z.of_nat (length rows)) ∧
     Forall (fun r => d_match_id r = match_id ∧ d_innings_number r = innings_idx) rows) ∧
  (∀ (c : delivery_ctx) (ball_idx : Z) (delivery : json) (v : world),
     let v' := (process_delivery c ball_idx delivery v).1 in
     (∃ row, deliveries (cur v') = (deliveries (cur v) ++ [row])%list ∧
        d_ball_sequence row = ball_sequence (loc v) ∧
        ball_sequence (loc v') = ball_sequence (loc v) + 1) ∨
     (deliveries (cur v') = deliveries (cur v) ∧
      ball_sequence (loc v') = ball_sequence (loc v) ∧
      delivery_errors (loc v') = delivery_errors (loc v) + 1)).
Proof.
  intros w'. split.
  - subst w'. unfold process_innings.
    unfold mbind at 1, M_bind at 1, lift at 1.
    destruct (py_get innings "team" JNull) as [innings_team|e];
      [|exists []; by rewrite app_nil_r].
    unfold mbind at 1, M_bind at 1, lift at 1.
    destruct (py_get innings "overs" (JList [])) as [overs_list|e];
      [|exists []; by rewrite app_nil_r].
    unfold mbind at 1, M_bind at 1, modify_loc at 1.
    unfold mbind at 1, M_bind at 1, modify_loc at 1.
    unfold mbind at 1, M_bind at 1, lift at 1.
    destruct (py_iter overs_list) as [overs|e]; [|exists []; by rewrite app_nil_r].
    match goal with
    | |- context [for_each overs ?body ?w2] =>
        destruct (steps_for_each (appended match_id innings_idx) overs body
                    (appended_process_over match_id registry innings_idx _ _) w2)
          as (rows & Hd & _ & Hq & Hf)
    end.
    exists rows. by repeat split.
  - intros c ball_idx delivery v v'.
    destruct (process_delivery_sequence c ball_idx delivery v)
      as [(row & Hd & Hs & _ & _ & Hb & _)|H]; [left|right; exact H].
    by exists row.
Qed.

(** ** Unresolved players *)

(** While the players table can be neither written nor read, nobody
    resolves. *)
Lemma resolve_down (name reg : json) (w w' : world) (r : option Z) :
  (∀ n, fault n OpPlayerUpsert = true) -> (∀ n, fault n OpPlayerSelect = true) ->
  get_or_create_player name reg w = (w', Ret r) -> r = None.
Proof.
  intros Hup Hsel. unfold get_or_create_player.
  destruct (truthy name); simpl; [|by intros [= _ <-]].
  unfold mbind, M_bind, lift. destruct (py_strip name) as [s|e]; [|done].
  destruct (str_empty s); [by intros [= _ <-]|].
  unfold try_except, execute, print. simpl. rewrite Hup. simpl. rewrite Hsel. simpl.
  by intros [= _ <-].
Qed.

Lemma read_wicket_down (registry wickets : json) (w w' : world) (wk : wicket_info) :
  (∀ n, fault n OpPlayerUpsert = true) -> (∀ n, fault n OpPlayerSelect = true) ->
  read_wicket registry wickets w = (w', Ret wk) ->
  wk_player_id wk = None ∧ wk_fielder_id wk = None.
Proof.
  intros Hup Hsel H. unfold read_wicket in H. run_inv H.
  apply (resolve_down _ _ _ _ _ Hup Hsel) in Hrun3 as ->.
  destruct (truthy a4).
  - run_inv H. by apply (resolve_down _ _ _ _ _ Hup Hsel) in Hrun7 as ->.
  - by apply mret_inv in H as [-> _].
Qed.

(** C7.  A blank display name (empty once stripped) resolves to nothing
    without a storage call or any change; when the insert attempt fails
    (the statement or its commit raises) and the lookup by name raises
    too, the resolver returns nothing instead of raising, and on a [str] it
    never raises at all; a delivery whose players all stay unresolved that
    way is still stored, with null player references. *)
Theorem resolve_unresolved :
  (∀ s reg w, strip s = "" -> get_or_create_player (JStr s) reg w = (w, Ret None)) ∧
  (∀ s reg w, strip s ≠ "" ->
     fault (clock w) OpPlayerUpsert = true ->
     fault (S (clock w)) OpPlayerSelect = true ->
     ∃ w', get_or_create_player (JStr s) reg w = (w', Ret None) ∧
       cur w' = cur w ∧ saved w' = saved w) ∧
  (∀ s reg w, strip s ≠ "" ->
     fault (clock w) OpPlayerUpsert = false ->
     fault (S (clock w)) OpCommit = true ->
     fault (S (S (clock w))) OpPlayerSelect = true ->
     ∃ w', get_or_create_player (JStr s) reg w = (w', Ret None)) ∧
  (∀ s reg w, ∃ w' r, get_or_create_player (JStr s) reg w = (w', Ret r)) ∧
  (∀ c ball_idx delivery w w1 f runs_total,
     (∀ n, fault n OpPlayerUpsert = true) -> (∀ n, fault n OpPlayerSelect = true) ->
     read_delivery c delivery w = (w1, Ret f) ->
     f_runs_total f = Some runs_total ->
     fault (clock w1) OpDelivery = false ->
     ∃ w' row, process_delivery c ball_idx delivery w = (w', Ret tt) ∧
       deliveries (cur w') = (deliveries (cur w) ++ [row])%list ∧
       d_batsman_id row = None ∧ d_non_striker_id row = None ∧
       d_bowler_id row = None ∧ d_wicket_player_id row = None ∧
       d_fielder_id row = None ∧
       delivery_errors (loc w') = delivery_errors (loc w)).
Proof.
  split; [|split; [|split; [|split]]].
  - intros s reg w Hs. apply resolve_blank. right. by exists s.
  - intros s reg w Hs Hup Hsel. rewrite (resolve_named s reg w Hs).
    unfold try_except, mbind, M_bind, execute, print. simpl.
    rewrite Hup. simpl. rewrite Hsel. simpl. by eexists.
  - intros s reg w Hs Hup Hcommit Hsel. rewrite (resolve_named s reg w Hs).
    unfold try_except, mbind, M_bind, execute, commit, print. simpl.
    rewrite Hup. destruct (upsert_player _ reg (cur w)) as [d id]. simpl.
    rewrite Hcommit. simpl. rewrite Hsel. simpl. by eexists.
  - apply resolve_str_returns.
  - intros c ball_idx delivery w w1 f runs_total Hup Hsel Hread Ht Hins.
    destruct (calm_read_delivery c delivery w) as [Hdel Hloc].
    rewrite Hread in Hdel, Hloc. simpl in Hdel, Hloc.
    rewrite process_delivery_run, Hread, Ht. simpl. rewrite Hins.
    eexists _, _. split; [done|]. simpl. rewrite Hdel, Hloc.
    split; [done|].
    unfold read_delivery in Hread. run_inv Hread.
    apply (resolve_down _ _ _ _ _ Hup Hsel) in Hrun3 as ->.
    apply (resolve_down _ _ _ _ _ Hup Hsel) in Hrun5 as ->.
    apply (resolve_down _ _ _ _ _ Hup Hsel) in Hrun7 as ->.
    simpl.
    match goal with
    | H : (if ?b then read_wicket _ _ else _) _ = _ |- _ =>
        destruct b;
        [destruct (read_wicket_down _ _ _ _ _ Hup Hsel H) as [-> ->]
        |apply mret_inv in H as [-> _]]
    end; by repeat split.
Qed.

(** ** Child entities and the outcome of a file *)

Lemma process_json_file_run (match_id : string) (match_data : json) (h : header)
    (w w1 w2 : world) :
  read_header match_data = Ret h ->
  persist_header match_id (h_row h) (file_start match_id w) = (w1, Ret true) ->
  process_body match_id h w1 = (w2, Ret tt) ->
  process_json_file match_id (Some match_data) w =
  persist_aggregates match_id (h_balls_per_over h) w2.
Proof.
  intros Hh Hp Hb. unfold process_json_file.
  unfold mbind at 1, M_bind at 1, modify_loc at 1.
  unfold mbind at 1, M_bind at 1, print at 1.
  unfold mbind at 1, M_bind at 1, lift at 1. rewrite Hh.
  fold (file_start match_id w).
  rewrite (bind_ret_run _ _ _ _ _ Hp).
  by rewrite (bind_ret_run _ _ _ _ _ Hb).
Qed.

Lemma handler_returns {A} (entry : log_entry) (a : A) (w : world) :
  fault (clock w) OpRollback = false ->
  ∃ w', (rollback;; print entry;; mret a) w = (w', Ret a) ∧
    log w' = (log w ++ [entry])%list.
Proof.
  intros Hf. unfold mbind, M_bind, rollback, print. rewrite Hf. simpl. by eexists.
Qed.

(** C4, as the code has it.  While [conn.rollback()] does not raise: a
    roster link that cannot be written is logged and the roster goes on;
    the roster step and the officials step return whatever fails inside
    them, logging the failure, so they never decide the outcome of the
    file; the aggregate step returns True exactly when every innings row
    and the commit went through, and False -- the file is then counted as
    failed -- when one of them raised. *)
Theorem child_failures_and_outcome :
  (∀ n, fault n OpRollback = false) ->
  (∀ mid team registry name rid pid w w1,
     py_get_key registry name = Ret rid ->
     get_or_create_player name rid w = (w1, Ret (Some pid)) -> pid ≠ 0 ->
     fault (clock w1) OpLink = true ->
     ∃ w', link_player mid team registry name w = (w', Ret tt) ∧
       log w' = (log w1 ++ [LogLinkFailed name StorageError])%list) ∧
  (∀ mid registry players_info w,
     ∃ w', process_players mid registry players_info w = (w', Ret tt)) ∧
  (∀ mid info w, ∃ w', process_officials mid info w = (w', Ret tt)) ∧
  (∀ mid bpo w w1,
     write_aggregates mid bpo w = (w1, Ret tt) ->
     ∃ w', persist_aggregates mid bpo w = (w', Ret true)) ∧
  (∀ mid bpo w w1 e,
     write_aggregates mid bpo w = (w1, Raise e) ->
     ∃ w', persist_aggregates mid bpo w = (w', Ret false) ∧
       log w' = (log w1 ++ [LogDeliveriesFailed e])%list) ∧
  (∀ mid match_data h w w1 w2,
     read_header match_data = Ret h ->
     persist_header mid (h_row h) (file_start mid w) = (w1, Ret true) ->
     process_body mid h w1 = (w2, Ret tt) ->
     process_json_file mid (Some match_data) w =
     persist_aggregates mid (h_balls_per_over h) w2) ∧
  (∀ t mid content w w',
     process_json_file mid content w = (w', Ret false) ->
     count_file t mid content w =
     (w', Ret {| successful := successful t; failed := failed t + 1 |})).
Proof.
  intros Hroll. repeat split.
  - intros mid team registry name rid pid w w1 Hrid Hres Hpid Hf.
    unfold link_player. unfold mbind at 1, M_bind at 1, lift at 1. rewrite Hrid.
    rewrite (bind_ret_run _ _ _ _ _ Hres).
    destruct (Z.eqb_spec pid 0) as [|_]; [done|]. simpl.
    unfold try_except, mbind, M_bind, execute, print. simpl. rewrite Hf. simpl.
    by eexists.
  - intros mid registry players_info w. unfold process_players, try_except.
    match goal with |- context [(?c ≫= ?f) w] => destruct ((c ≫= f) w) as [w1 [[]|e]] end;
      [by eexists|].
    destruct (handler_returns (LogPlayersFailed e) tt w1 (Hroll _)) as (w' & H & _).
    exists w'. etrans; [|exact H]. done.
  - intros mid info w. unfold process_officials, try_except.
    match goal with |- context [(?c ≫= ?f) w] => destruct ((c ≫= f) w) as [w1 [[]|e]] end;
      [by eexists|].
    destruct (handler_returns (LogOfficialsFailed e) tt w1 (Hroll _)) as (w' & H & _).
    exists w'. etrans; [|exact H]. done.
  - intros mid bpo w w1 Hw. unfold persist_aggregates, try_except.
    rewrite (bind_ret_run _ _ _ _ _ Hw).
    unfold mbind, M_bind, get_loc, print. simpl.
    destruct (0 <? delivery_errors (loc w1)); simpl; by eexists.
  - intros mid bpo w w1 e Hw. unfold persist_aggregates, try_except.
    rewrite (bind_raise_run _ _ _ _ _ Hw).
    destruct (handler_returns (LogDeliveriesFailed e) false w1 (Hroll _)) as (w' & H & Hlog).
    by exists w'.
  - intros. by eapply process_json_file_run.
  - intros t mid content w w' H. unfold count_file, try_except.
    by rewrite (bind_ret_run _ _ _ _ _ H).
Qed.

(** ** Invariants of the two database images *)

#[local] Instance keeps_preorder (I : world -> Prop) : PreOrder (keeps I).
Proof. split; unfold keeps; [by intros w|intros w1 w2 w3; tauto]. Qed.

(** A property of a database image that the statements of the kinds
    [allowed] preserve holds of both images throughout. *)
Section both_images.
Context (P : db -> Prop) (allowed : op -> bool).
Hypothesis P_run : ∀ s d, allowed (stmt_op s) = true -> P d -> P (run_stmt s d).1.
Local Abbreviation both := (both P).

Lemma both_execute (s : stmt) :
  allowed (stmt_op s) = true -> steps (keeps both) (execute s).
Proof.
  intros Hs w [Hc Hv]. unfold execute.
  destruct (fault (clock w) (stmt_op s)); [done|].
  pose proof (P_run s (cur w) Hs Hc) as Hd.
  destruct (run_stmt s (cur w)) as [d r]. simpl in *.
  split; [done|]. by destruct autocommit.
Qed.

Lemma both_commit : steps (keeps both) commit.
Proof.
  intros w [Hc Hv]. unfold commit. by destruct (fault (clock w) OpCommit).
Qed.

Lemma both_rollback : steps (keeps both) rollback.
Proof.
  intros w [Hc Hv]. unfold rollback. by destruct (fault (clock w) OpRollback).
Qed.

Lemma both_print (e : log_entry) : steps (keeps both) (print e).
Proof. intros w H. exact H. Qed.

Lemma both_modify_loc (f : locals -> locals) : steps (keeps both) (modify_loc f).
Proof. intros w H. exact H. Qed.
End both_images.

#[local] Hint Resolve both_commit both_rollback both_print both_modify_loc : steps.
#[local] Hint Extern 1 (steps (keeps (both _)) (execute _)) =>
  (eapply both_execute; [eassumption|reflexivity]) : steps.

Lemma run_stmt_innings (s : stmt) (d : db) :
  stmt_op s ≠ OpInnings -> innings (run_stmt s d).1 = innings d.
Proof.
  destruct s; simpl; try done.
  unfold upsert_player. by destruct (players d !! index_key player_name).
Qed.

Lemma fresh_run (mid : string) (s : stmt) (d : db) :
  keeps_match_data (stmt_op s) = true -> fresh_match mid d ->
  fresh_match mid (run_stmt s d).1.
Proof.
  intros Hs [Hi Hd]. unfold fresh_match.
  rewrite run_stmt_innings, run_stmt_deliveries; [done|..]; by destruct s.
Qed.

Lemma no_innings_run (mid : string) (s : stmt) (d : db) :
  not_innings (stmt_op s) = true -> no_innings mid d -> no_innings mid (run_stmt s d).1.
Proof.
  intros Hs Hi. unfold no_innings. rewrite run_stmt_innings; [done|]. by destruct s.
Qed.

#[local] Hint Extern 1 (steps (keeps (both _)) (execute _)) =>
  (eapply both_execute; [first [apply fresh_run|apply no_innings_run]|reflexivity]) : steps.

Lemma fresh_resolve (mid : string) (name reg : json) :
  steps (keeps (both (fresh_match mid))) (get_or_create_player name reg).
Proof. unfold get_or_create_player. steps_auto. Qed.

Lemma no_innings_resolve (mid : string) (name reg : json) :
  steps (keeps (both (no_innings mid))) (get_or_create_player name reg).
Proof. unfold get_or_create_player. steps_auto. Qed.
#[local] Hint Resolve fresh_resolve no_innings_resolve : steps.

Lemma fresh_persist_header (mid match_id : string) (row : match_row) :
  steps (keeps (both (fresh_match mid))) (persist_header match_id row).
Proof. unfold persist_header. steps_auto. Qed.

Lemma fresh_process_players (mid match_id : string) (registry players_info : json) :
  steps (keeps (both (fresh_match mid))) (process_players match_id registry players_info).
Proof. unfold process_players, link_player. steps_auto. Qed.

Lemma fresh_process_officials (mid match_id : string) (info : json) :
  steps (keeps (both (fresh_match mid))) (process_officials match_id info).
Proof. unfold process_officials, insert_officials. steps_auto. Qed.

Lemma no_innings_process_deliveries (mid match_id : string)
    (registry team1 team2 innings_list : json) :
  steps (keeps (both (no_innings mid)))
    (process_deliveries match_id registry team1 team2 innings_list).
Proof.
  unfold process_deliveries, process_innings, process_over, process_delivery,
    read_delivery, read_wicket, link_seen_player, count_delivery.
  steps_auto.
Qed.

(** ** Totals of an innings against its deliveries *)

Lemma walking_ext (mid : string) (i : Z) (w w' : world) :
  deliveries (cur w') = deliveries (cur w) ->
  innings_data (loc w') = innings_data (loc w) ->
  walking mid i w -> walking mid i w'.
Proof.
  intros Hd Hl (Hi & Hk & Ht). split; [done|]. split; [by rewrite Hl|].
  intros n. unfold innings_rows, totals. rewrite Hd, Hl. apply Ht.
Qed.

Lemma idata_get_set (n i : Z) (a : innings_acc) (l : list (Z * innings_acc)) :
  idata_get n (idata_set i a l) = if decide (n = i) then Some a else idata_get n l.
Proof.
  induction l as [|[j b] l IH]; simpl.
  - destruct (Z.eqb_spec i n); by case_decide.
  - destruct (Z.eqb_spec j i) as [->|Hj]; simpl.
    + destruct (Z.eqb_spec i n); by case_decide.
    + destruct (Z.eqb_spec j n) as [->|Hn]; [by case_decide|exact IH].
Qed.

Lemma idata_set_keys (i : Z) (a : innings_acc) (l : list (Z * innings_acc)) :
  i ∉ l.*1 -> (idata_set i a l).*1 = (l.*1 ++ [i])%list.
Proof.
  induction l as [|[j b] l IH]; [done|]. csimpl. intros Hi.
  apply not_elem_of_cons in Hi as [Hne Hi].
  destruct (Z.eqb_spec j i); [done|]. csimpl. by rewrite IH.
Qed.

Lemma idata_update_keys (i : Z) (g : innings_acc -> innings_acc)
    (l : list (Z * innings_acc)) :
  (idata_update i g l).*1 = l.*1.
Proof.
  induction l as [|[j b] l IH]; [done|]. csimpl.
  destruct (j =? i); csimpl; [done|by rewrite IH].
Qed.

Lemma idata_get_none (n : Z) (l : list (Z * innings_acc)) :
  n ∉ l.*1 -> idata_get n l = None.
Proof.
  induction l as [|[j b] l IH]; [done|]. csimpl. intros Hn.
  apply not_elem_of_cons in Hn as [Hne Hn].
  destruct (Z.eqb_spec j n); [done|by apply IH].
Qed.

Lemma idata_get_some (n : Z) (l : list (Z * innings_acc)) :
  n ∈ l.*1 -> is_Some (idata_get n l).
Proof.
  induction l as [|[j b] l IH]; csimpl; [by intros ?%elem_of_nil|].
  intros Hn. destruct (Z.eqb_spec j n); [by eexists|].
  apply elem_of_cons in Hn as [->|Hn]; [done|by apply IH].
Qed.

Lemma idata_get_elem (n : Z) (a : innings_acc) (l : list (Z * innings_acc)) :
  NoDup l.*1 -> (n, a) ∈ l -> idata_get n l = Some a.
Proof.
  induction l as [|[j b] l IH]; csimpl; [by intros _ ?%elem_of_nil|].
  intros [Hj Hnd]%NoDup_cons [[= -> ->]|Hin]%elem_of_cons.
  - by rewrite Z.eqb_refl.
  - destruct (Z.eqb_spec j n) as [->|_]; [|by apply IH].
    destruct Hj. apply list_elem_of_fmap. by exists (n, a).
Qed.

Lemma sum_runs_app (l1 l2 : list delivery_row) :
  sum_runs (l1 ++ l2) = sum_runs l1 + sum_runs l2.
Proof. induction l1 as [|r l1 IH]; simpl; [done|]. rewrite IH. lia. Qed.

Lemma innings_rows_fresh (mid : string) (n : Z) (d : db) :
  Forall (fun r => index_key (d_match_id r) ≠ index_key mid) (deliveries d) ->
  innings_rows mid n d = [].
Proof.
  unfold innings_rows. induction 1 as [|r l Hr Hl IH]; [done|].
  rewrite filter_cons_False; [done|]. intros [? _]. done.
Qed.

(** The start of innings [i]: its counters are created at zero. *)
Lemma walking_new_innings (mid : string) (i : Z) (a : innings_acc) (w : world) :
  a_total_runs a = 0 -> a_total_balls a = 0 ->
  walking mid i w ->
  walking mid (i + 1)
    {| cur := cur w; saved := saved w; clock := clock w; log := log w;
       loc := set_ball_sequence (fun _ => 1)
                (set_innings_data (idata_set i a) (loc w)) |}.
Proof.
  intros Hr Hb (Hi & Hk & Ht).
  assert (i ∉ (innings_data (loc w)).*1) as Hnew.
  { rewrite Hk, elem_of_seqZ. lia. }
  split; [lia|]. split.
  - simpl. rewrite idata_set_keys, Hk by done.
    replace (i + 1 - 1) with ((i - 1) + 1) by lia.
    rewrite seqZ_app by lia. f_equal.
    rewrite seqZ_cons, seqZ_nil by lia. f_equal. lia.
  - intros n. unfold totals. simpl. rewrite idata_get_set.
    specialize (Ht n). unfold totals in Ht. case_decide as Hn; [|done].
    subst n. rewrite (idata_get_none _ _ Hnew) in Ht. simpl in *. by rewrite Hr, Hb.
Qed.

Lemma innings_rows_delivered (mid : string) (n : Z) (row : delivery_row) (d : db) :
  innings_rows mid n (set_deliveries (fun t => (t ++ [row])%list) d) =
  (innings_rows mid n d ++
   if decide (index_key (d_match_id row) = index_key mid ∧ d_innings_number row = n)
   then [row] else [])%list.
Proof.
  unfold innings_rows. simpl. by rewrite filter_app.
Qed.

(** A delivery, counted and stored, keeps the counters matched. *)
Lemma walking_delivered (c : delivery_ctx) (ball_idx : Z) (f : delivery_fields)
    (runs_total : Z) (i : Z) (w : world) :
  c_innings_idx c < i ->
  1 <= c_innings_idx c ->
  walking (c_match_id c) i w ->
  walking (c_match_id c) i
    (delivered (delivery_row_of c ball_idx
                  (ball_sequence (loc (counted (c_innings_idx c) f runs_total w)))
                  f runs_total)
       (counted (c_innings_idx c) f runs_total w)).
Proof.
  intros Hlt Hge (Hi & Hk & Ht).
  destruct (idata_get_some (c_innings_idx c) (innings_data (loc w))) as [a Ha].
  { rewrite Hk, elem_of_seqZ. lia. }
  split; [done|]. split; [simpl; by rewrite idata_update_keys|].
  intros n. specialize (Ht n). unfold totals in *. simpl.
  rewrite innings_rows_delivered. simpl.
  destruct (decide (n = c_innings_idx c)) as [->|Hn].
  - rewrite decide_True by done.
    rewrite sum_runs_app, length_app, idata_get_update, Ha. rewrite Ha in Ht.
    simpl in *. lia.
  - rewrite decide_False by (intros [_ ?]; done).
    rewrite app_nil_r, idata_get_update_ne by done. exact Ht.
Qed.

Lemma steps_for_each_elem {A} (R : relation world) `{!PreOrder R}
    (l : list A) (body : A -> M unit) :
  (∀ x, x ∈ l -> steps R (body x)) -> steps R (for_each l body).
Proof.
  induction l as [|x l IH]; intros Hb; simpl.
  - apply steps_ret; apply _.
  - apply steps_bind; [apply _|apply Hb; left|].
    intros _. apply IH. intros y Hy. apply Hb. by right.
Qed.

Lemma totals_update_neutral (n i : Z) (g : innings_acc -> innings_acc) (l : locals) :
  (∀ a, a_total_runs (g a) = a_total_runs a ∧ a_total_balls (g a) = a_total_balls a) ->
  totals n (set_innings_data (idata_update i g) l) = totals n l.
Proof.
  intros Hg. unfold totals. simpl.
  destruct (decide (n = i)) as [->|Hn].
  - rewrite idata_get_update. destruct (idata_get i (innings_data l)) as [a|]; [|done].
    simpl. by destruct (Hg a) as [-> ->].
  - by rewrite idata_get_update_ne.
Qed.

Section delivery_inserts_succeed.
Hypothesis delivery_ok : ∀ n, fault n OpDelivery = false.

Lemma walking_process_delivery (c : delivery_ctx) (ball_idx : Z) (delivery : json) (i : Z) :
  c_innings_idx c < i -> 1 <= c_innings_idx c ->
  steps (keeps (walking (c_match_id c) i)) (process_delivery c ball_idx delivery).
Proof.
  intros Hlt Hge w Hw. rewrite process_delivery_run.
  destruct (calm_read_delivery c delivery w) as [Hdel Hloc].
  assert (∀ e w1, deliveries (cur w1) = deliveries (cur w) -> loc w1 = loc w ->
            walking (c_match_id c) i (delivery_failed e w1).1) as Hfail.
  { intros e w1 Hd Hl.
    destruct (delivery_failed_run e w1) as (w2 & -> & Hcur & _ & _ & Hloc2). simpl.
    apply (walking_ext _ _ w); [by rewrite Hcur|by rewrite Hloc2, <- Hl|done]. }
  destruct (read_delivery c delivery w) as [w1 [f|e]]; simpl in Hdel, Hloc;
    [|by apply Hfail].
  destruct (f_runs_total f) as [runs_total|]; [|by apply Hfail].
  simpl. rewrite delivery_ok. simpl.
  apply walking_delivered; [done..|]. apply (walking_ext _ _ w); [done|by rewrite Hloc|done].
Qed.

Lemma walking_process_over (mid : string) (registry : json) (idx : Z)
    (batting bowling over_data : json) :
  1 <= idx ->
  steps (keeps (walking mid (idx + 1)))
    (process_over mid registry idx batting bowling over_data).
Proof.
  intros Hidx. unfold process_over. steps_auto.
  - intros w (Hi & Hk & Ht). split; [done|]. split.
    + simpl. by rewrite idata_update_keys.
    + intros n. simpl. rewrite totals_update_neutral; [apply Ht|done].
  - apply (walking_process_delivery
             {| c_match_id := mid; c_registry := registry; c_innings_idx := idx;
                c_batting_team := batting; c_bowling_team := bowling; c_over_num := z |});
      simpl; lia.
Qed.

Lemma walking_process_innings (mid : string) (registry team1 team2 : json) (i : Z)
    (innings : json) (w : world) :
  walking mid i w ->
  match process_innings mid registry team1 team2 i innings w with
  | (w', Ret _) => walking mid (i + 1) w'
  | (w', Raise _) => walking mid i w' ∨ walking mid (i + 1) w'
  end.
Proof.
  intros Hw. unfold process_innings.
  unfold mbind at 1, M_bind at 1, lift at 1.
  destruct (py_get innings "team" JNull) as [innings_team|e]; [|by left].
  unfold mbind at 1, M_bind at 1, lift at 1.
  destruct (py_get innings "overs" (JList [])) as [overs_list|e]; [|by left].
  unfold mbind at 1, M_bind at 1, modify_loc at 1.
  unfold mbind at 1, M_bind at 1, modify_loc at 1.
  cbn [cur saved clock log loc].
  match goal with
  | |- context [(?c ≫= ?k) ?w2] =>
      assert (walking mid (i + 1) w2) as Hw2 by (by apply walking_new_innings);
      assert (walking mid (i + 1) ((c ≫= k) w2).1) as Hend;
      [|by destruct ((c ≫= k) w2) as [w' [[]|e]]; [|right]]
  end.
  revert Hw2. apply (steps_bind (keeps (walking mid (i + 1)))).
  - apply steps_lift, _.
  - intros overs. apply steps_for_each; [apply _|]. intros over_data.
    apply walking_process_over. by destruct Hw.
Qed.

Lemma walking_innings_loop (mid : string) (registry team1 team2 : json)
    (l : list json) (i : Z) (w : world) :
  walking mid i w ->
  ∃ j, walking mid j (for_each_from i l (process_innings mid registry team1 team2) w).1.
Proof.
  revert i w. induction l as [|x l IH]; intros i w Hw; simpl; [by exists i|].
  unfold mbind, M_bind.
  pose proof (walking_process_innings mid registry team1 team2 i x w Hw) as Hx.
  destruct (process_innings mid registry team1 team2 i x w) as [w' [[]|e]].
  - by apply IH.
  - destruct Hx; eauto.
Qed.

Lemma walking_process_deliveries (mid : string) (registry team1 team2 innings_list : json)
    (w : world) :
  Forall (fun r => index_key (d_match_id r) ≠ index_key mid) (deliveries (cur w)) ->
  ∃ j, walking mid j (process_deliveries mid registry team1 team2 innings_list w).1.
Proof.
  intros Hfresh. unfold process_deliveries.
  unfold mbind at 1, M_bind at 1, modify_loc at 1.
  unfold mbind at 1, M_bind at 1, modify_loc at 1.
  unfold mbind at 1, M_bind at 1, modify_loc at 1.
  cbn [cur saved clock log loc].
  match goal with
  | |- context [(?c ≫= ?k) ?w2] => assert (walking mid 1 w2) as Hw2
  end.
  { split; [done|]. split; [done|]. intros n.
    rewrite innings_rows_fresh by done. done. }
  unfold mbind, M_bind, lift.
  destruct (py_iter innings_list) as [l|e]; [|by exists 1].
  by apply walking_innings_loop.
Qed.

End delivery_inserts_succeed.

Lemma fresh_totals_agree (mid : string) (d : db) : no_innings mid d -> totals_agree mid d.
Proof. intros Hd n row Hrow. by rewrite Hd in Hrow. Qed.

Lemma fresh_no_innings (mid : string) (w : world) :
  both (fresh_match mid) w -> both (no_innings mid) w.
Proof. intros [[H1 _] [H2 _]]. by split. Qed.

Lemma aggregating_persist_innings (mid : string) (bpo : option Z) (n : Z)
    (a : innings_acc) (w0 : world) :
  tallied mid w0 -> idata_get n (innings_data (loc w0)) = Some a ->
  steps (keeps (aggregating mid w0)) (persist_innings mid bpo (n, a)).
Proof.
  intros Ht Ha w (Hloc & Hdel & Hc & Hs). unfold persist_innings.
  destruct bpo as [k|]; [|done]. destruct (k =? 0); [done|].
  unfold mbind, M_bind, execute. simpl.
  destruct (fault (clock w) OpInnings); [done|]. simpl.
  assert (totals_agree mid
            (set_innings
               <[(index_key mid, n) := {| i_team := a_team a; i_batting_team := a_batting_team a;
                                i_bowling_team := a_bowling_team a;
                                i_total_runs := a_total_runs a;
                                i_total_balls := a_total_balls a;
                                i_wickets := a_wickets a;
                                i_overs := overs_played (a_total_balls a) k;
                                i_run_rate := run_rate (a_total_runs a)
                                                (overs_played (a_total_balls a) k) |}]>
               (cur w))) as Hnew.
  { intros n' row. simpl. destruct (decide (n' = n)) as [->|Hn].
    - rewrite lookup_insert_eq. intros [= <-]. simpl.
      destruct (Ht n) as [Hr Hb]. unfold totals in Hr, Hb. rewrite Ha in Hr, Hb.
      unfold innings_rows in *. simpl. by rewrite Hdel.
    - rewrite lookup_insert_ne by congruence. apply Hc. }
  split; [done|]. split; [done|]. split; [done|]. by destruct autocommit.
Qed.

Lemma aggregates_agree (mid : string) (bpo : option Z) (j : Z) (w : world) :
  walking mid j w -> both (no_innings mid) w ->
  totals_agree mid (cur (persist_aggregates mid bpo w).1).
Proof.
  intros (Hj & Hk & Ht) [Hc Hs].
  assert (aggregating mid w w) as Hstart.
  { repeat split; by apply fresh_totals_agree. }
  assert (steps (keeps (aggregating mid w))
            (for_each (innings_data (loc w)) (persist_innings mid bpo);; commit)) as Hwrite.
  { apply steps_bind; [apply _| |].
    - apply steps_for_each_elem; [apply _|]. intros [n a] Hin.
      apply aggregating_persist_innings; [done|].
      apply idata_get_elem; [|done]. rewrite Hk. apply NoDup_seqZ.
    - intros _ v (Hloc & Hdel & Hcv & Hsv). unfold commit.
      by destruct (fault (clock v) OpCommit). }
  unfold persist_aggregates, try_except, write_aggregates.
  unfold mbind at 1, M_bind at 1. unfold mbind at 1, M_bind at 1, get_loc at 1.
  specialize (Hwrite w Hstart).
  destruct ((for_each (innings_data (loc w)) (persist_innings mid bpo);; commit) w)
    as [w1 [[]|e]]; simpl in Hwrite; destruct Hwrite as (_ & _ & Hc1 & Hs1).
  - unfold mbind, M_bind, get_loc, print. simpl.
    by destruct (0 <? delivery_errors (loc w1)).
  - unfold mbind, M_bind, rollback, print.
    by destruct (fault (clock w1) OpRollback).
Qed.

Lemma no_innings_process_body (mid match_id : string) (h : header) :
  steps (keeps (both (no_innings mid))) (process_body match_id h).
Proof.
  unfold process_body. steps_auto.
  - unfold process_players, link_player. steps_auto.
  - unfold process_officials, insert_officials. steps_auto.
  - apply no_innings_process_deliveries.
Qed.

Lemma fresh_before_walk (mid : string) (h : header) (w w' : world) :
  (∀ n, fault n OpDelivery = false) ->
  both (fresh_match mid) w ->
  process_body mid h w = (w', Ret tt) ->
  ∃ j, walking mid j w'.
Proof.
  intros Hok Hw Hrun. unfold process_body in Hrun. run_inv Hrun.
  match goal with
  | H1 : process_players _ _ _ w = (?wa, _), H2 : process_officials _ _ ?wa = (?wb, _) |- _ =>
      pose proof (fresh_process_players mid mid a0 a1 w Hw) as Ha;
      rewrite H1 in Ha; simpl in Ha;
      pose proof (fresh_process_officials mid mid (h_info h) wa Ha) as Hb;
      rewrite H2 in Hb; simpl in Hb;
      destruct Hb as [[_ Hb] _];
      destruct (walking_process_deliveries Hok mid a0 (h_team1 h) (h_team2 h)
                  (h_innings_list h) wb Hb) as [j Hj]
  end.
  exists j. by rewrite Hrun in Hj.
Qed.

Lemma process_json_file_unfold (mid : string) (content : option json) (w : world) :
  process_json_file mid content w =
  match content with
  | None => (print LogReadFailed;; mret false) (file_start mid w)
  | Some match_data =>
      (h ← lift (read_header match_data);
       ok ← persist_header mid (h_row h);
       if ok : bool then
         process_body mid h;; persist_aggregates mid (h_balls_per_over h)
       else mret false) (file_start mid w)
  end.
Proof. by destruct content. Qed.

(** C2, as the code has it.  Take a match the store holds nothing of (no
    innings row and no delivery, in either image) and ingest its file
    once, with no delivery insert raising.  Then for every innings row of
    the match, the sum of [runs_total] over its stored deliveries is the
    row's [total_runs], and their number is its [total_balls]. *)
Theorem delivery_totals_agree (mid : string) (content : option json) (w : world) :
  (∀ n, fault n OpDelivery = false) ->
  fresh_match mid (cur w) -> fresh_match mid (saved w) ->
  totals_agree mid (cur (process_json_file mid content w).1).
Proof.
  intros Hok Hc Hs. rewrite process_json_file_unfold.
  assert (both (fresh_match mid) (file_start mid w)) as Hstart by done.
  destruct content as [match_data|].
  - unfold mbind at 1, M_bind at 1, lift at 1.
    destruct (read_header match_data) as [h|e];
      [|by apply fresh_totals_agree, fresh_no_innings].
    pose proof (fresh_persist_header mid mid (h_row h) _ Hstart) as Hhead.
    unfold mbind at 1, M_bind at 1.
    destruct (persist_header mid (h_row h) (file_start mid w)) as [w1 [[|]|e]];
      simpl in Hhead; try by apply fresh_totals_agree, fresh_no_innings.
    pose proof (no_innings_process_body mid mid h w1 (fresh_no_innings _ _ Hhead)) as Hbody.
    unfold mbind at 1, M_bind at 1.
    destruct (process_body mid h w1) as [w2 [[]|e]] eqn:Hrun; simpl in Hbody;
      [|by apply fresh_totals_agree, Hbody].
    destruct (fresh_before_walk mid h w1 w2 Hok Hhead Hrun) as [j Hj].
    by eapply aggregates_agree.
  - unfold mbind, M_bind, print. simpl. apply fresh_totals_agree. by destruct Hc.
Qed.

(** ** What a run of statements does to a keyed table *)

Lemma run_then_effect {V} (e1 e2 : key_effect V) (x : option V) :
  run_effect (then_effect e1 e2) x = run_effect e2 (run_effect e1 x).
Proof. by destruct e1, e2. Qed.

Lemma run_effect_idem {V} (e : key_effect V) (x : option V) :
  run_effect e (run_effect e x) = run_effect e x.
Proof. by destruct e. Qed.

Lemma link_effect_run (s : stmt) (d : db) (k : string * Z) :
  match_players (run_stmt s d).1 !! k = run_effect (link_effect s k) (match_players d !! k).
Proof.
  destruct s; simpl; try done.
  - unfold upsert_player. by destruct (players d !! index_key player_name).
  - case_decide as Hk; [subst k; by rewrite lookup_insert_eq|by rewrite lookup_insert_ne].
  - unfold insert_ignore_link. case_decide as Hk; simpl.
    + subst k. destruct (match_players d !! (index_key match_id, player_id)) as [row|] eqn:Hrow;
        [by rewrite Hrow|by rewrite lookup_insert_eq].
    + destruct (match_players d !! (index_key match_id, player_id)); [done|].
      by rewrite lookup_insert_ne.
Qed.

Lemma innings_effect_run (s : stmt) (d : db) (k : string * Z) :
  innings (run_stmt s d).1 !! k = run_effect (innings_effect s k) (innings d !! k).
Proof.
  destruct s; simpl; try done.
  - unfold upsert_player. by destruct (players d !! index_key player_name).
  - case_decide as Hk; [subst k; by rewrite lookup_insert_eq|by rewrite lookup_insert_ne].
Qed.

Section keyed_table.
Context {K V : Type} `{Countable K}.
Context (tbl : db -> gmap K V) (eff : stmt -> K -> key_effect V).
Hypothesis eff_run : ∀ s d k, tbl (run_stmt s d).1 !! k = run_effect (eff s k) (tbl d !! k).
Local Abbreviation ops_effect := (ops_effect eff).

Lemma ops_effect_run (ops : list stmt) (d : db) (k : K) :
  tbl (foldl (fun d s => (run_stmt s d).1) d ops) !! k =
  run_effect (ops_effect ops k) (tbl d !! k).
Proof.
  induction ops as [|s ops IH] using rev_ind; [done|].
  unfold ops_effect. rewrite !foldl_app. simpl.
  by rewrite eff_run, run_then_effect, IH.
Qed.

(** Running the same statements once more changes nothing in the table. *)
Lemma table_twice (ops : list stmt) (d d' : db) :
  tbl d' = tbl (foldl (fun d s => (run_stmt s d).1) d ops) ->
  tbl (foldl (fun d s => (run_stmt s d).1) d' ops) =
  tbl (foldl (fun d s => (run_stmt s d).1) d ops).
Proof.
  intros Hd. apply map_eq. intros k.
  by rewrite !ops_effect_run, Hd, ops_effect_run, run_effect_idem.
Qed.
End keyed_table.

(** ** Ingesting a file again *)

#[local] Instance grows_preorder : PreOrder grows.
Proof.
  split.
  - intros w Hw. by split.
  - intros w1 w2 w3 H12 H23 Hw. destruct (H12 Hw) as [Hw2 Hs12].
    destruct (H23 Hw2) as [Hw3 Hs23]. split; [done|]. by etrans.
Qed.

Lemma run_stmt_players (s : stmt) (d : db) :
  player_free s = true -> players (run_stmt s d).1 = players d.
Proof. by destruct s. Qed.

Lemma grows_execute (s : stmt) : player_free s = true -> steps grows (execute s).
Proof.
  intros Hs w Hw. unfold execute. destruct (fault (clock w) (stmt_op s)); [by split|].
  pose proof (run_stmt_players s (cur w) Hs) as Hp.
  destruct (run_stmt s (cur w)) as [d r]. simpl in *. unfold psync, ids. simpl.
  rewrite Hp. split; [|done]. destruct autocommit; [done|exact Hw].
Qed.

Lemma grows_commit : steps grows commit.
Proof.
  intros w Hw. unfold commit. by destruct (fault (clock w) OpCommit).
Qed.

Lemma grows_rollback : steps grows rollback.
Proof.
  intros w Hw. unfold rollback. destruct (fault (clock w) OpRollback); [by split|].
  unfold psync, ids. simpl. by rewrite Hw.
Qed.

Lemma grows_print (e : log_entry) : steps grows (print e).
Proof. intros w Hw. by split. Qed.

Lemma grows_modify_loc (f : locals -> locals) : steps grows (modify_loc f).
Proof. intros w Hw. by split. Qed.

#[local] Hint Resolve grows_commit grows_rollback grows_print grows_modify_loc : steps.
#[local] Hint Extern 1 (steps grows (execute _)) => (apply grows_execute; reflexivity) : steps.

Lemma ids_upsert_player (name : string) (reg : json) (d : db) :
  ids d ⊆ ids (upsert_player name reg d).1 ∧
  ids (upsert_player name reg d).1 !! index_key name = Some (upsert_player name reg d).2.
Proof.
  unfold upsert_player, ids.
  destruct (players d !! index_key name) as [p|] eqn:Hp; simpl; rewrite fmap_insert; simpl.
  - rewrite lookup_insert_eq. split; [|done].
    rewrite insert_id; [done|]. by rewrite lookup_fmap, Hp.
  - rewrite lookup_insert_eq. split; [|done].
    apply insert_subseteq. by rewrite lookup_fmap, Hp.
Qed.

Section no_faults.
Hypothesis no_faults : ∀ n k, fault n k = false.

(** Without faults a named player is upserted and committed. *)
Lemma resolve_named_run (s : string) (reg : json) (w : world) :
  strip s ≠ "" ->
  get_or_create_player (JStr s) reg w =
  ({| cur := (upsert_player (truncate_name (strip s)) reg (cur w)).1;
      saved := (upsert_player (truncate_name (strip s)) reg (cur w)).1;
      clock := S (S (clock w)); log := log w; loc := loc w |},
   Ret (Some (upsert_player (truncate_name (strip s)) reg (cur w)).2)).
Proof.
  intros Hs. rewrite (resolve_named s reg w Hs).
  unfold try_except, mbind, M_bind, execute, commit. simpl.
  rewrite no_faults.
  destruct (upsert_player (truncate_name (strip s)) reg (cur w)) as [d id]. simpl.
  rewrite no_faults. simpl. by destruct autocommit.
Qed.

(** The three ways a resolution goes: nothing to resolve, a raise before
    any statement, or a named player. *)
Lemma resolve_cases (name reg : json) :
  (∀ w, get_or_create_player name reg w = (w, Ret None)) ∨
  (∀ w, get_or_create_player name reg w = (w, Raise AttributeError)) ∨
  (∃ s, name = JStr s ∧ strip s ≠ "").
Proof.
  destruct (truthy name) eqn:Ht.
  - destruct name; try (right; left; intros w; unfold get_or_create_player;
                        by rewrite Ht).
    destruct (decide (strip s = "")) as [Hs|Hs].
    + left. intros w. apply resolve_blank. right. by exists s.
    + right. right. by exists s.
  - left. intros w. apply resolve_blank. by left.
Qed.

Lemma grows_resolve (name reg : json) : steps grows (get_or_create_player name reg).
Proof.
  intros w Hw.
  destruct (resolve_cases name reg) as [H|[H|(s & -> & Hs)]]; try (rewrite H; by split).
  rewrite (resolve_named_run s reg w Hs). simpl. split; [done|].
  apply ids_upsert_player.
Qed.

#[local] Hint Resolve grows_resolve : steps.

(** *** Two runs side by side *)

#[local] Instance np_eq_equiv : Equivalence np_eq.
Proof.
  split.
  - by intros d.
  - intros d d' (?&?&?&?&?). by repeat split.
  - intros d1 d2 d3 (?&?&?&?&?) (?&?&?&?&?). repeat split; congruence.
Qed.

Lemma np_eq_run (mid : string) (s : stmt) (d d' : db) :
  plain mid s -> np_eq d d' -> np_eq (run_stmt s d).1 (run_stmt s d').1.
Proof.
  intros Hs (Hm & Hl & Hi & Hd & Ho). destruct s; try done; simpl;
    unfold np_eq; simpl; by rewrite ?Hm, ?Hl, ?Hi, ?Hd, ?Ho.
Qed.

Lemma plain_player_free (mid : string) (s : stmt) : plain mid s -> player_free s = true.
Proof. by destruct s. Qed.

Lemma plain_result (mid : string) (s : stmt) (d : db) : plain mid s -> (run_stmt s d).2 = None.
Proof. by destruct s. Qed.

Lemma apply_ops_snoc (ops : list stmt) (s : stmt) (d : db) :
  apply_ops (ops ++ [s]) d = (run_stmt s (apply_ops ops d)).1.
Proof. unfold apply_ops. by rewrite foldl_app. Qed.

Section replay.
Context (mid : string) (F : gmap string Z) (bw bu : db).
Local Abbreviation related := (related mid F bw bu).
Local Abbreviation replay := (replay mid F bw bu).
Local Abbreviation good := (good mid F bw bu).

Lemma good_ret {A} (a : A) : good (mret a).
Proof. split; [apply steps_ret, _|]. by intros w u Hr _. Qed.

Lemma good_lift {A} (r : result A) : good (lift r).
Proof. split; [apply steps_lift, _|]. by intros w u Hr _. Qed.

Lemma good_raise {A} (e : exn) : good (raise (A:=A) e).
Proof. split; [apply steps_raise, _|]. by intros w u Hr _. Qed.

Lemma good_get_loc : good get_loc.
Proof.
  split; [apply steps_get_loc, _|]. intros w u Hr _. simpl. split; [|done].
  destruct Hr as [-> _]. done.
Qed.

Lemma good_modify_loc (f : locals -> locals) : good (modify_loc f).
Proof.
  split; [apply grows_modify_loc|]. intros w u (Hl & Hp & Hr) _. simpl.
  split; [done|]. split; [simpl; by rewrite Hl|]. by split.
Qed.

Lemma good_print (e : log_entry) : good (print e).
Proof.
  split; [apply grows_print|]. intros w u (Hl & Hp & Hr) _. simpl.
  split; [done|]. by split.
Qed.

Lemma good_bind {A B} (c : M A) (f : A -> M B) :
  good c -> (∀ a, good (f a)) -> good (c ≫= f).
Proof.
  intros [Hgc Hrc] Hf. split.
  { apply steps_bind; [apply _|done|]. intros a. apply Hf. }
  intros w u Hrel Hsub. unfold mbind, M_bind in *.
  pose proof (Hgc w) as Hgw. specialize (Hrc w u Hrel).
  destruct (c w) as [w1 [a|e]]; simpl in *.
  - destruct Hgw as [Hw1 _]; [apply Hrel|].
    destruct (Hf a) as [Hgf Hrf]. destruct (Hgf w1 Hw1) as [_ Hs1].
    destruct Hrc as [Hres Hrel1]; [by etrans|].
    destruct (c u) as [u1 r]. simpl in *. subst r. by apply Hrf.
  - destruct Hrc as [Hres Hrel1]; [done|].
    destruct (c u) as [u1 r]. simpl in *. by subst r.
Qed.

Lemma good_try {A} (c : M A) (h : exn -> M A) :
  good c -> (∀ e, good (h e)) -> good (try_except c h).
Proof.
  intros [Hgc Hrc] Hh. split.
  { apply steps_try; [apply _|done|]. intros e. apply Hh. }
  intros w u Hrel Hsub. unfold try_except in *.
  pose proof (Hgc w) as Hgw. specialize (Hrc w u Hrel).
  destruct (c w) as [w1 [a|e]]; simpl in *.
  - destruct Hrc as [Hres Hrel1]; [done|].
    destruct (c u) as [u1 r]. simpl in *. by subst r.
  - destruct Hgw as [Hw1 _]; [apply Hrel|].
    destruct (Hh e) as [Hgh Hrh]. destruct (Hgh w1 Hw1) as [_ Hs1].
    destruct Hrc as [Hres Hrel1]; [by etrans|].
    destruct (c u) as [u1 r]. simpl in *. subst r. by apply Hrh.
Qed.

Lemma good_for_each {A} (l : list A) (body : A -> M unit) :
  (∀ x, good (body x)) -> good (for_each l body).
Proof.
  intros Hb. induction l as [|x l IH]; simpl; [apply good_ret|].
  apply good_bind; [apply Hb|]. intros _. exact IH.
Qed.

Lemma good_for_each_from {A} (i0 : Z) (l : list A) (body : Z -> A -> M unit) :
  (∀ i x, good (body i x)) -> good (for_each_from i0 l body).
Proof.
  intros Hb. revert i0. induction l as [|x l IH]; intros i0; simpl; [apply good_ret|].
  apply good_bind; [apply Hb|]. intros _. apply IH.
Qed.

Lemma good_execute (s : stmt) : plain mid s -> good (execute s).
Proof.
  intros Hs. split; [apply grows_execute; by eapply plain_player_free|].
  intros w u (Hl & Hp & Hc & Hv & opsC & opsS & HfC & HfS & HwC & HwS & HuC & HuS) _.
  unfold execute. rewrite !no_faults.
  pose proof (plain_result mid s (cur w) Hs) as Hrw.
  pose proof (plain_result mid s (cur u) Hs) as Hru.
  pose proof (run_stmt_players s (cur w) (plain_player_free mid s Hs)) as Hpw.
  pose proof (run_stmt_players s (cur u) (plain_player_free mid s Hs)) as Hpu.
  pose proof (np_eq_run mid s _ _ Hs HwC) as HwC'.
  pose proof (np_eq_run mid s _ _ Hs HuC) as HuC'.
  rewrite <- apply_ops_snoc in HwC', HuC'.
  destruct (run_stmt s (cur w)) as [dw rw]. destruct (run_stmt s (cur u)) as [du ru].
  simpl in *. subst rw ru. split; [done|].
  split; [done|]. split; [unfold psync; simpl; destruct autocommit; congruence|].
  split; [unfold ids in *; simpl; congruence|].
  split; [unfold ids in *; simpl; destruct autocommit; congruence|].
  destruct autocommit.
  - exists (opsC ++ [s])%list, (opsC ++ [s])%list.
    assert (Forall (plain mid) (opsC ++ [s])) by (apply Forall_app; by repeat constructor).
    simpl. refine (conj _ (conj _ (conj _ (conj _ (conj _ _))))); done.
  - exists (opsC ++ [s])%list, opsS.
    assert (Forall (plain mid) (opsC ++ [s])) by (apply Forall_app; by repeat constructor).
    simpl. refine (conj _ (conj _ (conj _ (conj _ (conj _ _))))); done.
Qed.

Lemma good_commit : good commit.
Proof.
  split; [apply grows_commit|].
  intros w u (Hl & Hp & Hc & Hv & opsC & opsS & HfC & HfS & HwC & HwS & HuC & HuS) _.
  unfold commit. rewrite !no_faults. simpl. split; [done|].
  split; [done|]. split; [done|]. split; [done|]. split; [done|].
  exists opsC, opsC. refine (conj _ (conj _ (conj _ (conj _ (conj _ _))))); done.
Qed.

Lemma good_rollback : good rollback.
Proof.
  split; [apply grows_rollback|].
  intros w u (Hl & Hp & Hc & Hv & opsC & opsS & HfC & HfS & HwC & HwS & HuC & HuS) _.
  unfold rollback. rewrite !no_faults. simpl. split; [done|].
  split; [done|]. split; [done|]. split; [done|]. split; [done|].
  exists opsS, opsS. refine (conj _ (conj _ (conj _ (conj _ (conj _ _))))); done.
Qed.

Lemma np_eq_upsert_player (name : string) (reg : json) (d : db) :
  np_eq (upsert_player name reg d).1 d.
Proof. unfold upsert_player. by destruct (players d !! index_key name). Qed.

Lemma upsert_known_player (name : string) (reg : json) (d : db) (id : Z) :
  ids d !! index_key name = Some id ->
  (upsert_player name reg d).2 = id ∧ ids (upsert_player name reg d).1 = ids d.
Proof.
  unfold ids. rewrite lookup_fmap. unfold upsert_player.
  destruct (players d !! index_key name) as [p|] eqn:Hp; [|done]. simpl. intros [= <-].
  split; [done|]. rewrite fmap_insert. simpl. apply insert_id.
  by rewrite lookup_fmap, Hp.
Qed.

Lemma good_resolve (name reg : json) : good (get_or_create_player name reg).
Proof.
  split; [apply grows_resolve|].
  intros w u Hrel Hsub.
  destruct (resolve_cases name reg) as [H|[H|(s & -> & Hs)]]; try (by rewrite !H).
  rewrite (resolve_named_run s reg w Hs) in *. rewrite (resolve_named_run s reg u Hs).
  destruct Hrel
    as (Hl & Hp & Hc & Hv & opsC & opsS & HfC & HfS & HwC & HwS & HuC & HuS).
  simpl in *.
  destruct (ids_upsert_player (truncate_name (strip s)) reg (cur w)) as [_ Hid].
  assert (ids (cur u) !! index_key (truncate_name (strip s)) =
          Some (upsert_player (truncate_name (strip s)) reg (cur w)).2) as Hknown.
  { rewrite Hc. by eapply lookup_weaken. }
  destruct (upsert_known_player _ reg _ _ Hknown) as [Hsame Hids].
  split; [by rewrite Hsame|]. unfold related, psync. simpl.
  split; [done|]. split; [done|]. split; [by rewrite Hids|]. split; [by rewrite Hids|].
  exists opsC, opsC.
  pose proof (np_eq_upsert_player (truncate_name (strip s)) reg (cur w)) as Hnw.
  pose proof (np_eq_upsert_player (truncate_name (strip s)) reg (cur u)) as Hnu.
  refine (conj _ (conj _ (conj _ (conj _ (conj _ _))))); try done; by etrans.
Qed.

Create HintDb good discriminated.
#[local] Hint Resolve good_ret good_lift good_raise good_get_loc good_modify_loc
  good_print good_commit good_rollback good_resolve : good.
#[local] Hint Extern 1 (good (execute _)) => (apply good_execute; done) : good.

Ltac good_step :=
  lazymatch goal with
  | |- ∀ _, _ => intros ?
  | |- good (_ ≫= _) => apply good_bind
  | |- good (try_except _ _) => apply good_try
  | |- good (for_each _ _) => apply good_for_each
  | |- good (for_each_from _ _ _) => apply good_for_each_from
  | |- good (if ?b then _ else _) => destruct b
  | |- good (match ?x with _ => _ end) => destruct x
  end.

Ltac good_auto := repeat first [solve [auto with good] | good_step].

Lemma good_process_players (registry players_info : json) :
  good (process_players mid registry players_info).
Proof. unfold process_players, link_player. good_auto. Qed.

Lemma good_process_officials (info : json) : good (process_officials mid info).
Proof. unfold process_officials, insert_officials. good_auto. Qed.

Lemma good_process_deliveries (registry team1 team2 innings_list : json) :
  good (process_deliveries mid registry team1 team2 innings_list).
Proof.
  unfold process_deliveries, process_innings, process_over, process_delivery,
    read_delivery, read_wicket, link_seen_player, count_delivery.
  good_auto.
Qed.

Lemma good_persist_aggregates (bpo : option Z) : good (persist_aggregates mid bpo).
Proof. unfold persist_aggregates, write_aggregates, persist_innings. good_auto. Qed.

Lemma good_process_body (h : header) : good (process_body mid h).
Proof.
  unfold process_body. good_auto.
  - apply good_process_players.
  - apply good_process_officials.
  - apply good_process_deliveries.
Qed.

End replay.

Lemma apply_ops_deliveries (ops : list stmt) (d : db) :
  deliveries (apply_ops ops d) = (deliveries d ++ new_rows ops)%list.
Proof.
  induction ops as [|s ops IH] using rev_ind; [by rewrite app_nil_r|].
  rewrite apply_ops_snoc. unfold new_rows in *. rewrite omap_app. simpl.
  destruct s; simpl; rewrite ?app_nil_r; try done.
  - rewrite <- IH. unfold upsert_player.
    by destruct (players (apply_ops ops d) !! index_key player_name).
  - by rewrite IH, app_assoc.
Qed.

Lemma new_rows_plain (mid : string) (ops : list stmt) :
  Forall (plain mid) ops -> Forall (fun r => d_match_id r = mid) (new_rows ops).
Proof.
  induction 1 as [|s ops Hs Hops IH]; [constructor|].
  unfold new_rows in *. destruct s; simpl; try done. by constructor.
Qed.

Lemma apply_ops_matches (mid : string) (ops : list stmt) (d : db) :
  Forall (plain mid) ops -> matches (apply_ops ops d) = matches d.
Proof.
  induction ops as [|s ops IH] using rev_ind; [done|].
  intros [Hops Hs%Forall_inv]%Forall_app. rewrite apply_ops_snoc.
  rewrite <- (IH Hops). by destruct s.
Qed.

(** Without faults the header is stored and committed. *)
Lemma persist_header_run (mid : string) (row : match_row) (w : world) :
  persist_header mid row w =
  ({| cur := set_matches <[index_key mid := row]> (cur w);
      saved := set_matches <[index_key mid := row]> (cur w);
      clock := S (S (clock w)); log := log w; loc := loc w |}, Ret true).
Proof.
  unfold persist_header, try_except, mbind, M_bind, execute, commit. simpl.
  rewrite !no_faults. simpl. by destruct autocommit.
Qed.

Lemma process_json_file_header (mid : string) (match_data : json) (h : header) (w : world) :
  read_header match_data = Ret h ->
  process_json_file mid (Some match_data) w =
  (process_body mid h;; persist_aggregates mid (h_balls_per_over h))
    (header_done mid (h_row h) w).
Proof.
  intros Hh. rewrite process_json_file_unfold.
  unfold mbind at 1, M_bind at 1, lift at 1. rewrite Hh.
  unfold mbind at 1, M_bind at 1. by rewrite persist_header_run.
Qed.

Lemma process_json_file_unreadable (mid : string) (match_data : json) (e : exn) (w : world) :
  read_header match_data = Raise e ->
  process_json_file mid (Some match_data) w = (file_start mid w, Raise e).
Proof.
  intros Hh. rewrite process_json_file_unfold.
  unfold mbind at 1, M_bind at 1, lift at 1. by rewrite Hh.
Qed.

(** One more ingestion of a file that has just been ingested. *)
Lemma reingest_once (mid : string) (content : option json) (w : world) :
  let r1 := process_json_file mid content w in
  let r2 := process_json_file mid content r1.1 in
  r2.2 = r1.2 ∧
  matches (cur r2.1) = matches (cur r1.1) ∧
  match_players (cur r2.1) = match_players (cur r1.1) ∧
  innings (cur r2.1) = innings (cur r1.1) ∧
  ∃ rows, Forall (fun r => d_match_id r = mid) rows ∧
    deliveries (cur r1.1) = (deliveries (cur w) ++ rows)%list ∧
    deliveries (cur r2.1) = (deliveries (cur r1.1) ++ rows)%list.
Proof.
  intros r1 r2. subst r1 r2.
  destruct content as [match_data|]; [destruct (read_header match_data) as [h|e] eqn:Hh|].
  - rewrite !(process_json_file_header mid match_data h) by done.
    set (rest := process_body mid h;; persist_aggregates mid (h_balls_per_over h)).
    set (wh := header_done mid (h_row h) w).
    set (w1 := (rest wh).1).
    set (uh := header_done mid (h_row h) w1).
    assert (good mid (ids (cur w1)) (cur wh) (cur uh) rest) as [_ Hreplay].
    { apply good_bind; [apply good_process_body|].
      intros _. apply good_persist_aggregates. }
    destruct (Hreplay wh uh) as [Hres Hrel].
    { split; [done|]. split; [done|]. split; [done|]. split; [done|].
      exists [], []. by repeat split. }
    { done. }
    destruct Hrel
      as (_ & _ & _ & _ & opsC & opsS & HfC & _ & (Hm1 & Hl1 & Hi1 & Hd1 & _) & _
          & (Hm2 & Hl2 & Hi2 & Hd2 & _) & _).
    fold w1 in Hm1, Hl1, Hi1, Hd1.
    split; [done|]. split; [|split; [|split]].
    + rewrite Hm2, Hm1, !(apply_ops_matches mid) by done. simpl.
      rewrite Hm1, (apply_ops_matches mid) by done. simpl.
      by rewrite insert_insert_eq.
    + rewrite Hl2, Hl1.
      apply (table_twice match_players link_effect link_effect_run).
      fold (apply_ops opsC (cur wh)). by rewrite <- Hl1.
    + rewrite Hi2, Hi1.
      apply (table_twice innings innings_effect innings_effect_run).
      fold (apply_ops opsC (cur wh)). by rewrite <- Hi1.
    + exists (new_rows opsC). split; [by eapply new_rows_plain|].
      rewrite Hd2, Hd1, !apply_ops_deliveries. simpl.
      by rewrite Hd1, apply_ops_deliveries.
  - rewrite !(process_json_file_unreadable mid match_data e) by done. simpl.
    repeat split; try done. exists []. by rewrite !app_nil_r.
  - rewrite !process_json_file_unfold. unfold mbind, M_bind, print. simpl.
    repeat split; try done. exists []. by rewrite !app_nil_r.
Qed.

Lemma join_replicate_end {A} (l : list A) (n : nat) :
  (mjoin (replicate n l) ++ l = l ++ mjoin (replicate n l))%list.
Proof.
  induction n as [|n IH]; simpl; [by rewrite app_nil_r|].
  by rewrite <- app_assoc, IH.
Qed.

(** Ingest one file again and again, no storage call failing.  After
    every ingestion from the first on, the match row, the match-player
    links and the innings rows are the ones the first ingestion left, while
    each ingestion appends the same delivery rows of the match once more. *)
Lemma reingest_copies (mid : string) (content : option json) (w : world) :
  ∃ rows, Forall (fun r => d_match_id r = mid) rows ∧
    ∀ n, (1 <= n)%nat ->
      matches (cur (ingest n mid content w)) = matches (cur (ingest 1 mid content w)) ∧
      match_players (cur (ingest n mid content w)) =
        match_players (cur (ingest 1 mid content w)) ∧
      innings (cur (ingest n mid content w)) = innings (cur (ingest 1 mid content w)) ∧
      deliveries (cur (ingest n mid content w)) =
        (deliveries (cur w) ++ mjoin (replicate n rows))%list.
Proof.
  destruct (reingest_once mid content w) as (_ & _ & _ & _ & rows & Hrows & Hd1 & _).
  exists rows. split; [done|].
  assert (∀ m,
    matches (cur (ingest (S m) mid content w)) = matches (cur (ingest 1 mid content w)) ∧
    match_players (cur (ingest (S m) mid content w)) =
      match_players (cur (ingest 1 mid content w)) ∧
    innings (cur (ingest (S m) mid content w)) = innings (cur (ingest 1 mid content w)) ∧
    deliveries (cur (ingest (S m) mid content w)) =
      (deliveries (cur (ingest m mid content w)) ++ rows)%list ∧
    deliveries (cur (ingest (S m) mid content w)) =
      (deliveries (cur w) ++ mjoin (replicate (S m) rows))%list) as Hall.
  { induction m as [|m (IHm & IHl & IHi & IHd & IHn)].
    - simpl. rewrite app_nil_r. by repeat split.
    - destruct (reingest_once mid content (ingest m mid content w))
        as (_ & Hm & Hl & Hi & rows' & _ & Hd & Hd').
      change (process_json_file mid content (ingest m mid content w)).1
        with (ingest (S m) mid content w) in *.
      change (process_json_file mid content (ingest (S m) mid content w)).1
        with (ingest (S (S m)) mid content w) in *.
      assert (rows' = rows) as -> by (rewrite IHd in Hd; by apply app_inv_head in Hd).
      split; [congruence|]. split; [congruence|]. split; [congruence|].
      split; [done|]. rewrite Hd', IHn. rewrite <- app_assoc. f_equal.
      change (mjoin (replicate (S (S m)) rows))
        with (rows ++ mjoin (replicate (S m) rows))%list.
      apply join_replicate_end. }
  intros [|m] Hn; [lia|]. destruct (Hall m) as (? & ? & ? & _ & ?). done.
Qed.

End no_faults.

(** * Further properties of the loader *)

(** ** The float coercion and the dates *)

Lemma safe_float_str (s : string) (dflt : option pyfloat) :
  safe_float (JStr s) dflt =
  Ret (if str_empty (strip s) then dflt
       else match float_of_str rt (strip s) with
            | Some f => Some f
            | None => dflt
            end).
Proof.
  unfold safe_float. simpl.
  destruct (String.eqb_spec s "") as [->|Hs]; [done|].
  unfold safe_float_try. destruct (str_empty (strip s)); [done|].
  simpl. by destruct (float_of_str rt (strip s)).
Qed.

(** X1.  [safe_float] returns on every input and never raises: the
    default for [None], for a blank string, for a string [float] rejects,
    for a list and for a dict; the float itself for a float, an infinity or
    a NaN included; the exact value for an int below 2^53 in magnitude;
    and whatever [float] reads from the stripped text of a string. *)
Theorem safe_float_total :
  (∀ val dflt, ∃ r, safe_float val dflt = Ret r) ∧
  (∀ dflt, safe_float JNull dflt = Ret dflt) ∧
  (∀ s dflt, strip s = "" -> safe_float (JStr s) dflt = Ret dflt) ∧
  (∀ s dflt, float_of_str rt (strip s) = None -> safe_float (JStr s) dflt = Ret dflt) ∧
  (∀ l dflt, safe_float (JList l) dflt = Ret dflt) ∧
  (∀ d dflt, safe_float (JDict d) dflt = Ret dflt) ∧
  (∀ f dflt, safe_float (JFloat f) dflt = Ret (Some f)) ∧
  (∀ z dflt, Z.abs z < 2 ^ 53 -> safe_float (JInt z) dflt = Ret (Some (FNum (inject_Z z)))) ∧
  (∀ s f dflt, strip s ≠ "" -> float_of_str rt (strip s) = Some f ->
     safe_float (JStr s) dflt = Ret (Some f)).
Proof.
  split.
  { intros val dflt. unfold safe_float.
    destruct (is_none val || py_eq val (JStr "")); [eauto|].
    destruct (safe_float_try val dflt); eauto. }
  split; [done|].
  split. { intros s dflt Hs. by rewrite safe_float_str, Hs. }
  split. { intros s dflt Hs. rewrite safe_float_str, Hs. by destruct (str_empty _). }
  split; [done|]. split; [done|]. split; [done|].
  split.
  { intros z dflt Hz. unfold safe_float, safe_float_try. simpl.
    by rewrite (float_of_int_small z Hz). }
  intros s f dflt Hs Hf. rewrite safe_float_str, Hf.
  destruct (str_empty (strip s)) eqn:E; [|done].
  by apply str_empty_true in E.
Qed.

(** X2.  [safe_int] is [safe_float] followed by truncation toward zero:
    on every input it returns the integer part of the float [safe_float]
    finds when that float is finite, and its default in every other
    case. *)
Theorem safe_int_truncates_safe_float (val : json) (dflt : option Z) :
  safe_int val dflt =
  Ret match safe_float val None with
      | Ret (Some (FNum q)) => Some (Qnum q ÷ Z.pos (Qden q))
      | _ => dflt
      end.
Proof.
  destruct val as [|b|z|f|s|l|d]; try done.
  - unfold safe_int, safe_float, safe_int_try, safe_float_try. simpl.
    by destruct (float_of_int z).
  - by destruct f.
  - rewrite safe_int_str, safe_float_str.
    destruct (str_empty (strip s)); [done|].
    by destruct (float_of_str rt (strip s)) as [[| |]|].
Qed.

Lemma first_date_app (s : string) (pre : list string) (fmt : string) (post : list string)
    (d : pydate) :
  Forall (fun f => strptime rt s f = None) pre -> strptime rt s fmt = Some d ->
  first_date s (pre ++ fmt :: post) = Some d.
Proof.
  intros Hpre Hfmt. induction Hpre as [|f pre Hf _ IH]; simpl.
  - by rewrite Hfmt.
  - by rewrite Hf.
Qed.

Lemma first_date_none (s : string) (fmts : list string) :
  Forall (fun f => strptime rt s f = None) fmts -> first_date s fmts = None.
Proof. induction 1 as [|f fmts Hf _ IH]; simpl; [done|by rewrite Hf]. Qed.

(** X3.  [safe_date] gives no date for a falsy value or a blank text;
    otherwise the stripped text is read with the first layout of the list
    that accepts it, so a text that the ISO layout rejects and the
    day-first layout accepts is read day-first whatever the month-first
    layout would make of it; when no layout accepts it there is no date. *)
Theorem safe_date_first_layout (val : json) :
  let s := strip (py_str val) in
  (truthy val = false ∨ s = "" -> safe_date val = None) ∧
  (truthy val = true -> s ≠ "" ->
   ∀ pre fmt post d, date_formats = (pre ++ fmt :: post)%list ->
     Forall (fun f => strptime rt s f = None) pre -> strptime rt s fmt = Some d ->
     safe_date val = Some d) ∧
  (truthy val = true -> s ≠ "" ->
   strptime rt s "%Y-%m-%d" = None ->
   ∀ d, strptime rt s "%d/%m/%Y" = Some d -> safe_date val = Some d) ∧
  (Forall (fun f => strptime rt s f = None) date_formats -> safe_date val = None).
Proof.
  intros s. unfold safe_date. fold s.
  assert (Hgen : truthy val = true -> s ≠ "" ->
   ∀ pre fmt post d, date_formats = (pre ++ fmt :: post)%list ->
     Forall (fun f => strptime rt s f = None) pre -> strptime rt s fmt = Some d ->
     (if negb (truthy val) then None
      else if str_empty s then None else first_date s date_formats) = Some d).
  { intros Ht Hs pre fmt post d Hfmts Hpre Hfmt.
    rewrite Ht, (str_empty_false s Hs), Hfmts. by apply first_date_app. }
  split; [|split; [exact Hgen|split]].
  - intros [Ht| ->]; [by rewrite Ht|]. by destruct (negb (truthy val)).
  - intros Ht Hs Hiso d Hd.
    apply (Hgen Ht Hs ["%Y-%m-%d"] "%d/%m/%Y"
             ["%m/%d/%Y"; "%Y/%m/%d"; "%d-%m-%Y"; "%m-%d-%Y"] d); [done| |done].
    by repeat constructor.
  - intros Hall. destruct (negb (truthy val)); [done|].
    destruct (str_empty s); [done|]. by apply first_date_none.
Qed.

(** ** The extras of a delivery *)

Lemma find_extra_app (d : list (string * json)) (pre : list string) (k : string)
    (post : list string) (v : json) :
  Forall (fun k' => dict_get d k' = None) pre -> dict_get d k = Some v ->
  find_extra (JDict d) (pre ++ k :: post) = (ev ← safe_int v None; Ret (Some k, ev)).
Proof.
  intros Hpre Hk. induction Hpre as [|k' pre Hk' _ IH]; simpl.
  - unfold dict_has. by rewrite Hk.
  - unfold dict_has. by rewrite Hk'.
Qed.

(** X4.  The extra of a delivery is the first of wides, noballs, byes,
    legbyes and penalty that is a key of its [extras] dict, with the
    integer read from the value of that key, whatever other kinds the dict
    holds; a dict with none of the five gives no kind and the value 0. *)
Theorem find_extra_first_kind (d : list (string * json)) :
  (∀ pre k post v, extra_kinds = (pre ++ k :: post)%list ->
     Forall (fun k' => dict_get d k' = None) pre -> dict_get d k = Some v ->
     ∃ ev, safe_int v None = Ret ev ∧
       find_extra (JDict d) extra_kinds = Ret (Some k, ev)) ∧
  (Forall (fun k => dict_get d k = None) extra_kinds ->
   find_extra (JDict d) extra_kinds = Ret (None, Some 0)).
Proof.
  split.
  - intros pre k post v Hk Hpre Hv. rewrite Hk, (find_extra_app d pre k post v Hpre Hv).
    destruct (safe_int_never_raises v None) as [ev Hev]. exists ev. by rewrite Hev.
  - generalize extra_kinds. induction 1 as [|k l Hk _ IH]; simpl; [done|].
    unfold dict_has. by rewrite Hk.
Qed.

(** ** The overs notation *)

Lemma overs_played_tenths (b k : Z) :
  0 < k -> (overs_played b k == (10 * (b / k) + b mod k) # 10)%Q.
Proof.
  intros Hk. unfold overs_played.
  pose proof (Z.mod_pos_bound b k Hk) as Hr.
  destruct (0 <? b mod k) eqn:E.
  - unfold Qeq, Qdiv, Qplus, Qmult, Qinv, inject_Z. simpl. lia.
  - apply Z.ltb_ge in E. unfold Qeq, inject_Z. simpl. lia.
Qed.

(** X5.  With at most ten balls to the over, the overs notation of line
    610 keeps the order of the ball counts -- more balls give a strictly
    larger value -- and its whole part is the number of complete overs. *)
Theorem overs_notation_ordered (k b1 b2 : Z) :
  0 < k <= 10 -> b1 < b2 ->
  (overs_played b1 k < overs_played b2 k)%Q ∧
  Qfloor (overs_played b1 k) = b1 / k.
Proof.
  intros [Hk Hk10] Hb.
  pose proof (Z.mod_pos_bound b1 k Hk) as Hr1.
  pose proof (Z.mod_pos_bound b2 k Hk) as Hr2.
  pose proof (Z.div_mod b1 k ltac:(lia)) as E1.
  pose proof (Z.div_mod b2 k ltac:(lia)) as E2.
  split.
  - rewrite !overs_played_tenths by done. unfold Qlt. simpl.
    assert (b1 / k <= b2 / k) by (apply Z.div_le_mono; lia).
    destruct (decide (b1 / k = b2 / k)) as [Heq|Hne]; [rewrite Heq in *; lia|].
    nia.
  - rewrite (Qfloor_comp _ _ (overs_played_tenths b1 k Hk)).
    unfold Qfloor. symmetry. apply (Z.div_unique _ _ _ (b1 mod k)); lia.
Qed.

(** ** Reasoning about outcomes *)

Lemma wp_run {A} (c : M A) (Q : A -> world -> Prop) (E : exn -> world -> Prop) (w : world) :
  (∀ w' a, c w = (w', Ret a) -> Q a w') ->
  (∀ w' e, c w = (w', Raise e) -> E e w') ->
  wp c Q E w.
Proof. unfold wp. intros HQ HE. destruct (c w) as [w' [a|e]]; auto. Qed.

Lemma wp_ret_inv {A} (c : M A) (Q : A -> world -> Prop) (E : exn -> world -> Prop)
    (w w' : world) (a : A) :
  wp c Q E w -> c w = (w', Ret a) -> Q a w'.
Proof. unfold wp. intros H Hc. by rewrite Hc in H. Qed.

Lemma wp_raise_inv {A} (c : M A) (Q : A -> world -> Prop) (E : exn -> world -> Prop)
    (w w' : world) (e : exn) :
  wp c Q E w -> c w = (w', Raise e) -> E e w'.
Proof. unfold wp. intros H Hc. by rewrite Hc in H. Qed.

Lemma wp_mono {A} (c : M A) (Q Q' : A -> world -> Prop) (E E' : exn -> world -> Prop)
    (w : world) :
  wp c Q E w -> (∀ a w', Q a w' -> Q' a w') -> (∀ e w', E e w' -> E' e w') ->
  wp c Q' E' w.
Proof. unfold wp. intros H HQ HE. destruct (c w) as [w' [a|e]]; auto. Qed.

Lemma wp_ret {A} (a : A) (Q : A -> world -> Prop) (E : exn -> world -> Prop) (w : world) :
  Q a w -> wp (mret a) Q E w.
Proof. done. Qed.

Lemma wp_raise {A} (e : exn) (Q : A -> world -> Prop) (E : exn -> world -> Prop)
    (w : world) :
  E e w -> wp (raise e) Q E w.
Proof. done. Qed.

Lemma wp_lift {A} (r : result A) (Q : A -> world -> Prop) (E : exn -> world -> Prop)
    (w : world) :
  match r with Ret a => Q a w | Raise e => E e w end -> wp (lift r) Q E w.
Proof. done. Qed.

Lemma wp_bind {A B} (c : M A) (f : A -> M B) (Q : B -> world -> Prop)
    (E : exn -> world -> Prop) (w : world) :
  wp c (fun a w' => wp (f a) Q E w') E w -> wp (c ≫= f) Q E w.
Proof.
  unfold wp, mbind, M_bind. by destruct (c w) as [w' [a|e]].
Qed.

Lemma wp_try {A} (c : M A) (h : exn -> M A) (Q : A -> world -> Prop)
    (E : exn -> world -> Prop) (w : world) :
  wp c Q (fun e w' => wp (h e) Q E w') w -> wp (try_except c h) Q E w.
Proof.
  unfold wp, try_except. by destruct (c w) as [w' [a|e]].
Qed.

Lemma wp_get_loc (Q : locals -> world -> Prop) (E : exn -> world -> Prop) (w : world) :
  Q (loc w) w -> wp get_loc Q E w.
Proof. done. Qed.

Lemma wp_modify_loc (f : locals -> locals) (Q : unit -> world -> Prop)
    (E : exn -> world -> Prop) (w : world) :
  Q tt {| cur := cur w; saved := saved w; clock := clock w; log := log w;
          loc := f (loc w) |} ->
  wp (modify_loc f) Q E w.
Proof. done. Qed.

Lemma wp_print (entry : log_entry) (Q : unit -> world -> Prop) (E : exn -> world -> Prop)
    (w : world) :
  Q tt {| cur := cur w; saved := saved w; clock := clock w;
          log := (log w ++ [entry])%list; loc := loc w |} ->
  wp (print entry) Q E w.
Proof. done. Qed.

Lemma wp_execute (s : stmt) (Q : option Z -> world -> Prop) (E : exn -> world -> Prop)
    (w : world) :
  (fault (clock w) (stmt_op s) = true -> E StorageError (ticked w)) ->
  (fault (clock w) (stmt_op s) = false ->
   Q (run_stmt s (cur w)).2
     {| cur := (run_stmt s (cur w)).1;
        saved := if autocommit then (run_stmt s (cur w)).1 else saved w;
        clock := S (clock w); log := log w; loc := loc w |}) ->
  wp (execute s) Q E w.
Proof.
  unfold wp, execute. intros HE HQ.
  destruct (fault (clock w) (stmt_op s)); [by apply HE|].
  destruct (run_stmt s (cur w)) as [d r]. by apply HQ.
Qed.

Lemma wp_commit (Q : unit -> world -> Prop) (E : exn -> world -> Prop) (w : world) :
  (fault (clock w) OpCommit = true -> E StorageError (ticked w)) ->
  (fault (clock w) OpCommit = false ->
   Q tt {| cur := cur w; saved := cur w; clock := S (clock w); log := log w;
           loc := loc w |}) ->
  wp commit Q E w.
Proof.
  unfold wp, commit. intros HE HQ.
  destruct (fault (clock w) OpCommit); [by apply HE|by apply HQ].
Qed.

Lemma wp_rollback (Q : unit -> world -> Prop) (E : exn -> world -> Prop) (w : world) :
  (fault (clock w) OpRollback = true -> E StorageError (ticked w)) ->
  (fault (clock w) OpRollback = false ->
   Q tt {| cur := saved w; saved := saved w; clock := S (clock w); log := log w;
           loc := loc w |}) ->
  wp rollback Q E w.
Proof.
  unfold wp, rollback. intros HE HQ.
  destruct (fault (clock w) OpRollback); [by apply HE|by apply HQ].
Qed.

(** A loop keeps what each round keeps. *)
Lemma wp_for_each {A} (I : world -> Prop) (l : list A) (body : A -> M unit)
    (Q : unit -> world -> Prop) (E : exn -> world -> Prop) (w : world) :
  I w ->
  (∀ x v, x ∈ l -> I v -> wp (body x) (fun _ => I) E v) ->
  (∀ v, I v -> Q tt v) ->
  wp (for_each l body) Q E w.
Proof.
  intros Hw Hbody HQ. revert w Hw.
  induction l as [|x l IH]; intros w Hw; simpl.
  - by apply wp_ret, HQ.
  - apply wp_bind. eapply wp_mono; [apply (Hbody x w); [left|done]| |done].
    simpl. intros _ w' Hw'. apply IH; [|done].
    intros y v Hy. apply Hbody. by right.
Qed.

Lemma wp_for_each_from {A} (I : Z -> world -> Prop) (i0 : Z) (l : list A)
    (body : Z -> A -> M unit) (Q : unit -> world -> Prop) (E : exn -> world -> Prop)
    (w : world) :
  I i0 w ->
  (∀ i x v, i0 <= i -> x ∈ l -> I i v -> wp (body i x) (fun _ => I (i + 1)) E v) ->
  (∀ v, I (i0 + Z.of_nat (length l)) v -> Q tt v) ->
  wp (for_each_from i0 l body) Q E w.
Proof.
  intros Hw Hbody HQ. revert i0 w Hw Hbody HQ.
  induction l as [|x l IH]; intros i0 w Hw Hbody HQ; simpl.
  - apply wp_ret, HQ. simpl. by rewrite Z.add_0_r.
  - apply wp_bind. eapply wp_mono; [apply (Hbody i0 x w); [lia|left|done]| |done].
    simpl. intros _ w' Hw'. apply IH; [done| |].
    + intros i y v Hi Hy. apply Hbody; [lia|by right].
    + intros v Hv. apply HQ. rewrite length_cons, Nat2Z.inj_succ.
      by replace (i0 + Z.succ (Z.of_nat (length l))) with (i0 + 1 + Z.of_nat (length l)) by lia.
Qed.

(** What a relation on the worlds of a statement says of its outcome. *)
Lemma wp_steps {A} (R : relation world) (c : M A) (Q : A -> world -> Prop)
    (E : exn -> world -> Prop) (w : world) :
  steps R c -> (∀ a w', R w w' -> Q a w') -> (∀ e w', R w w' -> E e w') ->
  wp c Q E w.
Proof.
  intros Hc HQ HE. specialize (Hc w). unfold wp.
  destruct (c w) as [w' [a|e]]; simpl in Hc; auto.
Qed.

(** One structural rule, chosen by the shape of the statement. *)
Ltac wp_step :=
  lazymatch goal with
  | |- wp (mret _) _ _ _ => apply wp_ret
  | |- wp (lift _) _ _ _ => apply wp_lift
  | |- wp (raise _) _ _ _ => apply wp_raise
  | |- wp get_loc _ _ _ => apply wp_get_loc
  | |- wp (modify_loc _) _ _ _ => apply wp_modify_loc
  | |- wp (print _) _ _ _ => apply wp_print
  | |- wp (_ ≫= _) _ _ _ => apply wp_bind
  | |- wp (try_except _ _) _ _ _ => apply wp_try
  | |- wp (execute _) _ _ _ => apply wp_execute; intros ?
  | |- wp commit _ _ _ => apply wp_commit; intros ?
  | |- wp rollback _ _ _ => apply wp_rollback; intros ?
  | |- wp (if ?b then _ else _) _ _ _ => destruct b eqn:?
  end.

Lemma wp_eq {A} (c c' : M A) (Q : A -> world -> Prop) (E : exn -> world -> Prop)
    (w : world) :
  c w = c' w -> wp c' Q E w -> wp c Q E w.
Proof. unfold wp. by intros ->. Qed.

(** ** Resolving a player *)

Lemma upsert_player_lookup (name : string) (reg : json) (d : db) :
  ∃ p, players (upsert_player name reg d).1 !! index_key name = Some p ∧
    p_id p = (upsert_player name reg d).2.
Proof.
  unfold upsert_player. destruct (players d !! index_key name) as [p|]; simpl;
    rewrite lookup_insert_eq; eauto.
Qed.

Lemma upsert_player_other (name : string) (reg : json) (d : db) (k : string) :
  k ≠ index_key name -> players (upsert_player name reg d).1 !! k = players d !! k.
Proof.
  intros Hk. unfold upsert_player. destruct (players d !! index_key name) as [p|]; simpl;
    by rewrite lookup_insert_ne.
Qed.

Lemma upsert_player_keeps (name : string) (reg : json) (d : db) (k : string)
    (p : player_row) :
  players d !! k = Some p ->
  ∃ p', players (upsert_player name reg d).1 !! k = Some p' ∧
    p_id p' = p_id p ∧ p_name p' = p_name p.
Proof.
  intros Hp. destruct (decide (k = index_key name)) as [->|Hk].
  - unfold upsert_player. rewrite Hp. simpl. rewrite lookup_insert_eq. eauto.
  - rewrite upsert_player_other by done. eauto.
Qed.

(** A row of the players table that an upsert adds stores the name as
    supplied. *)
Lemma upsert_player_new (name : string) (reg : json) (d : db) (k : string)
    (p : player_row) :
  players (upsert_player name reg d).1 !! k = Some p ->
  players d !! k = None ->
  k = index_key name ∧ p_name p = name.
Proof.
  intros Hp Hk. destruct (decide (k = index_key name)) as [->|Hne].
  - split; [done|]. unfold upsert_player in Hp. rewrite Hk in Hp. simpl in Hp.
    rewrite lookup_insert_eq in Hp. by injection Hp as <-.
  - rewrite upsert_player_other in Hp by done. congruence.
Qed.

(** A named player: the connection's image is as it was, or has the
    upsert of the cleaned name; an identifier that comes back is that of
    the row of this name. *)
Lemma resolve_named_spec (s : string) (reg : json) (w : world) :
  strip s ≠ "" ->
  wp (get_or_create_player (JStr s) reg)
    (fun r w' =>
       (cur w' = cur w ∨ cur w' = (upsert_player (truncate_name (strip s)) reg (cur w)).1) ∧
       loc w' = loc w ∧
       ∀ id, r = Some id ->
         ∃ p, players (cur w') !! index_key (truncate_name (strip s)) = Some p ∧ p_id p = id)
    (fun _ _ => False) w.
Proof.
  intros Hs. eapply wp_eq; [by apply resolve_named|].
  pose proof (upsert_player_lookup (truncate_name (strip s)) reg (cur w)) as (p & Hp & Hid).
  repeat wp_step; simpl.
  all: try (destruct (upsert_player (truncate_name (strip s)) reg (cur w)) as [d id0] eqn:Hu;
            simpl in *).
  all: repeat split; auto.
  all: try (intros id [= <-]; eauto).
  all: try (intros id Hsel; apply fmap_Some in Hsel as (q & Hq & ->); eauto).
Qed.

Lemma substring_prefix_length (n : nat) (s : string) :
  (n <= String.length s)%nat -> String.length (substring 0 n s) = n.
Proof.
  revert s. induction n as [|n IH]; intros s Hn.
  - by destruct s.
  - destruct s as [|c s]; simpl in *; [lia|]. rewrite IH; lia.
Qed.

(** The key under which a player is stored has from 1 to 500 characters. *)
Lemma truncate_name_length (t : string) :
  t ≠ "" -> (0 < String.length (truncate_name t) <= 500)%nat.
Proof.
  intros Ht. unfold truncate_name.
  destruct (500 <? String.length t)%nat eqn:E.
  - apply Nat.ltb_lt in E. rewrite substring_prefix_length; lia.
  - apply Nat.ltb_ge in E. destruct t; [done|]. simpl in *. lia.
Qed.

(** Whatever the name and whatever fails: the connection's image is as it
    was or has the upsert of the cleaned name; the locals are as they
    were; an identifier that comes back is that of the stored row of the
    name; and only a name that is no [str] makes the call raise, before
    any storage call. *)
Lemma resolve_spec (name reg : json) (w : world) :
  wp (get_or_create_player name reg)
    (fun r w' =>
       (cur w' = cur w ∨
        ∃ s, name = JStr s ∧ strip s ≠ "" ∧
          cur w' = (upsert_player (truncate_name (strip s)) reg (cur w)).1) ∧
       loc w' = loc w ∧
       ∀ id, r = Some id ->
         ∃ s p, name = JStr s ∧ strip s ≠ "" ∧
           players (cur w') !! index_key (truncate_name (strip s)) = Some p ∧ p_id p = id)
    (fun e w' => e = AttributeError ∧ w' = w) w.
Proof.
  destruct name as [|b|z|f|s|l|d];
    try (unfold wp, get_or_create_player; simpl;
         repeat match goal with |- context [if ?b then _ else _] => destruct b end;
         simpl; by intuition).
  destruct (decide (strip s = "")) as [Hs|Hs].
  - unfold wp. rewrite (resolve_blank (JStr s) reg w) by (right; eauto). by intuition.
  - eapply wp_mono; [by apply resolve_named_spec| |done].
    simpl. intros r w' ([Hc|Hc] & Hl & Hid); (split; [|split; [done|]]); eauto.
    + intros id Hr. destruct (Hid id Hr) as (p & Hp & Hp'). eauto 10.
    + intros id Hr. destruct (Hid id Hr) as (p & Hp & Hp'). eauto 10.
Qed.

(** X6.  An identifier returned by [get_or_create_player] is stored: the
    name was a [str] with something left after stripping, and the players
    table, as the connection sees it after the call, holds at the entry of
    the cleaned name (the row a lookup by that name finds) a row with that
    identifier -- whichever of the upsert, its commit and the fallback
    lookup failed on the way. *)
Theorem resolve_round_trip (name reg : json) (w w' : world) (id : Z) :
  get_or_create_player name reg w = (w', Ret (Some id)) ->
  ∃ s p, name = JStr s ∧ strip s ≠ "" ∧
    players (cur w') !! index_key (truncate_name (strip s)) = Some p ∧ p_id p = id.
Proof.
  intros Hrun.
  pose proof (wp_ret_inv _ _ _ _ _ _ (resolve_spec name reg w) Hrun) as (_ & _ & Hid).
  by apply Hid.
Qed.

(** X7.  [get_or_create_player] writes to the players table only, and
    there only to the one row whose name is equal to the cleaned name under
    the collation of the table (the row at the entry of the cleaned name,
    which a different spelling of the name shares): the other five tables
    of the connection's image are as they were, no player disappears or
    changes identifier or stored name, the rows at every other entry are
    untouched, and a row that is new sits at the entry of the cleaned name
    and stores the cleaned name, of 1 to 500 characters. *)
Theorem resolve_touches_one_player (name reg : json) (w : world) :
  let w' := (get_or_create_player name reg w).1 in
  np_eq (cur w') (cur w) ∧
  (∀ k p, players (cur w) !! k = Some p ->
     ∃ p', players (cur w') !! k = Some p' ∧ p_id p' = p_id p ∧ p_name p' = p_name p) ∧
  (∀ s k, name = JStr s -> k ≠ index_key (truncate_name (strip s)) ->
     players (cur w') !! k = players (cur w) !! k) ∧
  (∀ k p', players (cur w') !! k = Some p' -> players (cur w) !! k = None ->
     ∃ s, name = JStr s ∧ k = index_key (truncate_name (strip s)) ∧
       p_name p' = truncate_name (strip s) ∧
       (0 < String.length (p_name p') <= 500)%nat).
Proof.
  intros w'. subst w'.
  pose proof (resolve_spec name reg w) as H. unfold wp in H.
  destruct (get_or_create_player name reg w) as [w' [r|e]]; simpl.
  - destruct H as ([Hc|(s & -> & Hs & Hc)] & _ & _); rewrite Hc.
    + split; [done|]. split; [eauto|]. split; [done|]. intros k p' H1 H2. congruence.
    + split; [apply np_eq_upsert_player|].
      split; [intros k p; apply upsert_player_keeps|].
      split.
      * intros s' k [= <-] Hk. by apply upsert_player_other.
      * intros k p' Hp' Hk.
        destruct (upsert_player_new _ _ _ _ _ Hp' Hk) as [-> Hn].
        exists s. rewrite Hn. repeat split; by apply truncate_name_length.
  - destruct H as [_ ->]. split; [done|]. split; [eauto|]. split; [done|].
    intros k p' H1 H2. congruence.
Qed.


(** ** The foreign key of the roster links *)

Lemma steps_keeps_wp {A} (I : world -> Prop) (c : M A) :
  (∀ w, I w -> wp c (fun _ => I) (fun _ => I) w) -> steps (keeps I) c.
Proof.
  intros H w Hw. specialize (H w Hw). unfold wp in H.
  by destruct (c w) as [w' [a|e]].
Qed.

Lemma wp_keeps {A} (I : world -> Prop) (c : M A) (Q : A -> world -> Prop)
    (E : exn -> world -> Prop) (w : world) :
  steps (keeps I) c -> I w -> (∀ a w', I w' -> Q a w') -> (∀ e w', I w' -> E e w') ->
  wp c Q E w.
Proof. intros Hc Hw HQ HE. apply (wp_steps (keeps I)); auto. Qed.

Lemma knows_upsert_player (pid : Z) (name : string) (reg : json) (d : db) :
  knows pid d -> knows pid (upsert_player name reg d).1.
Proof.
  intros (k & p & Hp & Hid).
  destruct (upsert_player_keeps name reg d k p Hp) as (p' & Hp' & Hid' & _).
  exists k, p'. split; [done|congruence].
Qed.

Lemma links_known_run (s : stmt) (d : db) :
  not_link (stmt_op s) = true -> links_known d -> links_known (run_stmt s d).1.
Proof.
  intros Hs Hd. destruct s; try done; simpl.
  destruct (upsert_player player_name registry_id d) as [d' id] eqn:Hu. simpl.
  intros mid pid Hl.
  replace d' with (upsert_player player_name registry_id d).1 in * by by rewrite Hu.
  apply knows_upsert_player, (Hd mid).
  unfold upsert_player in Hl. by destruct (players d !! index_key player_name).
Qed.

Lemma links_known_link (s : stmt) (d : db) (mid : string) (pid : Z) :
  (∃ team reg, s = UpsertMatchPlayer mid pid team reg) ∨
  (∃ team, s = InsertIgnoreMatchPlayer mid pid team) ->
  knows pid d -> links_known d -> links_known (run_stmt s d).1.
Proof.
  intros [(team & reg & ->)|(team & ->)] Hk Hd m p; simpl.
  - destruct (decide ((m, p) = (index_key mid, pid))) as [[= -> ->]|Hne]; [done|].
    rewrite lookup_insert_ne by done. apply Hd.
  - unfold insert_ignore_link.
    destruct (match_players d !! (index_key mid, pid)) eqn:E; [apply Hd|].
    destruct (decide ((m, p) = (index_key mid, pid))) as [[= -> ->]|Hne]; [done|].
    rewrite lookup_insert_ne by done. apply Hd.
Qed.

Lemma links_known_resolve (name reg : json) :
  steps (keeps (both links_known)) (get_or_create_player name reg).
Proof.
  pose proof links_known_run. unfold get_or_create_player. steps_auto.
Qed.

(** A resolved player is known to the connection, and stays known. *)
Lemma links_known_resolve_id (name reg : json) (w : world) :
  both links_known w ->
  wp (get_or_create_player name reg)
    (fun r w' => both links_known w' ∧
       (∀ pid, knows pid (cur w) -> knows pid (cur w')) ∧
       (∀ id, r = Some id -> knows id (cur w')))
    (fun _ w' => both links_known w') w.
Proof.
  intros Hw. apply wp_run.
  - intros w' r Hrun.
    pose proof (links_known_resolve name reg w Hw) as Hi. rewrite Hrun in Hi.
    pose proof (wp_ret_inv _ _ _ _ _ _ (resolve_spec name reg w) Hrun) as (Hc & _ & Hid).
    split; [done|split].
    + intros pid Hk. destruct Hc as [->|(s & _ & _ & ->)]; [done|].
      by apply knows_upsert_player.
    + intros id Hr. destruct (Hid id Hr) as (s & p & _ & _ & Hp & Hp').
      by exists (index_key (truncate_name (strip s))), p.
  - intros w' e Hrun.
    pose proof (links_known_resolve name reg w Hw) as Hi. by rewrite Hrun in Hi.
Qed.

(** A link to a known player keeps the foreign key, whether the insert
    succeeds or raises. *)
Lemma links_known_execute (s : stmt) (mid : string) (pid : Z) (w : world) :
  (∃ team reg, s = UpsertMatchPlayer mid pid team reg) ∨
  (∃ team, s = InsertIgnoreMatchPlayer mid pid team) ->
  both links_known w -> knows pid (cur w) ->
  wp (execute s)
    (fun _ w' => both links_known w' ∧ players (cur w') = players (cur w))
    (fun _ w' => both links_known w' ∧ players (cur w') = players (cur w)) w.
Proof.
  intros Hs [Hc Hv] Hk. apply wp_execute; intros Hf; [done|].
  assert (links_known (run_stmt s (cur w)).1) by by apply (links_known_link s _ mid pid).
  split.
  - split; simpl; [done|]. by destruct autocommit.
  - simpl. by destruct Hs as [(team & reg & ->)|(team & ->)].
Qed.

Lemma links_known_link_player (mid team : string) (registry name : json) :
  steps (keeps (both links_known)) (link_player mid team registry name).
Proof.
  apply steps_keeps_wp. intros w Hw. unfold link_player.
  apply wp_bind, wp_lift. destruct (py_get_key registry name) as [rid|e]; [|done].
  apply wp_bind. eapply wp_mono; [by apply links_known_resolve_id| |done].
  simpl. intros [pid|] w1 (Hw1 & _ & Hid); [|done].
  destruct (negb (pid =? 0)); [|done].
  apply wp_try, wp_bind.
  eapply wp_mono; [apply (links_known_execute _ mid pid); eauto| |].
  - by intros ? w2 [Hw2 _].
  - by intros ? w2 [Hw2 _].
Qed.

Lemma links_known_link_seen (mid : string) (pid : option Z) (pname team : json) (w : world) :
  both links_known w -> (∀ id, pid = Some id -> knows id (cur w)) ->
  wp (link_seen_player mid pid pname team)
    (fun _ w' => both links_known w' ∧ players (cur w') = players (cur w))
    (fun _ _ => False) w.
Proof.
  intros Hw Hk. unfold link_seen_player. destruct pid as [id|]; [|done].
  destruct (negb (id =? 0) && truthy pname); [|done].
  apply wp_try, wp_bind.
  eapply wp_mono; [apply (links_known_execute _ mid id); eauto| |]; by simpl.
Qed.

Lemma knows_players_eq (pid : Z) (d d' : db) :
  players d' = players d -> knows pid d -> knows pid d'.
Proof. intros Hp (k & p & Hk & Hid). exists k, p. by rewrite Hp. Qed.

(** [wp_step], looking into the result of a pure step. *)
Ltac wp_pure :=
  lazymatch goal with
  | |- wp (lift ?r ≫= _) _ _ _ =>
      apply wp_bind, wp_lift; destruct r eqn:?; [|try done]
  | |- wp (lift ?r) _ _ _ => apply wp_lift; destruct r eqn:?; try done
  end.

Lemma links_known_read_wicket (registry wickets : json) :
  steps (keeps (both links_known)) (read_wicket registry wickets).
Proof.
  pose proof links_known_run. pose proof links_known_resolve.
  unfold read_wicket. steps_auto.
Qed.

Lemma links_known_read_delivery (c : delivery_ctx) (delivery : json) :
  steps (keeps (both links_known)) (read_delivery c delivery).
Proof.
  apply steps_keeps_wp. intros w Hw. unfold read_delivery.
  do 4 wp_pure.
  apply wp_bind. eapply wp_mono; [by apply links_known_resolve_id| |done].
  simpl. intros batsman_id w1 (Hw1 & _ & Hid1).
  wp_pure.
  apply wp_bind. eapply wp_mono; [by apply links_known_resolve_id| |done].
  simpl. intros non_striker_id w2 (Hw2 & Hm2 & Hid2).
  wp_pure.
  apply wp_bind. eapply wp_mono; [by apply links_known_resolve_id| |done].
  simpl. intros bowler_id w3 (Hw3 & Hm3 & Hid3).
  apply wp_bind. eapply wp_mono; [apply links_known_link_seen; [done|]| |done].
  { intros id ->. auto. }
  simpl. intros ? w4 (Hw4 & Hp4).
  apply wp_bind. eapply wp_mono; [apply links_known_link_seen; [done|]| |done].
  { intros id ->. apply (knows_players_eq _ _ _ Hp4). auto. }
  simpl. intros ? w5 (Hw5 & Hp5).
  apply wp_bind. eapply wp_mono; [apply links_known_link_seen; [done|]| |done].
  { intros id ->. apply (knows_players_eq _ _ _ Hp5), (knows_players_eq _ _ _ Hp4). auto. }
  simpl. intros ? w6 (Hw6 & _).
  apply (wp_keeps (both links_known)); [|done|done|done].
  pose proof links_known_read_wicket. steps_auto.
Qed.

Lemma links_known_process_json_file (mid : string) (content : option json) :
  steps (keeps (both links_known)) (process_json_file mid content).
Proof.
  pose proof links_known_run. pose proof links_known_resolve.
  pose proof links_known_link_player. pose proof links_known_read_delivery.
  unfold process_json_file, persist_header, process_body, process_players,
    process_officials, insert_officials, process_deliveries, process_innings,
    process_over, process_delivery, count_delivery, persist_aggregates,
    write_aggregates, persist_innings.
  steps_auto.
Qed.

(** X8.  The foreign key of [match_players] is kept by the ingestion of a
    file, whatever fails on the way and under either commit mode: when
    every roster link of the connection's image and of the committed image
    refers to a stored player, the same holds of both images afterwards.
    The loader only links identifiers that [get_or_create_player] has just
    returned, and those are stored. *)
Theorem links_reference_players (mid : string) (content : option json) (w : world) :
  links_known (cur w) -> links_known (saved w) ->
  let w' := (process_json_file mid content w).1 in
  links_known (cur w') ∧ links_known (saved w').
Proof.
  intros Hc Hs. by apply (links_known_process_json_file mid content w).
Qed.

(** ** The shape of the stored deliveries *)

Lemma find_extra_none (v : json) (kinds : list string) (ev : option Z) :
  find_extra v kinds = Ret (None, ev) -> ev = Some 0.
Proof.
  induction kinds as [|k kinds IH]; simpl; [congruence|].
  destruct (py_contains k v) as [[|]|]; simpl; try done.
  destruct (py_item v k) as [x|]; simpl; [|done].
  by destruct (safe_int x None).
Qed.

Lemma read_delivery_shape (c : delivery_ctx) (delivery : json) (w w1 : world)
    (f : delivery_fields) :
  read_delivery c delivery w = (w1, Ret f) ->
  is_Some (f_runs_batsman f) ∧ is_Some (f_runs_extras f) ∧
  ((0 <? f_n_wickets f) = false -> f_wicket f = no_wicket) ∧
  (f_extra_type f = None -> f_extra_value f = Some 0).
Proof.
  intros H. unfold read_delivery in H. run_inv H. simpl.
  match goal with
  | H : py_add ?x ?y = Ret _ |- _ => destruct x, y; try done; clear H
  end.
  split; [done|split; [done|split]].
  - intros Hn.
    match goal with
    | H : (if 0 <? ?n then _ else _) _ = _ |- _ =>
        rewrite Hn in H; by apply mret_inv in H as [-> _]
    end.
  - match goal with
    | H : (if truthy ?v then _ else _) = Ret ?x |- _ =>
        destruct x as [k ev]; simpl; intros ->; destruct (truthy v);
          [by eapply find_extra_none|by injection H]
    end.
Qed.

Lemma rows_shaped_run (s : stmt) (d : db) :
  not_delivery (stmt_op s) = true -> rows_shaped d -> rows_shaped (run_stmt s d).1.
Proof.
  intros Hs Hd. unfold rows_shaped. rewrite run_stmt_deliveries; [done|].
  by destruct s.
Qed.

Lemma rows_shaped_read_delivery (c : delivery_ctx) (delivery : json) :
  steps (keeps (both rows_shaped)) (read_delivery c delivery).
Proof.
  pose proof rows_shaped_run.
  unfold read_delivery, read_wicket, link_seen_player, get_or_create_player.
  steps_auto.
Qed.

Lemma both_ext (P : db -> Prop) (w w' : world) :
  cur w' = cur w -> saved w' = saved w -> both P w -> both P w'.
Proof. intros Hc Hs [? ?]. split; by rewrite ?Hc, ?Hs. Qed.

Lemma rows_shaped_process_delivery (c : delivery_ctx) (ball_idx : Z) (delivery : json) :
  1 <= ball_idx ->
  steps (keeps (both rows_shaped)) (process_delivery c ball_idx delivery).
Proof.
  intros Hi w Hw. rewrite process_delivery_run.
  pose proof (rows_shaped_read_delivery c delivery w Hw) as Hw1.
  destruct (read_delivery c delivery w) as [w1 [f|e]] eqn:Hread; simpl in Hw1.
  - destruct (read_delivery_shape _ _ _ _ _ Hread) as (Hb & He & Hwk & Hx).
    destruct (f_runs_total f) as [runs_total|].
    + simpl. destruct (fault _ OpDelivery).
      * destruct (delivery_failed_run StorageError
                    (ticked (counted (c_innings_idx c) f runs_total w1)))
          as (w' & -> & Hc & Hs & _). simpl. by apply (both_ext _ w1).
      * assert (row_shape (delivery_row_of c ball_idx
                  (ball_sequence (loc (counted (c_innings_idx c) f runs_total w1)))
                  f runs_total)) as Hrow.
        { refine (conj Hb (conj He (conj Hi (conj _ Hx)))). simpl.
          intros Hn. by rewrite (Hwk Hn). }
        destruct Hw1 as [Hc Hs]. simpl.
        assert (Forall row_shape (deliveries (cur w1) ++ [delivery_row_of c ball_idx
                  (ball_sequence (loc (counted (c_innings_idx c) f runs_total w1)))
                  f runs_total])) by (apply Forall_app; split; [done|by constructor]).
        split; unfold rows_shaped; simpl; [done|]. by destruct autocommit.
    + destruct (delivery_failed_run TypeError w1) as (w' & -> & Hc & Hs & _).
      simpl. by apply (both_ext _ w1).
  - destruct (delivery_failed_run e w1) as (w' & -> & Hc & Hs & _).
    simpl. by apply (both_ext _ w1).
Qed.

Lemma keeps_for_each_from_ge {A} (I : world -> Prop) (i0 : Z) (l : list A)
    (body : Z -> A -> M unit) :
  (∀ i x, i0 <= i -> steps (keeps I) (body i x)) ->
  steps (keeps I) (for_each_from i0 l body).
Proof.
  intros Hb. revert i0 Hb. induction l as [|x l IH]; intros i0 Hb; simpl.
  - apply steps_ret, _.
  - apply steps_bind; [apply _|apply Hb; lia|]. intros _. apply IH.
    intros i y Hi. apply Hb. lia.
Qed.

Lemma rows_shaped_deliveries_of_over (c : delivery_ctx) (balls : list json) :
  steps (keeps (both rows_shaped)) (for_each_from 1 balls (process_delivery c)).
Proof.
  apply keeps_for_each_from_ge. intros i x Hi. by apply rows_shaped_process_delivery.
Qed.

Lemma rows_shaped_process_json_file (mid : string) (content : option json) :
  steps (keeps (both rows_shaped)) (process_json_file mid content).
Proof.
  pose proof rows_shaped_run. pose proof rows_shaped_deliveries_of_over.
  unfold process_json_file, persist_header, process_body, process_players, link_player,
    process_officials, insert_officials, process_deliveries, process_innings,
    process_over, persist_aggregates, write_aggregates, persist_innings,
    get_or_create_player.
  steps_auto.
Qed.

(** X9.  Every delivery row the loader stores has the shape [row_shape]:
    when the rows of both images have it before a file is ingested they
    have it afterwards, whatever fails on the way.  In particular no row
    is stored with a NULL [runs_batsman] or [runs_extras] (a delivery whose
    runs do not parse is skipped), [ball_in_over] counts from 1, a row
    that is no wicket has no dismissal column set, and a row without an
    extra kind has the extra value 0. *)
Theorem stored_deliveries_shape (mid : string) (content : option json) (w : world) :
  rows_shaped (cur w) -> rows_shaped (saved w) ->
  let w' := (process_json_file mid content w).1 in
  rows_shaped (cur w') ∧ rows_shaped (saved w').
Proof.
  intros Hc Hs. by apply (rows_shaped_process_json_file mid content w).
Qed.

(** ** The counts of a walk *)

Lemma steps_mono {A} (R R' : relation world) (c : M A) :
  (∀ w w', R w w' -> R' w w') -> steps R c -> steps R' c.
Proof. intros HR Hc w. apply HR, Hc. Qed.

(** A delivery never raises: it adds one row and one to the count of
    deliveries, or one to the count of errors. *)
Lemma process_delivery_tally (c : delivery_ctx) (ball_idx : Z) (delivery : json) (w : world) :
  ∃ w', process_delivery c ball_idx delivery w = (w', Ret tt) ∧
    ((∃ row, deliveries (cur w') = (deliveries (cur w) ++ [row])%list ∧
        total_deliveries (loc w') = total_deliveries (loc w) + 1 ∧
        delivery_errors (loc w') = delivery_errors (loc w)) ∨
     (deliveries (cur w') = deliveries (cur w) ∧
      total_deliveries (loc w') = total_deliveries (loc w) ∧
      delivery_errors (loc w') = delivery_errors (loc w) + 1)).
Proof.
  rewrite process_delivery_run.
  pose proof (calm_read_delivery c delivery w) as Hcalm.
  destruct (read_delivery c delivery w) as [w1 [f|e]]; simpl in Hcalm;
    destruct Hcalm as [Hd Hl].
  - destruct (f_runs_total f) as [runs_total|].
    + simpl. destruct (fault _ OpDelivery).
      * destruct (delivery_failed_run StorageError
                    (ticked (counted (c_innings_idx c) f runs_total w1)))
          as (w' & Hrun & Hc & _ & _ & Hl').
        exists w'. split; [done|]. right. rewrite Hc, Hl'. simpl. by rewrite Hd, Hl.
      * eexists. split; [done|]. left. eexists. simpl. by rewrite Hd, Hl.
    + destruct (delivery_failed_run TypeError w1) as (w' & Hrun & Hc & _ & _ & Hl').
      exists w'. split; [done|]. right. rewrite Hc, Hl'. simpl. by rewrite Hd, Hl.
  - destruct (delivery_failed_run e w1) as (w' & Hrun & Hc & _ & _ & Hl').
    exists w'. split; [done|]. right. rewrite Hc, Hl'. simpl. by rewrite Hd, Hl.
Qed.

(** The deliveries of an over: the loop returns, and each delivery is
    accounted for. *)
Lemma deliveries_of_over_accounted (c : delivery_ctx) (balls : list json) (i : Z) (w : world) :
  ∃ w', for_each_from i balls (process_delivery c) w = (w', Ret tt) ∧
    accounted (length balls) w w'.
Proof.
  revert i w. induction balls as [|x balls IH]; intros i w; simpl.
  - exists w. split; [done|]. exists []. simpl. rewrite app_nil_r.
    repeat split; try done; lia.
  - destruct (process_delivery_tally c i x w) as (w1 & Hrun & Hcase).
    destruct (IH (i + 1) w1) as (w' & Hloop & rows & Hlen & Hd & Ht & He).
    exists w'. split; [by rewrite (bind_ret_run _ _ _ _ _ Hrun)|].
    destruct Hcase as [(row & Hd1 & Ht1 & He1)|(Hd1 & Ht1 & He1)].
    + exists (row :: rows). rewrite Hd, Hd1, Ht, Ht1, He, He1, <- app_assoc.
      simpl length. repeat split; try done; lia.
    + exists rows. rewrite Hd, Hd1, Ht, Ht1, He, He1.
      simpl length. repeat split; try done; lia.
Qed.

Lemma wp_returns {A} (c : M A) (Q : A -> world -> Prop) (w : world) :
  wp c Q (fun _ _ => False) w -> ∃ w' a, c w = (w', Ret a) ∧ Q a w'.
Proof. unfold wp. destruct (c w) as [w' [a|e]]; [eauto|done]. Qed.

(** X10.  An over that is a dict and whose number can be read.  When its
    deliveries can be iterated, the over returns and each of its [n]
    deliveries is accounted for: some were stored, in order, each adding
    one to [total_deliveries], and each of the others added one to
    [delivery_errors] -- none is lost and none stops the over.  When they
    cannot (a number in the place of the list), the over raises a
    [TypeError] before it visits a delivery, outside the [try] of the
    deliveries: nothing is stored or counted, and the exception leaves
    the walk. *)
Theorem every_delivery_accounted (mid : string) (registry : json) (idx : Z)
    (batting bowling : json) (d : list (string * json)) (n : Z) (w : world) :
  safe_int (default JNull (dict_get d "over")) None = Ret (Some n) ->
  match py_iter (default (JList []) (dict_get d "deliveries")) with
  | Ret balls =>
      ∃ w' rows, process_over mid registry idx batting bowling (JDict d) w = (w', Ret tt) ∧
        (length rows <= length balls)%nat ∧
        deliveries (cur w') = (deliveries (cur w) ++ rows)%list ∧
        total_deliveries (loc w') = total_deliveries (loc w) + Z.of_nat (length rows) ∧
        delivery_errors (loc w') =
          delivery_errors (loc w) + Z.of_nat (length balls - length rows)
  | Raise e =>
      e = TypeError ∧
      ∃ w', process_over mid registry idx batting bowling (JDict d) w = (w', Raise e) ∧
        deliveries (cur w') = deliveries (cur w) ∧
        total_deliveries (loc w') = total_deliveries (loc w) ∧
        delivery_errors (loc w') = delivery_errors (loc w)
  end.
Proof.
  intros Hn.
  destruct (py_iter (default (JList []) (dict_get d "deliveries"))) as [balls|e] eqn:Hballs.
  - enough (wp (process_over mid registry idx batting bowling (JDict d))
              (fun _ w' => accounted (length balls) w w') (fun _ _ => False) w) as H.
    { apply wp_returns in H as (w' & [] & Hrun & rows & H). by exists w', rows. }
    unfold process_over.
    apply wp_bind, wp_lift. simpl.
    apply wp_bind, wp_lift. rewrite Hn.
    apply wp_bind, wp_lift. simpl.
    apply wp_bind, wp_modify_loc.
    apply wp_bind, wp_lift. rewrite Hballs.
    match goal with
    | |- wp (for_each_from 1 balls (process_delivery ?c)) _ _ ?v =>
        destruct (deliveries_of_over_accounted c balls 1 v) as (w' & Hrun & Hacc);
          unfold wp; rewrite Hrun
    end.
    exact Hacc.
  - split.
    { revert Hballs. by destruct (default (JList []) (dict_get d "deliveries")); intros [= <-]. }
    unfold process_over, mbind, M_bind, lift, modify_loc. simpl.
    rewrite Hn, Hballs. simpl. by eexists.
Qed.

#[local] Instance tallying_preorder : PreOrder tallying.
Proof.
  split.
  - intros w. exists []. rewrite app_nil_r. simpl. split; [done|lia].
  - intros w1 w2 w3 (r1 & Hd1 & Ht1) (r2 & Hd2 & Ht2).
    exists (r1 ++ r2)%list. rewrite Hd2, Hd1, Ht2, Ht1, length_app, app_assoc.
    split; [done|lia].
Qed.

Lemma tallying_calm (w w' : world) : calm w w' -> tallying w w'.
Proof.
  intros [Hd Hl]. exists []. rewrite app_nil_r, Hd, Hl. simpl. split; [done|lia].
Qed.

Lemma tallying_modify_loc (f : locals -> locals) :
  (∀ l, total_deliveries (f l) = total_deliveries l) -> steps tallying (modify_loc f).
Proof.
  intros Hf w. exists []. simpl. rewrite app_nil_r, Hf. split; [done|lia].
Qed.

Lemma tallying_process_delivery (c : delivery_ctx) (ball_idx : Z) (delivery : json) :
  steps tallying (process_delivery c ball_idx delivery).
Proof.
  intros w. destruct (process_delivery_tally c ball_idx delivery w)
    as (w' & -> & [(row & Hd & Ht & _)|(Hd & Ht & _)]); simpl.
  - exists [row]. by rewrite Hd, Ht.
  - exists []. rewrite app_nil_r, Hd, Ht. simpl. split; [done|lia].
Qed.

Lemma tallying_process_innings (mid : string) (registry team1 team2 : json) (i : Z)
    (innings : json) :
  steps tallying (process_innings mid registry team1 team2 i innings).
Proof.
  pose proof tallying_process_delivery.
  unfold process_innings, process_over. steps_auto; by apply tallying_modify_loc.
Qed.

(** X11.  The count the loader reports as processed is the number of rows
    the walk stored: when the innings walk ends, by returning or by
    raising, the deliveries table of the connection is what it was
    followed by new rows, and [total_deliveries] is the number of those
    rows. *)
Theorem processed_count_is_rows_stored (mid : string)
    (registry team1 team2 innings_list : json) (w : world) :
  let w' := (process_deliveries mid registry team1 team2 innings_list w).1 in
  ∃ rows, deliveries (cur w') = (deliveries (cur w) ++ rows)%list ∧
    total_deliveries (loc w') = Z.of_nat (length rows).
Proof.
  intros w'. subst w'. unfold process_deliveries.
  unfold mbind at 1, M_bind at 1, modify_loc at 1.
  unfold mbind at 1, M_bind at 1, modify_loc at 1.
  unfold mbind at 1, M_bind at 1, modify_loc at 1.
  match goal with
  | |- context [(?c ≫= ?k) ?v] =>
      assert (steps tallying (c ≫= k)) as Hsteps;
        [|destruct (Hsteps v) as (rows & Hd & Ht); by exists rows]
  end.
  pose proof tallying_process_innings. steps_auto.
Qed.

(** ** A file reported successful *)

Lemma wp_any {A} (c : M A) (w : world) : wp c (fun _ _ => True) (fun _ _ => True) w.
Proof. unfold wp. by destruct (c w) as [w' [a|e]]. Qed.

Lemma has_match_run (mid : string) (row : match_row) (s : stmt) (d : db) :
  not_match (stmt_op s) = true -> has_match mid row d -> has_match mid row (run_stmt s d).1.
Proof.
  intros Hs Hd. destruct s; try done. unfold has_match. simpl.
  unfold upsert_player. by destruct (players d !! index_key player_name).
Qed.

Lemma has_match_process_body (mid : string) (row : match_row) (match_id : string)
    (h : header) :
  steps (keeps (both (has_match mid row))) (process_body match_id h).
Proof.
  pose proof (has_match_run mid row).
  unfold process_body, process_players, link_player, process_officials, insert_officials,
    process_deliveries, process_innings, process_over, process_delivery, read_delivery,
    read_wicket, link_seen_player, count_delivery, get_or_create_player.
  steps_auto.
Qed.

Lemma has_match_persist_aggregates (mid : string) (row : match_row) (match_id : string)
    (bpo : option Z) :
  steps (keeps (both (has_match mid row))) (persist_aggregates match_id bpo).
Proof.
  pose proof (has_match_run mid row).
  unfold persist_aggregates, write_aggregates, persist_innings. steps_auto.
Qed.

(** The header that returns [True] has stored and committed the row. *)
Lemma persist_header_true (mid : string) (row : match_row) (w : world) :
  wp (persist_header mid row)
    (fun ok w' => ok = true -> both (has_match mid row) w')
    (fun _ _ => True) w.
Proof.
  unfold persist_header. repeat wp_step; simpl; try done.
  intros _. split; unfold has_match; simpl; by rewrite lookup_insert_eq.
Qed.

(** The aggregates that return [True] end on a commit. *)
Lemma persist_aggregates_true (mid : string) (bpo : option Z) (w : world) :
  wp (persist_aggregates mid bpo)
    (fun ok w' => ok = true -> saved w' = cur w')
    (fun _ _ => True) w.
Proof.
  unfold persist_aggregates, write_aggregates.
  apply wp_try, wp_bind, wp_bind, wp_get_loc, wp_bind.
  eapply wp_mono; [apply wp_any| |].
  - intros ? w1 _. apply wp_commit; intros Hf.
    + simpl. repeat wp_step; done.
    + repeat wp_step; done.
  - intros e w1 _. repeat wp_step; done.
Qed.

(** X12.  A file that [process_json_file] reports as successful was read
    and is stored and committed: its header was parsed, the match row read
    from it is in the matches table under the file's match id, and the
    committed image equals the connection's image, so nothing of the file
    is left pending -- under either commit mode and whatever failed in the
    roster, the officials or single deliveries. *)
Theorem success_is_committed (mid : string) (content : option json) (w w' : world) :
  process_json_file mid content w = (w', Ret true) ->
  saved w' = cur w' ∧
  ∃ match_data h, content = Some match_data ∧ read_header match_data = Ret h ∧
    matches (cur w') !! index_key mid = Some (h_row h).
Proof.
  intros Hfile.
  enough (wp (process_json_file mid content)
            (fun ok v => ok = true ->
               saved v = cur v ∧
               ∃ match_data h, content = Some match_data ∧
                 read_header match_data = Ret h ∧
                 matches (cur v) !! index_key mid = Some (h_row h))
            (fun _ _ => True) w) as H
    by exact (wp_ret_inv _ _ _ _ _ _ H Hfile eq_refl).
  clear Hfile. unfold process_json_file.
  apply wp_bind, wp_modify_loc, wp_bind, wp_print.
  destruct content as [md|]; [|by repeat wp_step].
  apply wp_bind, wp_lift. destruct (read_header md) as [h|e] eqn:Hh; [|done].
  apply wp_bind. eapply wp_mono; [apply persist_header_true| |done].
  intros [|] w1 Hm; [|by apply wp_ret]. specialize (Hm eq_refl).
  apply wp_bind.
  apply (wp_keeps (both (has_match mid (h_row h))));
    [apply has_match_process_body|done| |done].
  intros [] w2 Hw2. apply wp_run; [|done].
  intros w3 ok Hrun ->. split.
  - exact (wp_ret_inv _ _ _ _ _ _
             (persist_aggregates_true mid (h_balls_per_over h) w2) Hrun eq_refl).
  - pose proof (has_match_persist_aggregates mid (h_row h) mid (h_balls_per_over h)
                  w2 Hw2) as [H3 _].
    rewrite Hrun in H3. by exists md, h.
Qed.

(** ** The aggregate rows of a successful file *)

#[local] Instance same_keys_preorder : PreOrder same_keys.
Proof.
  split; [by intros w|]. intros w1 w2 w3 H12 H23. unfold same_keys in *. congruence.
Qed.

Lemma same_keys_loc (w w' : world) : loc w' = loc w -> same_keys w w'.
Proof. unfold same_keys. by intros ->. Qed.

Lemma same_keys_execute (s : stmt) : steps same_keys (execute s).
Proof.
  intros w. apply same_keys_loc. unfold execute.
  destruct (fault _ _); [done|]. by destruct (run_stmt s (cur w)).
Qed.

Lemma same_keys_commit : steps same_keys commit.
Proof. intros w. apply same_keys_loc. unfold commit. by destruct (fault _ _). Qed.

Lemma same_keys_print (entry : log_entry) : steps same_keys (print entry).
Proof. by intros w. Qed.

Lemma same_keys_modify_loc (f : locals -> locals) :
  (∀ l, (innings_data (f l)).*1 = (innings_data l).*1) -> steps same_keys (modify_loc f).
Proof. intros Hf w. apply Hf. Qed.

Lemma same_keys_process_over (mid : string) (registry : json) (idx : Z)
    (batting bowling over_data : json) :
  steps same_keys (process_over mid registry idx batting bowling over_data).
Proof.
  pose proof same_keys_execute. pose proof same_keys_commit. pose proof same_keys_print.
  unfold process_over, process_delivery, read_delivery, read_wicket, link_seen_player,
    count_delivery, get_or_create_player.
  steps_auto; apply same_keys_modify_loc; intros l; simpl; by rewrite ?idata_update_keys.
Qed.

(** An innings that returns has its counters under its number. *)
Lemma numbered_process_innings (mid : string) (registry team1 team2 : json) (i : Z)
    (innings : json) (w : world) :
  1 <= i -> (innings_data (loc w)).*1 = seqZ 1 (i - 1) ->
  wp (process_innings mid registry team1 team2 i innings)
    (fun _ w' => (innings_data (loc w')).*1 = seqZ 1 (i + 1 - 1))
    (fun _ _ => True) w.
Proof.
  intros Hi Hk. unfold process_innings.
  do 2 wp_pure.
  apply wp_bind, wp_modify_loc, wp_bind, wp_modify_loc.
  wp_pure.
  eapply (wp_steps same_keys);
    [apply steps_for_each; [apply _|]; intros x; apply same_keys_process_over| |done].
  intros _ w' ->. simpl.
  rewrite idata_set_keys, Hk by (rewrite Hk, elem_of_seqZ; lia).
  replace (i + 1 - 1) with ((i - 1) + 1) by lia.
  rewrite seqZ_app by lia. f_equal.
  rewrite seqZ_cons, seqZ_nil by lia. f_equal. lia.
Qed.

(** A walk that returns has counters for the innings 1, 2, ..., n of the
    file. *)
Lemma numbered_process_deliveries (mid : string) (registry team1 team2 innings_list : json)
    (w : world) :
  wp (process_deliveries mid registry team1 team2 innings_list)
    (fun _ w' => ∀ l, py_iter innings_list = Ret l ->
       (innings_data (loc w')).*1 = seqZ 1 (Z.of_nat (length l)))
    (fun _ _ => True) w.
Proof.
  unfold process_deliveries.
  apply wp_bind, wp_modify_loc, wp_bind, wp_modify_loc, wp_bind, wp_modify_loc.
  wp_pure.
  apply (wp_for_each_from (fun i v => 1 <= i ∧ (innings_data (loc v)).*1 = seqZ 1 (i - 1))).
  - done.
  - intros i x v _ _ [Hi Hk].
    eapply wp_mono; [by apply numbered_process_innings| |done].
    simpl. intros _ v' Hv'. split; [lia|done].
  - intros v [_ Hv] l' [= <-]. rewrite Hv. f_equal. lia.
Qed.

(** An aggregate that returns has stored its row; the locals and the
    other innings rows are as they were. *)
Lemma persist_innings_inv (mid : string) (bpo : option Z) (n : Z) (a : innings_acc)
    (w w' : world) :
  persist_innings mid bpo (n, a) w = (w', Ret tt) ->
  ∃ k, bpo = Some k ∧ k ≠ 0 ∧ loc w' = loc w ∧
    innings (cur w') = <[(index_key mid, n) := aggregate_row k a]> (innings (cur w)).
Proof.
  unfold persist_innings. destruct bpo as [k|]; [|done].
  destruct (k =? 0) eqn:Hk; [done|]. apply Z.eqb_neq in Hk.
  unfold mbind, M_bind, execute. destruct (fault _ _); [done|]. simpl.
  intros [= <-]. by exists k.
Qed.

Lemma persist_all_innings (mid : string) (bpo : option Z) (l : list (Z * innings_acc))
    (w w' : world) :
  for_each l (persist_innings mid bpo) w = (w', Ret tt) ->
  NoDup l.*1 ->
  loc w' = loc w ∧
  ∀ n a, (n, a) ∈ l ->
    ∃ k, bpo = Some k ∧ k ≠ 0 ∧
      innings (cur w') !! (index_key mid, n) = Some (aggregate_row k a).
Proof.
  revert w. induction l as [|[n a] l IH]; intros w Hrun Hnd.
  - apply mret_inv in Hrun as [_ ->]. split; [done|]. intros n a Hin. by apply elem_of_nil in Hin.
  - cbn [for_each] in Hrun. apply bind_ret_inv in Hrun as ([] & w1 & H1 & Hrest).
    apply persist_innings_inv in H1 as (k & -> & Hk & Hl1 & Hi1).
    apply NoDup_cons in Hnd as [Hn Hnd]. simpl in Hn.
    destruct (IH w1 Hrest Hnd) as [Hl Hrows]. split; [congruence|].
    intros m b Hin. apply elem_of_cons in Hin as [[= -> ->]|Hin]; [|by apply Hrows].
    exists k. split; [done|split; [done|]].
    assert (∀ (l' : list (Z * innings_acc)) v v',
              for_each l' (persist_innings mid (Some k)) v = (v', Ret tt) ->
              n ∉ l'.*1 ->
              innings (cur v') !! (index_key mid, n) = innings (cur v) !! (index_key mid, n))
    as Hkeep.
    { clear. induction l' as [|[m c] l' IH']; intros v v' Hrun Hn.
      - by apply mret_inv in Hrun as [_ ->].
      - cbn [for_each] in Hrun. apply bind_ret_inv in Hrun as ([] & v1 & H1 & Hrest).
        apply persist_innings_inv in H1 as (k' & _ & _ & _ & Hi1).
        simpl in Hn. apply not_elem_of_cons in Hn as [Hne Hn].
        rewrite (IH' v1 v' Hrest Hn), Hi1, lookup_insert_ne; [done|congruence]. }
    rewrite (Hkeep l w1 w' Hrest Hn), Hi1. by rewrite lookup_insert_eq.
Qed.

(** The aggregates that return [True] have stored a row for every innings
    the locals hold. *)
Lemma persist_aggregates_rows (mid : string) (bpo : option Z) (w w' : world) :
  persist_aggregates mid bpo w = (w', Ret true) ->
  NoDup (innings_data (loc w)).*1 ->
  ∀ n a, (n, a) ∈ innings_data (loc w) ->
    ∃ k, bpo = Some k ∧ k ≠ 0 ∧
      innings (cur w') !! (index_key mid, n) = Some (aggregate_row k a).
Proof.
  intros Hrun Hnd.
  enough (wp (persist_aggregates mid bpo)
            (fun ok v => ok = true -> ∀ n a, (n, a) ∈ innings_data (loc w) ->
               ∃ k, bpo = Some k ∧ k ≠ 0 ∧
                 innings (cur v) !! (index_key mid, n) = Some (aggregate_row k a))
            (fun _ _ => True) w) as H
    by exact (wp_ret_inv _ _ _ _ _ _ H Hrun eq_refl).
  clear Hrun. unfold persist_aggregates, write_aggregates.
  apply wp_try, wp_bind, wp_bind, wp_get_loc, wp_bind, wp_run.
  - intros w1 [] Hloop. destruct (persist_all_innings _ _ _ _ _ Hloop Hnd) as [_ Hrows].
    apply wp_commit; intros Hf; repeat wp_step; done.
  - intros w1 e _. repeat wp_step; done.
Qed.

Lemma numbered_process_body (mid : string) (h : header) (w : world) :
  wp (process_body mid h)
    (fun _ w' => ∀ l, py_iter (h_innings_list h) = Ret l ->
       (innings_data (loc w')).*1 = seqZ 1 (Z.of_nat (length l)))
    (fun _ _ => True) w.
Proof.
  unfold process_body. do 3 wp_pure.
  apply wp_bind. eapply wp_mono; [apply wp_any| |done]. intros ? w1 _.
  apply wp_bind. eapply wp_mono; [apply wp_any| |done]. intros ? w2 _.
  apply numbered_process_deliveries.
Qed.

(** X13.  A file reported successful has an aggregate row for every one
    of its innings: when the file lists [n] innings, the innings table
    holds, under the file's match id and each number from 1 to [n], a row
    whose overs and run rate are those computed from the row's own totals
    with the file's [balls_per_over], which is then a non-zero integer. *)
Theorem successful_file_has_aggregates (mid : string) (match_data : json) (h : header)
    (l : list json) (w w' : world) :
  process_json_file mid (Some match_data) w = (w', Ret true) ->
  read_header match_data = Ret h ->
  py_iter (h_innings_list h) = Ret l ->
  ∀ i, 1 <= i <= Z.of_nat (length l) ->
    ∃ k a, h_balls_per_over h = Some k ∧ k ≠ 0 ∧
      innings (cur w') !! (index_key mid, i) = Some (aggregate_row k a).
Proof.
  intros Hfile Hh Hl.
  enough (wp (process_json_file mid (Some match_data))
            (fun ok v => ok = true -> ∀ i, 1 <= i <= Z.of_nat (length l) ->
               ∃ k a, h_balls_per_over h = Some k ∧ k ≠ 0 ∧
                 innings (cur v) !! (index_key mid, i) = Some (aggregate_row k a))
            (fun _ _ => True) w) as H
    by exact (wp_ret_inv _ _ _ _ _ _ H Hfile eq_refl).
  clear Hfile. unfold process_json_file.
  apply wp_bind, wp_modify_loc, wp_bind, wp_print.
  apply wp_bind, wp_lift. rewrite Hh.
  apply wp_bind. eapply wp_mono; [apply wp_any| |done].
  intros [|] w1 _; [|by apply wp_ret].
  apply wp_bind. eapply wp_mono; [apply numbered_process_body| |done].
  simpl. intros [] w2 Hkeys. specialize (Hkeys l Hl).
  apply wp_run; [|done]. intros w3 ok Hrun -> i Hi.
  assert (i ∈ (innings_data (loc w2)).*1) as Hin by (rewrite Hkeys, elem_of_seqZ; lia).
  apply list_elem_of_fmap in Hin as ([j a] & -> & Hin). simpl.
  destruct (persist_aggregates_rows mid (h_balls_per_over h) w2 w3 Hrun) with j a
    as (k & Hk & Hk0 & Hrow); [rewrite Hkeys; apply NoDup_seqZ|done|].
  by exists k, a.
Qed.

(** ** The tally of a batch *)

(** A file adds one to exactly one of the two counters, and [count_file]
    never raises: an exception of [process_json_file] is caught, and so is
    one of the rollback that follows. *)
Lemma count_file_returns (t : tally) (mid : string) (content : option json) (w : world) :
  ∃ w' t', count_file t mid content w = (w', Ret t') ∧
    (successful t' = successful t + 1 ∧ failed t' = failed t ∧
       (process_json_file mid content w).2 = Ret true ∨
     successful t' = successful t ∧ failed t' = failed t + 1 ∧
       (process_json_file mid content w).2 ≠ Ret true).
Proof.
  unfold count_file, try_except.
  destruct (process_json_file mid content w) as [w1 [[|]|e]] eqn:Hrun.
  - rewrite (bind_ret_run _ _ _ _ _ Hrun). eexists _, _. split; [done|]. left. by simpl.
  - rewrite (bind_ret_run _ _ _ _ _ Hrun). eexists _, _. split; [done|]. right. by simpl.
  - rewrite (bind_raise_run _ _ _ _ _ Hrun).
    unfold mbind, M_bind, print, try_except, rollback. simpl.
    destruct (fault _ OpRollback); eexists _, _; (split; [done|]); right; by simpl.
Qed.

(** X14.  The batch loop of [main] counts every file exactly once and
    never raises, whatever the files hold and whatever storage call
    fails: after [n] files the two counters have grown by [n] together,
    and neither has shrunk. *)
Theorem every_file_counted_once (files : list (string * option json)) (t : tally)
    (w : world) :
  ∃ w' t', count_files t files w = (w', Ret t') ∧
    successful t' + failed t' = successful t + failed t + Z.of_nat (length files) ∧
    successful t <= successful t' ∧ failed t <= failed t'.
Proof.
  revert t w. induction files as [|[mid content] files IH]; intros t w.
  - exists w, t. simpl. repeat split; try done; lia.
  - destruct (count_file_returns t mid content w) as (w1 & t1 & Hrun & Hcase).
    destruct (IH t1 w1) as (w' & t' & Hrest & Hsum & Hs & Hf).
    exists w', t'. split.
    + cbn [count_files]. by rewrite (bind_ret_run _ _ _ _ _ Hrun).
    + rewrite length_cons, Nat2Z.inj_succ.
      destruct Hcase as [(? & ? & _)|(? & ? & _)]; lia.
Qed.

(** ** A header that cannot be stored *)

(** X15.  When the match row cannot be stored -- its upsert or the commit
    after it raises -- and the rollback works, [process_json_file] returns
    [False] at once: nothing but the rollback follows, the log ends with
    the failure of the match, and the connection is left on its committed
    image.  That image is the old one, except that under autocommit a row
    whose upsert had succeeded before the commit raised stays stored. *)
Theorem header_failure_aborts_file (mid : string) (match_data : json) (h : header)
    (w : world) :
  read_header match_data = Ret h ->
  (∀ n, fault n OpRollback = false) ->
  fault (clock w) OpMatch = true ∨ fault (S (clock w)) OpCommit = true ->
  ∃ w', process_json_file mid (Some match_data) w = (w', Ret false) ∧
    cur w' = saved w' ∧
    (saved w' = saved w ∨
     autocommit = true ∧ fault (clock w) OpMatch = false ∧
     saved w' = set_matches <[index_key mid := h_row h]> (cur w)) ∧
    (clock w' <= clock w + 3)%nat ∧
    log w' = (log w ++ [LogProcessing mid; LogMatchFailed StorageError])%list.
Proof.
  intros Hh Hrb Hfail. rewrite process_json_file_unfold.
  unfold file_start, persist_header, try_except, mbind, M_bind, lift, execute, commit,
    rollback, print.
  rewrite Hh. simpl.
  destruct (fault (clock w) OpMatch) eqn:E1; simpl.
  - rewrite Hrb. simpl. eexists. split; [done|]. simpl.
    rewrite <- app_assoc. repeat split; auto; lia.
  - destruct Hfail as [|E2]; [done|]. rewrite E2. simpl. rewrite Hrb. simpl.
    eexists. split; [done|]. simpl. rewrite <- app_assoc.
    repeat split; auto; try lia. destruct autocommit; auto.
Qed.

(** ** An over without a number *)

Lemma raises_bind {A B} (c : M A) (f : A -> M B) :
  (∀ a, raises (f a)) -> raises (c ≫= f).
Proof.
  intros Hf w. unfold mbind, M_bind. destruct (c w) as [w1 [a|e]]; [apply Hf|eauto].
Qed.

Lemma raises_bind_lift {A B} (r : result A) (f : A -> M B) :
  (∀ a, r = Ret a -> raises (f a)) -> raises (lift r ≫= f).
Proof.
  intros Hf w. unfold mbind, M_bind, lift. destruct r as [a|e]; [by apply Hf|eauto].
Qed.

Lemma raises_for_each {A} (l : list A) (body : A -> M unit) (x : A) :
  x ∈ l -> raises (body x) -> raises (for_each l body).
Proof.
  intros Hx Hb. induction l as [|y l IH]; [by apply elem_of_nil in Hx|].
  apply elem_of_cons in Hx as [<-|Hx]; cbn [for_each].
  - intros w. destruct (Hb w) as (w' & e & Hrun). exists w', e.
    by rewrite (bind_raise_run _ _ _ _ _ Hrun).
  - apply raises_bind. intros _. by apply IH.
Qed.

Lemma raises_for_each_from {A} (i0 : Z) (l : list A) (body : Z -> A -> M unit) (x : A) :
  x ∈ l -> (∀ i, raises (body i x)) -> raises (for_each_from i0 l body).
Proof.
  intros Hx Hb. revert i0. induction l as [|y l IH]; intros i0;
    [by apply elem_of_nil in Hx|].
  apply elem_of_cons in Hx as [<-|Hx]; cbn [for_each_from].
  - intros w. destruct (Hb i0 w) as (w' & e & Hrun). exists w', e.
    by rewrite (bind_raise_run _ _ _ _ _ Hrun).
  - apply raises_bind. intros _. by apply IH.
Qed.

(** An over whose number cannot be read raises before any delivery. *)
Lemma process_over_unnumbered (mid : string) (registry : json) (idx : Z)
    (batting bowling : json) (d : list (string * json)) (w : world) :
  safe_int (default JNull (dict_get d "over")) None = Ret None ->
  process_over mid registry idx batting bowling (JDict d) w = (w, Raise TypeError).
Proof.
  intros Hbad. unfold process_over, mbind, M_bind, lift. simpl. by rewrite Hbad.
Qed.

Lemma process_body_unnumbered (mid : string) (h : header) (inns : list json)
    (di : list (string * json)) (ovs : list json) (d : list (string * json)) :
  py_iter (h_innings_list h) = Ret inns -> JDict di ∈ inns ->
  py_iter (default (JList []) (dict_get di "overs")) = Ret ovs -> JDict d ∈ ovs ->
  safe_int (default JNull (dict_get d "over")) None = Ret None ->
  raises (process_body mid h).
Proof.
  intros Hinns Hdi Hovs Hd Hbad. unfold process_body.
  do 3 (apply raises_bind; intros ?). do 2 (apply raises_bind; intros _).
  unfold process_deliveries. do 3 (apply raises_bind; intros _).
  apply raises_bind_lift. rewrite Hinns. intros ? [= <-].
  apply (raises_for_each_from _ _ _ (JDict di)); [done|]. intros i.
  unfold process_innings. simpl.
  do 2 (apply raises_bind_lift; intros ? [= <-]).
  do 2 (apply raises_bind; intros _).
  apply raises_bind_lift. rewrite Hovs. intros ? [= <-].
  apply (raises_for_each _ _ (JDict d)); [done|].
  intros w. exists w, TypeError. by apply process_over_unnumbered.
Qed.

Lemma innings_are_run (t : gmap (string * Z) innings_row) (s : stmt) (d : db) :
  not_innings (stmt_op s) = true -> innings_are t d -> innings_are t (run_stmt s d).1.
Proof.
  intros Hs Hd. unfold innings_are. rewrite run_stmt_innings; [done|]. by destruct s.
Qed.

Lemma innings_are_header_and_body (t : gmap (string * Z) innings_row) (mid : string)
    (h : header) :
  steps (keeps (both (innings_are t))) (persist_header mid (h_row h)) ∧
  steps (keeps (both (innings_are t))) (process_body mid h).
Proof.
  pose proof (innings_are_run t).
  split.
  - unfold persist_header. steps_auto.
  - unfold process_body, process_players, link_player, process_officials,
      insert_officials, process_deliveries, process_innings, process_over,
      process_delivery, read_delivery, read_wicket, link_seen_player, count_delivery,
      get_or_create_player.
    steps_auto.
Qed.

(** X16.  An over whose number cannot be read -- the key [over] is missing
    or holds no number -- fails the whole file: [process_json_file] never
    returns [True] on a file with such an over, [main] counts the file as
    failed, and no innings row is written for it, the innings table of
    both images staying as it was. *)
Theorem unnumbered_over_fails_file (mid : string) (match_data : json) (h : header)
    (inns : list json) (di : list (string * json)) (ovs : list json)
    (d : list (string * json)) (w : world) :
  read_header match_data = Ret h ->
  py_iter (h_innings_list h) = Ret inns -> JDict di ∈ inns ->
  py_iter (default (JList []) (dict_get di "overs")) = Ret ovs -> JDict d ∈ ovs ->
  safe_int (default JNull (dict_get d "over")) None = Ret None ->
  let r := process_json_file mid (Some match_data) w in
  r.2 ≠ Ret true ∧
  (∀ t, ∃ w', count_file t mid (Some match_data) w =
               (w', Ret {| successful := successful t; failed := failed t + 1 |})) ∧
  (innings (saved w) = innings (cur w) ->
   innings (cur r.1) = innings (cur w) ∧ innings (saved r.1) = innings (cur w)).
Proof.
  intros Hh Hinns Hdi Hovs Hd Hbad r. subst r.
  pose proof (process_body_unnumbered mid h inns di ovs d Hinns Hdi Hovs Hd Hbad) as Hbody.
  assert (wp (process_json_file mid (Some match_data))
            (fun ok v => ok = false ∧
               (innings (saved w) = innings (cur w) ->
                both (innings_are (innings (cur w))) v))
            (fun _ v => innings (saved w) = innings (cur w) ->
                both (innings_are (innings (cur w))) v) w) as H.
  { unfold process_json_file.
    apply wp_bind, wp_modify_loc, wp_bind, wp_print.
    apply wp_bind, wp_lift. rewrite Hh. cbn [cur saved clock log loc].
    match goal with |- wp _ _ _ ?v => set (w0 := v) end.
    assert (innings (saved w) = innings (cur w) ->
            both (innings_are (innings (cur w))) w0) as Hw0 by (by intros Hs; split).
    destruct (innings_are_header_and_body (innings (cur w)) mid h) as [Hhd Hbd].
    apply wp_bind. apply wp_run.
    - intros w1 ok Hrun.
      assert (innings (saved w) = innings (cur w) ->
              both (innings_are (innings (cur w))) w1) as Hw1.
      { intros Hs. pose proof (Hhd w0 (Hw0 Hs)) as Hk. by rewrite Hrun in Hk. }
      destruct ok; [|by apply wp_ret].
      apply wp_bind, wp_run.
      + intros w2 [] Hrun2. destruct (Hbody w1) as (? & ? & Hr). congruence.
      + intros w2 e Hrun2 Hs. pose proof (Hbd w1 (Hw1 Hs)) as Hk. by rewrite Hrun2 in Hk.
    - intros w1 e Hrun Hs. pose proof (Hhd w0 (Hw0 Hs)) as Hk. by rewrite Hrun in Hk. }
  unfold wp in H. split; [|split].
  - destruct (process_json_file mid (Some match_data) w) as [w' [ok|e]]; [|done].
    destruct H as [-> _]. done.
  - intros t. destruct (count_file_returns t mid (Some match_data) w)
      as (w' & t' & Hrun & [(_ & _ & Htrue)|(Hs & Hf & _)]).
    + destruct (process_json_file mid (Some match_data) w) as [w1 [ok|e]]; [|done].
      destruct H as [-> _]. done.
    + exists w'. rewrite Hrun. destruct t'. simpl in *. by subst.
  - intros Hs. destruct (process_json_file mid (Some match_data) w) as [w' [ok|e]];
      simpl; [destruct H as [_ H]|]; by destruct (H Hs).
Qed.

(** ** Balls per over that cannot be divided by *)

(** X17.  The aggregate step divides by the file's [balls_per_over] once
    per innings.  With no innings there is nothing to divide and the step
    succeeds on its commit; with at least one innings, a [balls_per_over]
    that is zero or was not a number makes the first division raise: no
    innings row is written, the step rolls back and the file returns
    [False], the log naming the division by zero or the type error. *)
Theorem unusable_balls_per_over_fails_file (mid : string) (bpo : option Z) (w : world) :
  (innings_data (loc w) = [] -> fault (clock w) OpCommit = false ->
   ∃ w', persist_aggregates mid bpo w = (w', Ret true) ∧
     cur w' = cur w ∧ saved w' = cur w) ∧
  (innings_data (loc w) ≠ [] -> bpo = None ∨ bpo = Some 0 ->
   fault (clock w) OpRollback = false ->
   ∃ w', persist_aggregates mid bpo w = (w', Ret false) ∧
     cur w' = saved w ∧ saved w' = saved w ∧ clock w' = S (clock w) ∧
     log w' = (log w ++ [LogDeliveriesFailed
                           (match bpo with
                            | Some _ => ZeroDivisionError
                            | None => TypeError
                            end)])%list).
Proof.
  split.
  - intros Hnil Hc.
    unfold persist_aggregates, write_aggregates, try_except, mbind, M_bind, get_loc,
      commit, print. rewrite Hnil. simpl. rewrite Hc. simpl. rewrite Hnil. simpl.
    destruct (0 <? delivery_errors (loc w)); eexists; (split; [done|]); by simpl.
  - intros Hne Hbad Hrb.
    destruct (innings_data (loc w)) as [|[n a] l] eqn:Hl; [done|].
    unfold persist_aggregates, write_aggregates, try_except, mbind, M_bind, get_loc,
      rollback, print. rewrite Hl. simpl.
    destruct Hbad as [-> | ->]; simpl; rewrite Hrb; eexists; (split; [done|]); by simpl.
Qed.

(** ** The officials of a match *)

Lemma officials_loop_spec (mid role : string) (names : list json) (w0 w : world)
    (rows : list official_row) :
  officials_added rows w0 w ->
  wp (for_each names (fun name => execute (InsertOfficial mid role name);; mret tt))
    (fun _ w' => officials_added (rows ++ official_rows mid role names) w0 w')
    (fun _ w' => officials_failed w0 w') w.
Proof.
  revert w rows. induction names as [|name names IH]; intros w rows (Ho & Hl & Hs).
  - apply wp_ret. unfold official_rows. simpl. by rewrite app_nil_r.
  - cbn [for_each]. apply wp_bind, wp_bind, wp_execute; intros Hf.
    + by split.
    + apply wp_ret.
      replace (rows ++ official_rows mid role (name :: names))%list
        with ((rows ++ [{| o_match_id := mid; o_role := role; o_name := name |}]) ++
              official_rows mid role names)%list by by rewrite <- app_assoc.
      apply IH. split; [|split]; simpl.
      * by rewrite Ho, <- app_assoc.
      * done.
      * intros Ha. rewrite Ha. auto.
Qed.

Lemma insert_officials_spec (mid : string) (officials : json) (key role : string)
    (w0 w : world) (rows : list official_row) :
  officials_added rows w0 w ->
  wp (insert_officials mid officials key role)
    (fun _ w' => ∃ names, official_names officials key = Ret names ∧
       officials_added (rows ++ official_rows mid role names) w0 w')
    (fun _ w' => officials_failed w0 w') w.
Proof.
  intros Hw. unfold insert_officials, official_names.
  apply wp_bind, wp_lift.
  destruct (py_get officials key (JList [])) as [names|e]; [|by destruct Hw as (_ & ? & ?)].
  apply wp_bind, wp_lift. simpl.
  destruct (py_iter names) as [items|e]; [|by destruct Hw as (_ & ? & ?)].
  eapply wp_mono; [by apply officials_loop_spec| |done].
  simpl. intros _ w' Hw'. by exists items.
Qed.

(** X18.  The officials step either stores every official of the file or
    says so in the log.  When nothing is logged, the officials table of
    the connection is what it was followed by one row per listed name --
    umpires, TV umpires, reserve umpires and match referees in this order,
    each under its role -- and the step has committed.  Otherwise the step
    has logged its failure and rolled back, which without autocommit
    leaves no row of the step behind. *)
Theorem officials_in_role_order_or_rolled_back (mid : string) (info : json) (w : world) :
  (∀ n, fault n OpRollback = false) ->
  let w' := (process_officials mid info w).1 in
  (log w' = log w ∧ saved w' = cur w' ∧
   ∃ rows, all_official_rows mid info = Ret rows ∧
     match_officials (cur w') = (match_officials (cur w) ++ rows)%list) ∨
  (∃ e, log w' = (log w ++ [LogOfficialsFailed e])%list ∧ cur w' = saved w' ∧
     (autocommit = false -> saved w' = saved w)).
Proof.
  intros Hrb w'. subst w'.
  set (Q := fun (_ : unit) (v : world) =>
              (log v = log w ∧ saved v = cur v ∧
               ∃ rows, all_official_rows mid info = Ret rows ∧
                 match_officials (cur v) = (match_officials (cur w) ++ rows)%list) ∨
              (∃ e, log v = (log w ++ [LogOfficialsFailed e])%list ∧ cur v = saved v ∧
                 (autocommit = false -> saved v = saved w))).
  enough (wp (process_officials mid info) Q (fun _ _ => False) w) as H.
  { apply wp_returns in H as (v & [] & -> & H). exact H. }
  assert (∀ e v, officials_failed w v ->
            wp (rollback;; print (LogOfficialsFailed e)) Q (fun _ _ => False) v) as Hfail.
  { intros e v [Hl Hs]. apply wp_bind, wp_rollback; intros Hf; [by rewrite Hrb in Hf|].
    apply wp_print. right. exists e. simpl. by rewrite Hl. }
  unfold process_officials. apply wp_try.
  apply wp_bind, wp_lift.
  destruct (py_get info "officials" (JDict [])) as [officials|e] eqn:Hget;
    [|by apply Hfail].
  assert (officials_added [] w w) as Hw by (split; [by rewrite app_nil_r|done]).
  apply wp_bind. eapply wp_mono; [by apply insert_officials_spec| |by intros; apply Hfail].
  intros ? w1 (u & Hu & Hw1).
  apply wp_bind. eapply wp_mono; [by apply insert_officials_spec| |by intros; apply Hfail].
  intros ? w2 (tv & Htv & Hw2).
  apply wp_bind. eapply wp_mono; [by apply insert_officials_spec| |by intros; apply Hfail].
  intros ? w3 (rs & Hrs & Hw3).
  apply wp_bind. eapply wp_mono; [by apply insert_officials_spec| |by intros; apply Hfail].
  intros ? w4 (rf & Hrf & (Ho & Hl & Hs)).
  apply wp_commit; intros Hf.
  - apply Hfail. by split.
  - left. simpl. split; [done|split; [done|]]. eexists. split.
    + unfold all_official_rows. rewrite Hget. simpl. rewrite Hu, Htv, Hrs, Hrf. done.
    + by rewrite Ho, <- !app_assoc.
Qed.

(** ** The sides of an innings *)

#[local] Instance teams_kept_preorder (idx : Z) : PreOrder (teams_kept idx).
Proof.
  split.
  - intros w a Ha. by exists a.
  - intros w1 w2 w3 H12 H23 a Ha.
    destruct (H12 a Ha) as (a2 & Ha2 & ? & ? & ?).
    destruct (H23 a2 Ha2) as (a3 & Ha3 & ? & ? & ?).
    exists a3. split; [done|]. unfold same_teams. repeat split; congruence.
Qed.

Lemma teams_kept_loc (idx : Z) (w w' : world) : loc w' = loc w -> teams_kept idx w w'.
Proof. intros Hl a Ha. exists a. by rewrite Hl. Qed.

Lemma teams_kept_execute (idx : Z) (s : stmt) : steps (teams_kept idx) (execute s).
Proof.
  intros w. apply teams_kept_loc. unfold execute.
  destruct (fault _ _); [done|]. by destruct (run_stmt s (cur w)).
Qed.

Lemma teams_kept_commit (idx : Z) : steps (teams_kept idx) commit.
Proof. intros w. apply teams_kept_loc. unfold commit. by destruct (fault _ _). Qed.

Lemma teams_kept_print (idx : Z) (entry : log_entry) : steps (teams_kept idx) (print entry).
Proof. intros w. by apply teams_kept_loc. Qed.

Lemma teams_kept_update (idx i : Z) (g : innings_acc -> innings_acc) :
  (∀ a, same_teams a (g a)) ->
  steps (teams_kept idx) (modify_loc (set_innings_data (idata_update i g))).
Proof.
  intros Hg w a Ha. simpl. destruct (decide (i = idx)) as [->|Hne].
  - rewrite idata_get_update, Ha. simpl. eauto.
  - rewrite idata_get_update_ne by done. by exists a.
Qed.

Lemma teams_kept_counter (idx : Z) (f : locals -> locals) :
  (∀ l, innings_data (f l) = innings_data l) -> steps (teams_kept idx) (modify_loc f).
Proof. intros Hf w a Ha. simpl. rewrite Hf. by exists a. Qed.

Lemma teams_kept_process_over (idx : Z) (mid : string) (registry : json) (i : Z)
    (batting bowling over_data : json) :
  steps (teams_kept idx) (process_over mid registry i batting bowling over_data).
Proof.
  pose proof (teams_kept_execute idx). pose proof (teams_kept_commit idx).
  pose proof (teams_kept_print idx).
  unfold process_over, process_delivery, read_delivery, read_wicket, link_seen_player,
    count_delivery, get_or_create_player.
  steps_auto;
    first [by apply teams_kept_update|by apply teams_kept_counter].
Qed.

(** X19.  The counters of an innings name its two sides as lines 505-513
    choose them, whatever happens in its overs: the batting side is the
    innings' own team, and the bowling side is the other listed team --
    for two differently named teams and an innings of one of them, always
    the other one.  An innings whose team is neither of the two gets
    [team1] as bowling side when it is the first innings and [team2]
    otherwise. *)
Theorem bowling_team_is_the_other_side (mid : string) (registry team1 team2 : json)
    (idx : Z) (di : list (string * json)) (w : world) :
  let team := default JNull (dict_get di "team") in
  let w' := (process_innings mid registry team1 team2 idx (JDict di) w).1 in
  ∃ a, idata_get idx (innings_data (loc w')) = Some a ∧
    a_team a = team ∧ a_batting_team a = team ∧
    a_bowling_team a =
      (if idx =? 1 then (if py_eq team team1 then team2 else team1)
       else (if py_eq team team2 then team1 else team2)) ∧
    (∀ s1 s2, team1 = JStr s1 -> team2 = JStr s2 -> s1 ≠ s2 ->
       (team = team1 -> a_bowling_team a = team2) ∧
       (team = team2 -> a_bowling_team a = team1)).
Proof.
  intros team w'.
  assert (∃ a, idata_get idx (innings_data (loc w')) = Some a ∧
            a_team a = team ∧ a_batting_team a = team ∧
            a_bowling_team a =
              (if idx =? 1 then (if py_eq team team1 then team2 else team1)
               else (if py_eq team team2 then team1 else team2))) as (a & Ha & Ht & Hbat & Hbowl).
  { subst w'. unfold process_innings. simpl. fold team.
    unfold mbind at 1, M_bind at 1, lift at 1.
    unfold mbind at 1, M_bind at 1, lift at 1.
    unfold mbind at 1, M_bind at 1, modify_loc at 1.
    unfold mbind at 1, M_bind at 1, modify_loc at 1.
    match goal with
    | |- context [(?c ≫= ?k) ?v] =>
        assert (steps (teams_kept idx) (c ≫= k)) as Hsteps;
          [|destruct (Hsteps v) with
              {| a_team := team; a_total_runs := 0; a_total_balls := 0; a_wickets := 0;
                 a_max_over := 0; a_batting_team := team;
                 a_bowling_team :=
                   if idx =? 1 then (if py_eq team team1 then team2 else team1)
                   else (if py_eq team team2 then team1 else team2) |}
              as (a & Ha & Ht & Hbat & Hbowl)]
    end.
    - pose proof (teams_kept_process_over idx). steps_auto.
    - simpl. rewrite idata_get_set. by rewrite decide_True.
    - by exists a. }
  exists a. split; [done|]. split; [done|]. split; [done|]. split; [done|].
  intros s1 s2 -> -> Hne. rewrite Hbowl. split; intros Hteam; rewrite Hteam; simpl.
  - rewrite String.eqb_refl. destruct (idx =? 1); [done|].
    by rewrite (proj2 (String.eqb_neq s1 s2)).
  - rewrite String.eqb_refl. destruct (idx =? 1); [|done].
    by rewrite (proj2 (String.eqb_neq s2 s1)).
Qed.

(** ** The defaults of the header *)

Lemma safe_int_small (z : Z) (dflt : option Z) :
  Z.abs z < 2 ^ 53 -> safe_int (JInt z) dflt = Ret (Some z).
Proof.
  intros Hz. unfold safe_int, safe_int_try. simpl.
  rewrite (float_of_int_small z Hz). simpl. by rewrite Z.quot_1_r.
Qed.

(** X20.  What the header takes for a missing key: male for the gender,
    T20 for the match type, club for the team type, 20 overs, 6 balls to
    the over, the Indian Premier League for the competition; no teams, no
    winner, no margin, no date and no player of the match; and the season
    text is the decimal of the season year, or NULL when that year is
    missing, zero or not a number.  The balls per over the aggregates
    divide by are the ones stored with the match. *)
Theorem header_defaults (md info : list (string * json)) (h : header) :
  dict_get md "info" = Some (JDict info) ->
  read_header (JDict md) = Ret h ->
  let row := h_row h in
  m_gender row = default (JStr "male") (dict_get info "gender") ∧
  m_match_type row = default (JStr "T20") (dict_get info "match_type") ∧
  m_team_type row = default (JStr "club") (dict_get info "team_type") ∧
  (dict_get info "overs" = None -> m_overs row = Some 20) ∧
  (dict_get info "balls_per_over" = None -> m_balls_per_over row = Some 6) ∧
  h_balls_per_over h = m_balls_per_over row ∧
  (dict_get info "event" = None ->
   m_competition row = JStr "Indian Premier League" ∧ m_match_type_number row = None) ∧
  (dict_get info "teams" = None -> m_team1 row = JNull ∧ m_team2 row = JNull) ∧
  (dict_get info "outcome" = None -> m_winner row = JNull ∧ m_margin row = None) ∧
  (dict_get info "dates" = None -> m_start_date row = None) ∧
  (dict_get info "player_of_match" = None -> m_player_of_match row = None) ∧
  m_season row =
    (if id_truthy (m_season_year row) then pretty <$> m_season_year row else None).
Proof.
  intros Hinfo Hh. unfold read_header in Hh. simpl in Hh. rewrite Hinfo in Hh. simpl in Hh.
  repeat match type of Hh with
  | (match ?r with Ret _ => _ | Raise _ => _ end) = Ret _ =>
      destruct r eqn:?; [|discriminate]
  | (?r ≫= _) = Ret _ => destruct r eqn:?; [|discriminate]; simpl in Hh
  end.
  injection Hh as <-. simpl.
  repeat match goal with |- _ ∧ _ => split end; try done.
  1-2: intros Hn; rewrite Hn in *; cbn [default] in *;
    rewrite safe_int_small in * by reflexivity; congruence.
  all: intros Hn; rewrite Hn in *;
    repeat match goal with
    | H : ?l = Ret ?x |- _ =>
        is_var x;
        lazymatch l with
        | context [default _ None] => vm_compute in H; injection H as <-
        | safe_int JNull _ => injection H as <-
        end
    end; done.
Qed.

(** ** The schema setup *)

Lemma swp_mono {A} (c : Setup A) (Q Q' : A -> setup_world -> Prop)
    (E E' : exn -> setup_world -> Prop) (w : setup_world) :
  swp c Q E w -> (∀ a w', Q a w' -> Q' a w') -> (∀ e w', E e w' -> E' e w') ->
  swp c Q' E' w.
Proof. unfold swp. intros H HQ HE. destruct (c w) as [w' [a|e]]; auto. Qed.

Lemma swp_ret {A} (a : A) (Q : A -> setup_world -> Prop) (E : exn -> setup_world -> Prop)
    (w : setup_world) :
  Q a w -> swp (mret a) Q E w.
Proof. done. Qed.

Lemma swp_bind {A B} (c : Setup A) (f : A -> Setup B) (Q : B -> setup_world -> Prop)
    (E : exn -> setup_world -> Prop) (w : setup_world) :
  swp c (fun a w' => swp (f a) Q E w') E w -> swp (c ≫= f) Q E w.
Proof. unfold swp, mbind, Setup_bind. by destruct (c w) as [w' [a|e]]. Qed.

Lemma swp_try {A} (c : Setup A) (h : exn -> Setup A) (Q : A -> setup_world -> Prop)
    (E : exn -> setup_world -> Prop) (w : setup_world) :
  swp c Q (fun e w' => swp (h e) Q E w') w -> swp (s_try c h) Q E w.
Proof. unfold swp, s_try. by destruct (c w) as [w' [a|e]]. Qed.

Lemma swp_raise {A} (e : exn) (Q : A -> setup_world -> Prop)
    (E : exn -> setup_world -> Prop) (w : setup_world) :
  E e w -> swp (s_raise e) Q E w.
Proof. done. Qed.

Lemma swp_print (entry : setup_entry) (Q : unit -> setup_world -> Prop)
    (E : exn -> setup_world -> Prop) (w : setup_world) :
  Q tt {| srv := srv w; s_clock := s_clock w; s_log := (s_log w ++ [entry])%list |} ->
  swp (s_print entry) Q E w.
Proof. done. Qed.

Lemma swp_call (k : setup_op) (Q : unit -> setup_world -> Prop)
    (E : exn -> setup_world -> Prop) (w : setup_world) :
  (setup_fault (s_clock w) k = true -> E StorageError (s_tick w)) ->
  (setup_fault (s_clock w) k = false -> Q tt (s_tick w)) ->
  swp (s_call k) Q E w.
Proof. unfold swp, s_call. intros HE HQ. destruct (setup_fault _ _); auto. Qed.

Lemma swp_connect (cfg : list string) (Q : unit -> setup_world -> Prop)
    (E : exn -> setup_world -> Prop) (w : setup_world) :
  E StorageError (s_tick w) ->
  (setup_fault (s_clock w) SConnect = false ->
   ("database" ∈ cfg -> has_database (srv w) = true) -> Q tt (s_tick w)) ->
  swp (connect cfg) Q E w.
Proof.
  unfold swp, connect. intros HE HQ. destruct (setup_fault _ _); [done|].
  case_bool_decide as Hcfg; simpl; [|by apply HQ].
  destruct (has_database (srv w)) eqn:Hdb; simpl; [by apply HQ|done].
Qed.

Lemma swp_execute (q : ddl) (Q : unit -> setup_world -> Prop)
    (E : exn -> setup_world -> Prop) (w : setup_world) :
  E StorageError (s_tick w) ->
  (∀ s, setup_fault (s_clock w) (ddl_op q) = false -> run_ddl q (srv w) = Some s ->
     Q tt {| srv := s; s_clock := S (s_clock w); s_log := s_log w |}) ->
  swp (s_execute q) Q E w.
Proof.
  unfold swp, s_execute. intros HE HQ. destruct (setup_fault _ _); [done|].
  destruct (run_ddl q (srv w)) as [s|]; [by apply HQ|done].
Qed.

#[local] Instance server_grows_preorder : PreOrder server_grows.
Proof.
  split.
  - by intros s.
  - intros s1 s2 s3 (? & ? & ?) (? & ? & ?). split; [auto|]. split; by etrans.
Qed.

(** A statement that succeeds has its object on the server, and removes
    nothing. *)
Lemma run_ddl_created (q : ddl) (s s' : server) :
  run_ddl q s = Some s' -> created q s' ∧ server_grows s s'.
Proof.
  destruct q as [|name refs|name reads]; simpl.
  - intros [= <-]. by split.
  - case_bool_decide as Hin; [by intros [= <-]|].
    destruct (forallb _ refs); [|done]. intros [= <-]. simpl. split.
    + apply elem_of_app. right. by left.
    + split; [done|]. split; [|done]. simpl. by apply sublist_subseteq, sublist_inserts_r.
  - destruct (forallb _ reads); [|done]. intros [= <-]. simpl.
    case_bool_decide as Hin; [by split|]. split.
    + apply elem_of_app. right. by left.
    + split; [done|]. split; [done|]. simpl. by apply sublist_subseteq, sublist_inserts_r.
Qed.

Lemma created_grows (q : ddl) (s s' : server) :
  server_grows s s' -> created q s -> created q s'.
Proof. intros (Hd & Ht & Hv). destruct q; simpl; auto. Qed.

(** The table loop, when it returns, has created every table of its list;
    it removes nothing, however it ends. *)
Lemma table_loop_spec (n : nat) (l : list ddl) (i : Z) (w : setup_world) :
  swp (s_for_each_from i l (create_table n))
    (fun _ w' => server_grows (srv w) (srv w') ∧ ∀ q, q ∈ l -> created q (srv w'))
    (fun _ w' => server_grows (srv w) (srv w')) w.
Proof.
  revert i w. induction l as [|q l IH]; intros i w.
  - apply swp_ret. split; [done|]. intros q Hq. by apply elem_of_nil in Hq.
  - cbn [s_for_each_from]. apply swp_bind. unfold create_table at 1.
    apply swp_try, swp_bind, swp_execute.
    { apply swp_bind, swp_print, swp_bind, swp_call; intros _; [|apply swp_raise];
        simpl; reflexivity. }
    intros s _ Hs. destruct (run_ddl_created q _ _ Hs) as [Hq Hg].
    apply swp_bind, swp_call; intros _.
    { apply swp_bind, swp_print, swp_bind, swp_call; intros _; [|apply swp_raise];
        by simpl. }
    apply swp_print.
    eapply swp_mono; [apply IH| |].
    + simpl. intros _ w' [Hg' Hall]. split; [by etrans|].
      intros q' Hq'. apply elem_of_cons in Hq' as [->|Hq']; [|by apply Hall].
      by apply (created_grows _ _ _ Hg').
    + simpl. intros _ w' Hg'. by etrans.
Qed.

(** The view loop never raises and removes nothing. *)
Lemma view_loop_spec (n : nat) (l : list ddl) (i : Z) (w : setup_world) :
  swp (s_for_each_from i l (create_view n))
    (fun _ w' => server_grows (srv w) (srv w'))
    (fun _ _ => False) w.
Proof.
  revert i w. induction l as [|q l IH]; intros i w.
  - by apply swp_ret.
  - cbn [s_for_each_from]. apply swp_bind. unfold create_view at 1.
    apply swp_try, swp_bind, swp_execute.
    { apply swp_print. eapply swp_mono; [apply IH|by simpl|done]. }
    intros s _ Hs. destruct (run_ddl_created q _ _ Hs) as [_ Hg].
    apply swp_bind, swp_call; intros _.
    { apply swp_print. eapply swp_mono; [apply IH| |done].
      simpl. intros _ w' Hg'. by etrans. }
    apply swp_print. eapply swp_mono; [apply IH| |done].
    simpl. intros _ w' Hg'. by etrans.
Qed.

(** The setup, when it returns, has the database and every table. *)
Lemma setup_spec (w : setup_world) :
  swp ensure_database_and_schema
    (fun _ v => has_database (srv v) = true ∧
       ∀ q, q ∈ table_creation_queries -> created q (srv v))
    (fun _ _ => True) w.
Proof.
  unfold ensure_database_and_schema.
  apply swp_bind, swp_print, swp_bind, swp_try.
  apply swp_bind, swp_connect; [by apply swp_bind, swp_print, swp_raise|]. intros _ _.
  apply swp_bind, swp_call; intros _; [by apply swp_bind, swp_print, swp_raise|].
  apply swp_bind, swp_execute; [by apply swp_bind, swp_print, swp_raise|].
  intros s _ [= <-].
  apply swp_bind, swp_call; intros _; [by apply swp_bind, swp_print, swp_raise|].
  apply swp_bind, swp_call; intros _; [by apply swp_bind, swp_print, swp_raise|].
  apply swp_bind, swp_call; intros _; [by apply swp_bind, swp_print, swp_raise|].
  apply swp_print.
  apply swp_bind, swp_connect; [done|]. intros _ _.
  apply swp_bind, swp_call; intros _; [done|].
  apply swp_bind. eapply swp_mono; [apply table_loop_spec| |done].
  intros ? w1 [(Hdb & _) Hall].
  apply swp_bind. eapply swp_mono; [apply view_loop_spec| |done].
  intros ? w2 Hg.
  apply swp_bind, swp_call; intros _; [done|].
  apply swp_bind, swp_call; intros _; [done|].
  apply swp_print. simpl. destruct Hg as (Hdb2 & Ht2 & Hv2). split; [auto|].
  intros q Hq. apply (created_grows _ (srv w1)); [done|by apply Hall].
Qed.

(** X21.  [ensure_database_and_schema] returns only with the database
    and its seven tables in place: whatever calls fail, when the setup
    returns instead of raising, the database exists and every table of
    [table_creation_queries] exists on the server.  A failure of a table
    is raised again, so it cannot be passed over; a failure of a view is
    only printed, so the views may be missing. *)
Theorem setup_returns_with_all_tables (w w' : setup_world) :
  ensure_database_and_schema w = (w', Ret tt) ->
  has_database (srv w') = true ∧
  ∀ q, q ∈ table_creation_queries -> created q (srv w').
Proof.
  intros Hrun. pose proof (setup_spec w) as H. unfold swp in H. by rewrite Hrun in H.
Qed.

Lemma swp_conj {A} (c : Setup A) (Q1 Q2 : A -> setup_world -> Prop)
    (E1 E2 : exn -> setup_world -> Prop) (w : setup_world) :
  swp c Q1 E1 w -> swp c Q2 E2 w ->
  swp c (fun a v => Q1 a v ∧ Q2 a v) (fun e v => E1 e v ∧ E2 e v) w.
Proof. unfold swp. by destruct (c w) as [w' [a|e]]. Qed.

Lemma swp_impl {A} (P : Prop) (c : Setup A) (Q : A -> setup_world -> Prop)
    (E : exn -> setup_world -> Prop) (w : setup_world) :
  (P -> swp c Q E w) ->
  swp c (fun a v => P -> Q a v) (fun e v => P -> E e v) w.
Proof. unfold swp. destruct (c w) as [w' [a|e]]; auto. Qed.

Lemma forallb_known (known : list string) (refs : list string) (s : server) :
  (∀ r, r ∈ known -> r ∈ tables s) ->
  forallb (fun r => bool_decide (r ∈ known)) refs = true ->
  forallb (fun r => bool_decide (r ∈ tables s)) refs = true.
Proof.
  intros Hk. rewrite !forallb_forall. intros H r Hr.
  apply bool_decide_eq_true, Hk. by eapply bool_decide_eq_true, H.
Qed.

(** A list of tables whose foreign keys point backwards is created in
    full when no table statement and no commit raises. *)
Lemma table_loop_total (n : nat) (l : list ddl) (known : list string) (i : Z)
    (w : setup_world) :
  (∀ m, setup_fault m STable = false) -> (∀ m, setup_fault m SCommit = false) ->
  refs_before known l = true -> (∀ r, r ∈ known -> r ∈ tables (srv w)) ->
  swp (s_for_each_from i l (create_table n)) (fun _ _ => True) (fun _ _ => False) w.
Proof.
  intros Ht Hc. revert known i w. induction l as [|q l IH]; intros known i w Hord Hk.
  - by apply swp_ret.
  - destruct q as [|name refs|]; try done. simpl in Hord.
    apply andb_true_iff in Hord as [Hrefs Hord].
    cbn [s_for_each_from]. apply swp_bind. unfold create_table at 1.
    apply swp_try. unfold swp, mbind, Setup_bind, s_execute, s_call, s_print.
    simpl. rewrite Ht. simpl.
    case_bool_decide as Hin.
    + simpl. rewrite Hc. simpl.
      apply (IH (name :: known)); [done|]. simpl.
      intros r Hr. apply elem_of_cons in Hr as [->|Hr]; auto.
    + rewrite (forallb_known known refs (srv w) Hk Hrefs). simpl. rewrite Hc. simpl.
      apply (IH (name :: known)); [done|]. simpl.
      intros r Hr. apply elem_of_app. apply elem_of_cons in Hr as [->|Hr].
      * right. by left.
      * left. auto.
Qed.

Lemma forallb_readable (reads : list string) (s : server) :
  (∀ r, r ∈ reads -> r ∈ tables s) ->
  forallb (fun r => bool_decide (r ∈ tables s)) reads = true.
Proof.
  intros H. apply forallb_forall. intros r Hr.
  apply bool_decide_eq_true, H. by apply list_elem_of_In.
Qed.

(** Views over existing tables are all created when no view statement
    and no commit raises. *)
Lemma view_loop_total (n : nat) (l : list ddl) (i : Z) (w : setup_world) :
  (∀ m, setup_fault m SView = false) -> (∀ m, setup_fault m SCommit = false) ->
  Forall (view_readable (srv w)) l ->
  swp (s_for_each_from i l (create_view n))
    (fun _ w' => server_grows (srv w) (srv w') ∧ ∀ q, q ∈ l -> created q (srv w'))
    (fun _ _ => True) w.
Proof.
  intros Hv Hc. revert i w. induction l as [|q l IH]; intros i w Hl.
  - apply swp_ret. split; [done|]. intros q Hq. by apply elem_of_nil in Hq.
  - apply Forall_cons in Hl as [Hq Hl].
    destruct q as [| |name reads]; try done. simpl in Hq.
    cbn [s_for_each_from]. apply swp_bind. unfold create_view at 1.
    apply swp_try. unfold swp at 1, mbind, Setup_bind, s_execute, s_call, s_print.
    simpl. rewrite Hv. simpl. rewrite (forallb_readable reads (srv w) Hq). simpl.
    rewrite Hc. simpl.
    eapply swp_mono; [apply IH| |done].
    + simpl. eapply Forall_impl; [exact Hl|]. by intros [| |].
    + simpl. intros _ w' [(Hd & Ht & Hvw) Hall]. simpl in *. split.
      * split; [done|]. split; [done|]. etrans; [|exact Hvw].
        case_bool_decide; [done|]. by apply sublist_subseteq, sublist_inserts_r.
      * intros q Hq'. apply elem_of_cons in Hq' as [->|Hq']; [|by apply Hall].
        simpl. apply Hvw. case_bool_decide; [done|]. apply elem_of_app. right. by left.
Qed.

Lemma swp_call_ok (k : setup_op) (Q : unit -> setup_world -> Prop)
    (E : exn -> setup_world -> Prop) (w : setup_world) :
  setup_fault (s_clock w) k = false -> Q tt (s_tick w) -> swp (s_call k) Q E w.
Proof. unfold swp, s_call. by intros ->. Qed.

Lemma swp_connect_ok (cfg : list string) (Q : unit -> setup_world -> Prop)
    (E : exn -> setup_world -> Prop) (w : setup_world) :
  setup_fault (s_clock w) SConnect = false ->
  bool_decide ("database" ∈ cfg) && negb (has_database (srv w)) = false ->
  Q tt (s_tick w) -> swp (connect cfg) Q E w.
Proof. unfold swp, connect. by intros -> ->. Qed.

Lemma swp_execute_ok (q : ddl) (s : server) (Q : unit -> setup_world -> Prop)
    (E : exn -> setup_world -> Prop) (w : setup_world) :
  setup_fault (s_clock w) (ddl_op q) = false -> run_ddl q (srv w) = Some s ->
  Q tt {| srv := s; s_clock := S (s_clock w); s_log := s_log w |} ->
  swp (s_execute q) Q E w.
Proof. unfold swp, s_execute. by intros -> ->. Qed.

(** With no failure but of views the setup does not raise, and with no
    failure at all it ends with both views. *)
Lemma setup_total (w : setup_world) :
  (∀ n k, k ≠ SView -> setup_fault n k = false) ->
  swp ensure_database_and_schema
    (fun _ v => (∀ n, setup_fault n SView = false) ->
       ∀ q, q ∈ view_queries -> created q (srv v))
    (fun _ _ => False) w.
Proof.
  intros Hok. unfold ensure_database_and_schema.
  apply swp_bind, swp_print, swp_bind, swp_try.
  apply swp_bind, swp_connect_ok; [by apply Hok|done|].
  apply swp_bind, swp_call_ok; [by apply Hok|].
  eapply swp_bind, swp_execute_ok; [by apply Hok|reflexivity|].
  apply swp_bind, swp_call_ok; [by apply Hok|].
  apply swp_bind, swp_call_ok; [by apply Hok|].
  apply swp_bind, swp_call_ok; [by apply Hok|].
  apply swp_print.
  apply swp_bind, swp_connect_ok; [by apply Hok|done|].
  apply swp_bind, swp_call_ok; [by apply Hok|].
  apply swp_bind.
  eapply swp_mono;
    [apply swp_conj;
       [apply table_loop_spec
       |apply (table_loop_total _ _ []); [by intros; apply Hok..|done|]]| |].
  - intros r Hr. by apply elem_of_nil in Hr.
  - intros ? w1 [[_ Hall] _]. cbn beta.
    apply swp_bind.
    eapply swp_mono;
      [apply swp_conj; [apply view_loop_spec|apply swp_impl; intros Hv;
         apply (view_loop_total _ _ _ _ Hv); [by intros; apply Hok|]]| |].
    + assert (CreateTable "matches" [] ∈ table_creation_queries) as Hm
        by (unfold table_creation_queries;
            repeat first [apply list_elem_of_here|apply list_elem_of_further]).
      assert (CreateTable "innings" [] ∈ table_creation_queries) as Hi
        by (unfold table_creation_queries;
            repeat first [apply list_elem_of_here|apply list_elem_of_further]).
      apply Hall in Hm, Hi. simpl in Hm, Hi.
      unfold view_queries.
      apply Forall_cons; split; [|apply Forall_cons; split; [|by apply Forall_nil]];
        simpl; intros r Hr;
        repeat (apply elem_of_cons in Hr as [->|Hr]; [done|]);
        by apply elem_of_nil in Hr.
    + intros ? w2 [_ Hviews].
      apply swp_bind, swp_call_ok; [by apply Hok|].
      apply swp_bind, swp_call_ok; [by apply Hok|].
      apply swp_print. simpl. intros Hv. by apply Hviews.
    + by intros ? ? [? _].
  - by intros ? ? [_ ?].
Qed.

(** X22.  The setup completes when nothing but views fails: from any
    state of the server, and without the database existing beforehand,
    [ensure_database_and_schema] returns with the database and all seven
    tables in place when no call other than the creation of a view raises
    -- the foreign key of [match_players] finds [players] because the
    list creates it first -- and with both views as well when no view
    fails either. *)
Theorem setup_completes_when_only_views_fail (w : setup_world) :
  (∀ n k, k ≠ SView -> setup_fault n k = false) ->
  ∃ w', ensure_database_and_schema w = (w', Ret tt) ∧
    has_database (srv w') = true ∧
    (∀ q, q ∈ table_creation_queries -> created q (srv w')) ∧
    ((∀ n, setup_fault n SView = false) -> ∀ q, q ∈ view_queries -> created q (srv w')).
Proof.
  intros Hok.
  pose proof (swp_conj _ _ _ _ _ _ (setup_spec w) (setup_total w Hok)) as H.
  unfold swp in H.
  destruct (ensure_database_and_schema w) as [w' [[]|e]]; [|by destruct H].
  exists w'. destruct H as [[Hdb Ht] Hv]. by repeat split.
Qed.

(** ** What the walk leaves alone *)

#[local] Instance roster_kept_preorder : PreOrder roster_kept.
Proof.
  split.
  - by intros w.
  - intros w1 w2 w3 (Hl1 & Hm1 & Hi1 & Ho1) (Hl2 & Hm2 & Hi2 & Ho2).
    split; [auto|]. split; [congruence|]. split; congruence.
Qed.

Lemma roster_kept_cur (w w' : world) : cur w' = cur w -> roster_kept w w'.
Proof. intros Hc. unfold roster_kept. by rewrite Hc. Qed.

Lemma walk_stmt_run (s : stmt) (d : db) :
  walk_stmt s = true ->
  (∀ k row, match_players d !! k = Some row ->
     match_players (run_stmt s d).1 !! k = Some row) ∧
  matches (run_stmt s d).1 = matches d ∧
  innings (run_stmt s d).1 = innings d ∧
  match_officials (run_stmt s d).1 = match_officials d.
Proof.
  intros Hs. destruct s; try done; simpl.
  - unfold upsert_player. by destruct (players d !! index_key player_name).
  - split; [|done]. intros k row Hk. unfold insert_ignore_link.
    destruct (match_players d !! (index_key match_id, player_id)) eqn:E; [done|].
    rewrite lookup_insert_ne; [done|]. intros <-. congruence.
Qed.

Lemma roster_kept_execute (s : stmt) : walk_stmt s = true -> steps roster_kept (execute s).
Proof.
  intros Hs w. unfold execute. destruct (fault _ _); [by apply roster_kept_cur|].
  pose proof (walk_stmt_run s (cur w) Hs) as H.
  by destruct (run_stmt s (cur w)).
Qed.

Lemma roster_kept_commit : steps roster_kept commit.
Proof. intros w. apply roster_kept_cur. unfold commit. by destruct (fault _ _). Qed.

Lemma roster_kept_print (entry : log_entry) : steps roster_kept (print entry).
Proof. intros w. by apply roster_kept_cur. Qed.

Lemma roster_kept_modify_loc (f : locals -> locals) : steps roster_kept (modify_loc f).
Proof. intros w. by apply roster_kept_cur. Qed.

(** X23.  The innings walk only adds: in the connection's image it leaves
    every roster link that was there exactly as it was -- it links the
    players it meets with [INSERT IGNORE], which never replaces a link the
    roster wrote -- and it does not touch the matches, the innings rows or
    the officials, whatever fails on the way. *)
Theorem walk_never_alters_roster (mid : string) (registry team1 team2 innings_list : json)
    (w : world) :
  let w' := (process_deliveries mid registry team1 team2 innings_list w).1 in
  (∀ k row, match_players (cur w) !! k = Some row ->
     match_players (cur w') !! k = Some row) ∧
  matches (cur w') = matches (cur w) ∧
  innings (cur w') = innings (cur w) ∧
  match_officials (cur w') = match_officials (cur w).
Proof.
  intros w'. subst w'.
  enough (steps roster_kept (process_deliveries mid registry team1 team2 innings_list))
    as H by exact (H w).
  pose proof roster_kept_commit. pose proof roster_kept_print.
  pose proof roster_kept_modify_loc.
  unfold process_deliveries, process_innings, process_over, process_delivery,
    read_delivery, read_wicket, link_seen_player, count_delivery, get_or_create_player.
  steps_auto; by apply roster_kept_execute.
Qed.

(** ** Registry identifiers *)

Lemma registered_run (name : string) (id : Z) (s : stmt) (d : db) :
  every_call (stmt_op s) = true ->
  registered name id d -> registered name id (run_stmt s d).1.
Proof.
  intros _ (p & Hp & Hid & Hreg). destruct s; try (by exists p).
  unfold registered. simpl.
  destruct (upsert_player player_name registry_id d) as [d' r] eqn:Hu. simpl.
  unfold upsert_player in Hu.
  destruct (decide (index_key player_name = index_key name)) as [Heq|Hne].
  - rewrite Heq, Hp in Hu. injection Hu as <- <-. simpl. rewrite lookup_insert_eq.
    eexists. split; [done|]. simpl. split; [done|]. by destruct (is_none registry_id) eqn:E.
  - destruct (players d !! index_key player_name); injection Hu as <- <-; simpl;
      rewrite lookup_insert_ne by done; by exists p.
Qed.

(** X24.  A registry identifier, once stored, is never erased and a
    player never changes identifier: when both images hold the player
    [name] under the identifier [id] with a registry identifier that is
    not NULL, they still do after a file was ingested, whatever the file
    holds and whatever fails.  (The registry identifier itself may have
    been replaced by another one that is not NULL.) *)
Theorem registry_id_never_erased (name : string) (id : Z) (mid : string)
    (content : option json) (w : world) :
  registered name id (cur w) -> registered name id (saved w) ->
  let w' := (process_json_file mid content w).1 in
  registered name id (cur w') ∧ registered name id (saved w').
Proof.
  intros Hc Hs.
  enough (steps (keeps (both (registered name id))) (process_json_file mid content)) as H
    by exact (H w (conj Hc Hs)).
  pose proof (registered_run name id).
  unfold process_json_file, persist_header, process_body, process_players, link_player,
    process_officials, insert_officials, process_deliveries, process_innings,
    process_over, process_delivery, read_delivery, read_wicket, link_seen_player,
    count_delivery, persist_aggregates, write_aggregates, persist_innings,
    get_or_create_player.
  steps_auto.
Qed.

(** ** A roster entry *)

(** X25.  A roster entry that goes through is stored under the identifier
    of its player: for a name with something left after stripping, when
    the upsert of the player, its commit and the upsert of the link do not
    raise and the identifier is not zero, the players table holds at the
    entry of the cleaned name a row with that identifier and
    [match_players] holds, under the match and that identifier, the team
    of the roster and the registry identifier the file gives for the
    name. *)
Theorem roster_link_stored (mid team : string) (registry : json) (s : string) (rid : json)
    (w : world) :
  py_get_key registry (JStr s) = Ret rid ->
  strip s ≠ "" ->
  fault (clock w) OpPlayerUpsert = false ->
  fault (S (clock w)) OpCommit = false ->
  fault (S (S (clock w))) OpLink = false ->
  (upsert_player (truncate_name (strip s)) rid (cur w)).2 ≠ 0 ->
  ∃ w' p, link_player mid team registry (JStr s) w = (w', Ret tt) ∧
    players (cur w') !! index_key (truncate_name (strip s)) = Some p ∧
    p_id p = (upsert_player (truncate_name (strip s)) rid (cur w)).2 ∧
    match_players (cur w') !! (index_key mid, p_id p) =
      Some {| l_team := JStr team; l_registry_name := rid |}.
Proof.
  intros Hget Hs Hf1 Hf2 Hf3 Hid.
  destruct (upsert_player_lookup (truncate_name (strip s)) rid (cur w)) as (p & Hp & Hpid).
  enough (wp (link_player mid team registry (JStr s))
            (fun _ w' =>
               players (cur w') !! index_key (truncate_name (strip s)) = Some p ∧
               match_players (cur w') !! (index_key mid, p_id p) =
                 Some {| l_team := JStr team; l_registry_name := rid |})
            (fun _ _ => False) w) as H.
  { apply wp_returns in H as (w' & [] & Hrun & H1 & H2). by exists w', p. }
  unfold link_player. apply wp_bind, wp_lift. rewrite Hget.
  apply wp_bind. eapply wp_eq; [by apply resolve_named|].
  apply wp_try, wp_bind, wp_execute; intros Hf; [simpl in Hf; congruence|].
  apply wp_bind, wp_commit; intros Hf'; [simpl in Hf'; congruence|].
  apply wp_ret. simpl.
  destruct (upsert_player (truncate_name (strip s)) rid (cur w)) as [d id] eqn:Hu.
  simpl in *. subst id. rewrite (proj2 (Z.eqb_neq _ _) Hid). simpl.
  apply wp_try, wp_bind, wp_execute; intros Hf''; [simpl in Hf''; congruence|].
  apply wp_ret. simpl. split; [done|]. by rewrite lookup_insert_eq.
Qed.

(** * Ingesting a file again *)

(** ** The rows of the deliveries of a file *)

Ltac rewrite_rets :=
  repeat match goal with
         | H : ?x = Ret _ |- context [?x] => rewrite H; simpl
         end.

Lemma read_delivery_reads (c : delivery_ctx) (delivery : json) (w w1 : world)
    (f : delivery_fields) :
  read_delivery c delivery w = (w1, Ret f) ->
  py_get delivery "batter" JNull = Ret (f_batsman_name f) ∧
  py_get delivery "non_striker" JNull = Ret (f_non_striker_name f) ∧
  py_get delivery "bowler" JNull = Ret (f_bowler_name f) ∧
  ∃ runs_info both,
    py_get delivery "runs" (JDict []) = Ret runs_info ∧
    (rb ← py_get runs_info "batter" (JInt 0); safe_int rb None) = Ret (f_runs_batsman f) ∧
    (re ← py_get runs_info "extras" (JInt 0); safe_int re None) = Ret (f_runs_extras f) ∧
    py_add (f_runs_batsman f) (f_runs_extras f) = Ret both ∧
    (tot ← py_get runs_info "total" (JInt both); safe_int tot None) = Ret (f_runs_total f).
Proof.
  intros H. unfold read_delivery in H. run_inv H. simpl.
  repeat (split; [done|]). do 2 eexists. split; [eassumption|].
  repeat split; first [eassumption | by rewrite_rets].
Qed.

Lemma row_reads_delivery_row_of (c : delivery_ctx) (ball_idx seq : Z) (delivery : json)
    (w w1 : world) (f : delivery_fields) (runs_total : Z) :
  read_delivery c delivery w = (w1, Ret f) ->
  f_runs_total f = Some runs_total ->
  row_reads (c_match_id c)
    {| fd_innings := c_innings_idx c; fd_over := c_over_num c; fd_ball := ball_idx;
       fd_record := delivery |}
    (delivery_row_of c ball_idx seq f runs_total).
Proof.
  intros Hread Ht.
  destruct (read_delivery_reads _ _ _ _ _ Hread)
    as (Hb & Hn & Hw & runs_info & both & Hr & Hrb & Hre & Hadd & Htot).
  rewrite Ht in Htot. unfold row_reads. simpl.
  repeat (split; [done|]). by exists runs_info, both.
Qed.

Lemma stored_rows_app (mid : string) (ds1 ds2 : list file_delivery)
    (rows1 rows2 : list delivery_row) (k1 k2 : nat) :
  stored_rows mid ds1 rows1 k1 -> stored_rows mid ds2 rows2 k2 ->
  stored_rows mid (ds1 ++ ds2) (rows1 ++ rows2) (k1 + k2).
Proof.
  intros H1 H2. induction H1; simpl; [done| |]; by constructor.
Qed.

(** When no delivery was left out, the rows are those of the deliveries,
    one for one. *)
Lemma stored_rows_all (mid : string) (ds : list file_delivery) (rows : list delivery_row) :
  stored_rows mid ds rows 0 -> Forall2 (row_reads mid) ds rows.
Proof.
  intros H. remember 0%nat as k eqn:Hk. induction H; [constructor| |done].
  constructor; [done|]. by apply IHstored_rows.
Qed.

Lemma stored_rows_length (mid : string) (ds : list file_delivery) (rows : list delivery_row)
    (k : nat) :
  stored_rows mid ds rows k -> length ds = (length rows + k)%nat.
Proof. induction 1; simpl; lia. Qed.

Lemma walked_nil (mid : string) (w w' : world) :
  deliveries (cur w') = deliveries (cur w) ->
  delivery_errors (loc w') = delivery_errors (loc w) ->
  walked mid [] w w'.
Proof.
  intros Hd He. exists [], 0%nat. rewrite app_nil_r, Hd, He.
  split; [constructor|]. split; [done|]. simpl. lia.
Qed.

Lemma walked_app (mid : string) (ds1 ds2 : list file_delivery) (w1 w2 w3 : world) :
  walked mid ds1 w1 w2 -> walked mid ds2 w2 w3 -> walked mid (ds1 ++ ds2) w1 w3.
Proof.
  intros (r1 & k1 & H1 & Hd1 & He1) (r2 & k2 & H2 & Hd2 & He2).
  exists (r1 ++ r2)%list, (k1 + k2)%nat. split; [by apply stored_rows_app|].
  rewrite Hd2, Hd1, He2, He1, app_assoc. split; [done|lia].
Qed.

(** The walk went over [ds] from a world that has the deliveries and the
    error count of [w]. *)
Lemma walked_from (mid : string) (ds : list file_delivery) (w v w' : world) :
  deliveries (cur v) = deliveries (cur w) ->
  delivery_errors (loc v) = delivery_errors (loc w) ->
  walked mid ds v w' -> walked mid ds w w'.
Proof.
  intros Hd He (rows & k & H & Hd' & He'). exists rows, k. by rewrite <- Hd, <- He.
Qed.

(** A delivery never raises: its row is appended, or it counts as an
    error. *)
Lemma process_delivery_walked (c : delivery_ctx) (ball_idx : Z) (delivery : json)
    (w : world) :
  ∃ w', process_delivery c ball_idx delivery w = (w', Ret tt) ∧
    walked (c_match_id c)
      [{| fd_innings := c_innings_idx c; fd_over := c_over_num c; fd_ball := ball_idx;
          fd_record := delivery |}] w w'.
Proof.
  rewrite process_delivery_run.
  pose proof (calm_read_delivery c delivery w) as Hcalm.
  assert (∀ e w1, deliveries (cur w1) = deliveries (cur w) ->
            delivery_errors (loc w1) = delivery_errors (loc w) ->
            ∃ w', delivery_failed e w1 = (w', Ret tt) ∧
              walked (c_match_id c)
                [{| fd_innings := c_innings_idx c; fd_over := c_over_num c;
                    fd_ball := ball_idx; fd_record := delivery |}] w w') as Hskip.
  { intros e w1 Hd Hl.
    destruct (delivery_failed_run e w1) as (w' & Hrun & Hc & _ & _ & Hl').
    exists w'. split; [done|]. exists [], 1%nat.
    split; [constructor; constructor|].
    rewrite Hc, Hl', app_nil_r, Hd. simpl. by rewrite Hl. }
  destruct (read_delivery c delivery w) as [w1 [f|e]] eqn:Hread; simpl in Hcalm;
    destruct Hcalm as [Hd Hl]; [|apply Hskip; [done|by rewrite Hl]].
  destruct (f_runs_total f) as [runs_total|] eqn:Ht; [|apply Hskip; [done|by rewrite Hl]].
  simpl. destruct (fault _ OpDelivery); [apply Hskip; simpl; [done|by rewrite Hl]|].
  eexists. split; [done|].
  eexists [_], 0%nat. split.
  - constructor; [|constructor]. by eapply row_reads_delivery_row_of.
  - simpl. rewrite Hd, Hl. split; [done|lia].
Qed.

(** The deliveries of an over. *)
Lemma balls_walked (c : delivery_ctx) (balls : list json) (i : Z) (w : world) :
  ∃ w', for_each_from i balls (process_delivery c) w = (w', Ret tt) ∧
    walked (c_match_id c)
      ((fun bd => {| fd_innings := c_innings_idx c; fd_over := c_over_num c;
                     fd_ball := bd.1; fd_record := bd.2 |}) <$> enumerate i balls) w w'.
Proof.
  revert i w. induction balls as [|x balls IH]; intros i w; simpl.
  - exists w. split; [done|]. by apply walked_nil.
  - destruct (process_delivery_walked c i x w) as (w1 & Hrun & Hw1).
    destruct (IH (i + 1) w1) as (w' & Hloop & Hw').
    exists w'. split; [by rewrite (bind_ret_run _ _ _ _ _ Hrun)|].
    exact (walked_app _ [_] _ _ _ _ Hw1 Hw').
Qed.

Lemma process_over_walked (mid : string) (registry : json) (idx : Z)
    (batting bowling over_data : json) (w : world) :
  wp (process_over mid registry idx batting bowling over_data)
    (fun _ w' => ∃ ds, over_deliveries idx over_data = Ret ds ∧ walked mid ds w w')
    (fun _ _ => True) w.
Proof.
  unfold process_over, over_deliveries.
  apply wp_bind, wp_lift. destruct (py_get over_data "over" JNull) as [ov|]; [|done].
  simpl. apply wp_bind, wp_lift. destruct (safe_int ov None) as [over_num|]; [|done].
  simpl. apply wp_bind, wp_lift.
  destruct (py_get over_data "deliveries" (JList [])) as [dl|]; [|done].
  simpl. destruct over_num as [n|]; [|done].
  apply wp_bind, wp_modify_loc. apply wp_bind, wp_lift.
  destruct (py_iter dl) as [balls|]; [|done]. simpl.
  match goal with
  | |- wp (for_each_from 1 balls (process_delivery ?c)) _ _ ?v =>
      destruct (balls_walked c balls 1 v) as (w' & Hrun & Hw');
        unfold wp; rewrite Hrun
  end.
  eexists. split; [done|]. by eapply walked_from; [| |exact Hw'].
Qed.

Lemma overs_walked (mid : string) (registry : json) (idx : Z) (batting bowling : json)
    (overs : list json) (w : world) :
  wp (for_each overs (process_over mid registry idx batting bowling))
    (fun _ w' => ∃ ds, overs_deliveries idx overs = Ret ds ∧ walked mid ds w w')
    (fun _ _ => True) w.
Proof.
  revert w. induction overs as [|over_data overs IH]; intros w; simpl.
  - apply wp_ret. exists []. split; [done|]. by apply walked_nil.
  - apply wp_bind. eapply wp_mono; [apply process_over_walked| |done].
    intros [] w1 (ds & Hds & Hw1). eapply wp_mono; [apply IH| |done].
    intros [] w2 (ds' & Hds' & Hw2). exists (ds ++ ds')%list.
    rewrite Hds. simpl. rewrite Hds'. split; [done|]. by eapply walked_app.
Qed.

Lemma process_innings_walked (mid : string) (registry team1 team2 : json) (idx : Z)
    (innings : json) (w : world) :
  wp (process_innings mid registry team1 team2 idx innings)
    (fun _ w' => ∃ ds, innings_deliveries idx innings = Ret ds ∧ walked mid ds w w')
    (fun _ _ => True) w.
Proof.
  unfold process_innings, innings_deliveries.
  apply wp_bind, wp_lift. destruct (py_get innings "team" JNull) as [team|]; [|done].
  apply wp_bind, wp_lift.
  destruct (py_get innings "overs" (JList [])) as [overs_list|]; [|done].
  simpl. apply wp_bind, wp_modify_loc. apply wp_bind, wp_modify_loc.
  apply wp_bind, wp_lift. destruct (py_iter overs_list) as [overs|]; [|done]. simpl.
  eapply wp_mono; [apply overs_walked| |done].
  intros [] w' (ds & Hds & Hw'). exists ds. split; [done|].
  by eapply walked_from; [| |exact Hw'].
Qed.

Lemma innings_walked (mid : string) (registry team1 team2 : json) (all_innings : list json)
    (i : Z) (w : world) :
  wp (for_each_from i all_innings (process_innings mid registry team1 team2))
    (fun _ w' => ∃ ds, innings_from i all_innings = Ret ds ∧ walked mid ds w w')
    (fun _ _ => True) w.
Proof.
  revert i w. induction all_innings as [|innings rest IH]; intros i w; simpl.
  - apply wp_ret. exists []. split; [done|]. by apply walked_nil.
  - apply wp_bind. eapply wp_mono; [apply process_innings_walked| |done].
    intros [] w1 (ds & Hds & Hw1). eapply wp_mono; [apply IH| |done].
    intros [] w2 (ds' & Hds' & Hw2). exists (ds ++ ds')%list.
    rewrite Hds. simpl. rewrite Hds'. split; [done|]. by eapply walked_app.
Qed.

(** The innings walk, when it returns: the rows it appended are those of
    the deliveries of the file it stored, and its error count is the
    number of the others. *)
Lemma process_deliveries_walked (mid : string) (registry team1 team2 innings_list : json)
    (w : world) :
  wp (process_deliveries mid registry team1 team2 innings_list)
    (fun _ w' => ∃ ds rows k, walk_deliveries innings_list = Ret ds ∧
       stored_rows mid ds rows k ∧
       deliveries (cur w') = (deliveries (cur w) ++ rows)%list ∧
       delivery_errors (loc w') = Z.of_nat k)
    (fun _ _ => True) w.
Proof.
  unfold process_deliveries, walk_deliveries.
  apply wp_bind, wp_modify_loc. apply wp_bind, wp_modify_loc. apply wp_bind, wp_modify_loc.
  apply wp_bind, wp_lift. destruct (py_iter innings_list) as [all_innings|]; [|done].
  simpl. eapply wp_mono; [apply innings_walked| |done].
  intros [] w' (ds & Hds & rows & k & Hst & Hd & He). by exists ds, rows, k.
Qed.

(** ** The rows of a file *)

Lemma read_header_innings (match_data : json) (h : header) :
  read_header match_data = Ret h ->
  py_get match_data "innings" (JList []) = Ret (h_innings_list h).
Proof.
  intros Hh. destruct match_data as [| | | | | |md]; try done.
  unfold read_header in Hh. simpl in Hh.
  repeat match type of Hh with
  | (match ?r with Ret _ => _ | Raise _ => _ end) = Ret _ =>
      destruct r eqn:?; [|discriminate]
  | (?r ≫= _) = Ret _ => destruct r eqn:?; [|discriminate]; simpl in Hh
  end.
  by injection Hh as <-.
Qed.

Lemma deliveries_are_run (D : list delivery_row) (s : stmt) (d : db) :
  not_delivery (stmt_op s) = true -> deliveries d = D -> deliveries (run_stmt s d).1 = D.
Proof.
  intros Hs <-. apply run_stmt_deliveries. by destruct s.
Qed.

(** The header that returns [True] has committed, and no delivery with
    it. *)
Lemma persist_header_deliveries (mid : string) (row : match_row) (w : world) :
  wp (persist_header mid row)
    (fun ok w' => ok = true -> both (fun d => deliveries d = deliveries (cur w)) w')
    (fun _ _ => True) w.
Proof.
  unfold persist_header. repeat wp_step; simpl; done.
Qed.

Lemma deliveries_are_process_players (D : list delivery_row) (mid : string)
    (registry players_info : json) :
  steps (keeps (both (fun d => deliveries d = D))) (process_players mid registry players_info).
Proof.
  pose proof (deliveries_are_run D).
  unfold process_players, link_player, get_or_create_player. steps_auto.
Qed.

Lemma deliveries_are_process_officials (D : list delivery_row) (mid : string) (info : json) :
  steps (keeps (both (fun d => deliveries d = D))) (process_officials mid info).
Proof.
  pose proof (deliveries_are_run D).
  unfold process_officials, insert_officials. steps_auto.
Qed.

(** The aggregates that return [True] have left the deliveries and the
    locals as they were. *)
Lemma persist_aggregates_calm (mid : string) (bpo : option Z) (w : world) :
  wp (persist_aggregates mid bpo)
    (fun ok w' => ok = true -> calm w w')
    (fun _ _ => True) w.
Proof.
  unfold persist_aggregates.
  apply wp_try, wp_bind.
  apply (wp_steps calm).
  - unfold write_aggregates, persist_innings. steps_auto.
  - intros [] w1 [Hd Hl]. repeat wp_step; by intros _.
  - intros e w1 _. repeat wp_step; done.
Qed.

(** A file reported successful has appended the rows of those of its
    deliveries that it stored, and counts the others as errors. *)
Lemma process_json_file_rows (mid : string) (match_data : json) (w : world) :
  wp (process_json_file mid (Some match_data))
    (fun ok w' => ok = true ->
       ∃ ds rows k, file_deliveries match_data = Ret ds ∧
         stored_rows mid ds rows k ∧
         deliveries (cur w') = (deliveries (cur w) ++ rows)%list ∧
         delivery_errors (loc w') = Z.of_nat k)
    (fun _ _ => True) w.
Proof.
  unfold process_json_file.
  apply wp_bind, wp_modify_loc, wp_bind, wp_print.
  apply wp_bind, wp_lift. destruct (read_header match_data) as [h|e] eqn:Hh; [|done].
  apply wp_bind. eapply wp_mono; [apply persist_header_deliveries| |done].
  intros [|] w1 Hw1; [|by apply wp_ret]. specialize (Hw1 eq_refl). simpl in Hw1.
  apply wp_bind. unfold process_body.
  apply wp_bind, wp_lift. destruct (py_get (h_info h) "registry" (JDict [])); [|done].
  apply wp_bind, wp_lift. destruct (py_get _ "people" (JDict [])); [|done].
  apply wp_bind, wp_lift. destruct (py_get (h_info h) "players" (JDict [])); [|done].
  apply wp_bind.
  apply (wp_keeps (both (fun d => deliveries d = deliveries (cur w))));
    [apply deliveries_are_process_players|done| |done].
  intros [] w2 Hw2. apply wp_bind.
  apply (wp_keeps (both (fun d => deliveries d = deliveries (cur w))));
    [apply deliveries_are_process_officials|done| |done].
  intros [] w3 [Hw3 _].
  eapply wp_mono; [apply process_deliveries_walked| |done].
  intros [] w4 (ds & rows & k & Hds & Hst & Hd & He).
  eapply wp_mono; [apply persist_aggregates_calm| |done].
  intros ok w5 Hcalm ->. destruct (Hcalm eq_refl) as [Hd5 Hl5].
  exists ds, rows, k. unfold file_deliveries.
  rewrite (read_header_innings _ _ Hh). simpl.
  split; [done|]. split; [done|]. by rewrite Hd5, Hl5, Hd, Hw3.
Qed.

(** C1, as the code has it.  Ingest one file again and again, no storage
    call failing.  After every ingestion from the first on, the match
    row, the match-player links and the innings rows are the ones the
    first ingestion left, while each ingestion appends the same delivery
    rows of the match once more: after [n] ingestions the deliveries table
    holds [n] copies of them after what it held before.  These rows are
    those of the file: when the ingestion reports the file successful,
    they are, in the order of the file, the rows of the deliveries it
    stored, each with the place, the names and the runs of its delivery,
    and the deliveries it left out are those it counts as errors -- with
    no error, one row for each delivery of the file. *)
Theorem reingestion_duplicates_deliveries_only (mid : string) (content : option json)
    (w : world) :
  (∀ n k, fault n k = false) ->
  ∃ rows, Forall (fun r => d_match_id r = mid) rows ∧
    (∀ match_data, content = Some match_data ->
       (process_json_file mid content w).2 = Ret true ->
       ∃ ds k, file_deliveries match_data = Ret ds ∧
         stored_rows mid ds rows k ∧
         delivery_errors (loc (ingest 1 mid content w)) = Z.of_nat k ∧
         (k = 0%nat -> Forall2 (row_reads mid) ds rows)) ∧
    ∀ n, (1 <= n)%nat ->
      matches (cur (ingest n mid content w)) = matches (cur (ingest 1 mid content w)) ∧
      match_players (cur (ingest n mid content w)) =
        match_players (cur (ingest 1 mid content w)) ∧
      innings (cur (ingest n mid content w)) = innings (cur (ingest 1 mid content w)) ∧
      deliveries (cur (ingest n mid content w)) =
        (deliveries (cur w) ++ mjoin (replicate n rows))%list.
Proof.
  intros Hnf.
  destruct (reingest_copies Hnf mid content w) as (rows & Hrows & Hn).
  exists rows. split; [done|]. split; [|done].
  intros match_data -> Htrue.
  destruct (Hn 1%nat) as (_ & _ & _ & Hd1); [lia|]. simpl in Hd1.
  rewrite app_nil_r in Hd1.
  pose proof (process_json_file_rows mid match_data w) as Hfile. unfold wp in Hfile.
  simpl. destruct (process_json_file mid (Some match_data) w) as [w1 [ok|e]]; [|done].
  simpl in *. injection Htrue as ->.
  destruct (Hfile eq_refl) as (ds & rows' & k & Hds & Hst & Hd & He).
  rewrite Hd in Hd1. apply app_inv_head in Hd1 as ->.
  exists ds, k. split; [done|]. split; [done|]. split; [done|].
  intros ->. by apply stored_rows_all.
Qed.


End Loader.

(** * The properties at work on sample data *)

Lemma safe_int_total_witness :
  safe_int sample_runtime (JInt 7) None = Ret (Some 7) ∧
  safe_int sample_runtime (JStr "   ") (Some 0) = Ret (Some 0) ∧
  safe_int sample_runtime (JStr " 12 ") None = Ret (Some 12).
Proof.
  destruct (safe_int_total sample_runtime)
    as (_ & _ & Hblank & _ & _ & _ & Hint & Hstr & _).
  split; [|split].
  - apply Hint. reflexivity.
  - apply Hblank. reflexivity.
  - apply (Hstr " 12 " (inject_Z 12)); [discriminate|reflexivity].
Defined.

Lemma margin_rendering_witness :
  margin_of sample_runtime
    (JDict [("winner", JStr "Chennai Super Kings"); ("by", JDict [("wickets", JInt 4)])])
  = Ret (Some "4 wickets").
Proof.
  destruct (margin_rendering sample_runtime) as (_ & Hwk & _).
  apply (Hwk _ [("wickets", JInt 4)] (JInt 4)); reflexivity.
Defined.

Lemma overs_played_stored_witness :
  ∃ w' row,
    persist_innings sample_runtime true no_fault "1001" (Some 6) (1, sample_acc 21 17) empty_world
      = (w', Ret tt) ∧
    innings (cur w') !! (index_key sample_runtime "1001", 1) = Some row ∧
    (i_overs row == 2.5)%Q.
Proof.
  destruct (overs_played_stored sample_runtime true no_fault "1001" 6 1 (sample_acc 21 17)
              empty_world)
    as ((w' & row & Hrun & Hrow & Hov) & _); [reflexivity|reflexivity|].
  exists w', row. split; [exact Hrun|]. split; [exact Hrow|].
  rewrite Hov. reflexivity.
Defined.

Lemma resolve_existing_player_witness :
  ∃ w', get_or_create_player sample_runtime true no_fault (JStr " V Kohli ") JNull
          known_player_world
          = (w', Ret (Some 1)) ∧
    p_registry_id <$> players (cur w') !! index_key sample_runtime "V Kohli"
      = Some (JStr "ba607b88").
Proof.
  destruct (resolve_existing_player sample_runtime true no_fault " V Kohli " JNull
              known_player_world
              {| p_id := 1; p_name := "V Kohli"; p_registry_id := JStr "ba607b88" |})
    as (w' & Hrun & Hrow & _); [discriminate|reflexivity|reflexivity|reflexivity|].
  exists w'. split; [exact Hrun|].
  change (truncate_name (strip " V Kohli ")) with "V Kohli" in Hrow.
  by rewrite Hrow.
Defined.

(** Another spelling of a stored name lands on the stored row: its
    identifier comes back, its registry identifier is replaced, its name
    stays as it was written, and no player is added. *)
Example other_spelling_hits_stored_row :
  let r := get_or_create_player sample_runtime true no_fault (JStr "v kohli")
             (JStr "ffffffff") known_player_world in
  r.2 = Ret (Some 1) ∧
  players (cur r.1) !! index_key sample_runtime "V Kohli" =
    Some {| p_id := 1; p_name := "V Kohli"; p_registry_id := JStr "ffffffff" |} ∧
  size (players (cur r.1)) = 1%nat.
Proof. vm_compute. repeat split; reflexivity. Qed.

(** The resolver overwrites a stored registry identifier with a new one. *)
Lemma first_write_wins_fails : ¬ first_write_wins sample_runtime true no_fault.
Proof.
  intros H.
  specialize (H known_player_world "V Kohli" (JStr "ffffffff")
                {| p_id := 1; p_name := "V Kohli"; p_registry_id := JStr "ba607b88" |}
                eq_refl eq_refl).
  vm_compute in H. discriminate H.
Qed.

Lemma resolve_unresolved_witness :
  ∃ w' row,
    process_delivery sample_runtime true players_down sample_ctx 1
      sample_wicket_delivery mid_innings_world = (w', Ret tt) ∧
    deliveries (cur w') = [row] ∧
    d_batsman_id row = None ∧ d_bowler_id row = None ∧ d_fielder_id row = None.
Proof.
  destruct (read_delivery sample_runtime true players_down sample_ctx
              sample_wicket_delivery mid_innings_world) as [w1 [f|e]] eqn:Hread;
    [|by vm_compute in Hread].
  assert (f_runs_total f = Some 4 ∧ clock w1 = 10%nat) as [Ht Hclock].
  { vm_compute in Hread. by injection Hread as <- <-. }
  destruct (resolve_unresolved sample_runtime true players_down)
    as (_ & _ & _ & _ & Hcaller).
  destruct (Hcaller sample_ctx 1 sample_wicket_delivery mid_innings_world w1 f 4)
    as (w' & row & Hrun & Hd & Hb & _ & Hbw & _ & Hf & _);
    [done|done|exact Hread|exact Ht|by rewrite Hclock|].
  exists w', row. split; [exact Hrun|]. split; [exact Hd|].
  split; [exact Hb|]. split; [exact Hbw|exact Hf].
Defined.

Lemma counters_update_before_insert_witness :
  let w' := (process_delivery sample_runtime true deliveries_down sample_ctx 1
               sample_wicket_delivery mid_innings_world).1 in
  deliveries (cur w') = [] ∧
  ∃ a', idata_get 1 (innings_data (loc w')) = Some a' ∧
    a_total_runs a' = 4 ∧ a_total_balls a' = 1 ∧ a_wickets a' = 1.
Proof.
  destruct (read_delivery sample_runtime true deliveries_down sample_ctx
              sample_wicket_delivery mid_innings_world) as [w1 [f|e]] eqn:Hread;
    [|by vm_compute in Hread].
  assert (f_runs_total f = Some 4 ∧ f_n_wickets f = 1) as [Ht Hn].
  { vm_compute in Hread. by injection Hread as <- <-. }
  destruct (counters_update_before_insert sample_runtime true deliveries_down
              sample_ctx 1 sample_wicket_delivery mid_innings_world w1 f
              (sample_acc 0 0) Hread eq_refl)
    as (_ & Hcount & _).
  destruct (Hcount 4 Ht) as ((a' & Ha & Hr & Hb & Hw) & Hfail & _).
  split.
  - by destruct (Hfail eq_refl) as [-> _].
  - exists a'. rewrite Hn in Hw. by repeat split.
Defined.

(** A delivery whose run total is the text "x", every storage call
    working: it is read without error and reaches the counters, where
    adding the total raises.  No ball and no run is counted, no row is
    stored, and the delivery counts as an error. *)
Lemma unreadable_total_is_not_counted :
  let r := read_delivery sample_runtime true no_fault sample_ctx
             sample_unreadable_total mid_innings_world in
  let w' := (process_delivery sample_runtime true no_fault sample_ctx 1
               sample_unreadable_total mid_innings_world).1 in
  (∃ f, r.2 = Ret f ∧ f_runs_batsman f = Some 1 ∧ f_runs_total f = None) ∧
  idata_get 1 (innings_data (loc mid_innings_world)) = Some (sample_acc 0 0) ∧
  idata_get 1 (innings_data (loc w')) = Some (sample_acc 0 0) ∧
  deliveries (cur w') = [] ∧
  delivery_errors (loc w') = 1.
Proof. vm_compute. split; [eexists|]; done. Qed.

(** Match 1001 with the innings table out of reach: the header is stored,
    the aggregate step fails, and the file is counted as failed. *)
Lemma aggregate_failure_fails_file :
  let r := count_file sample_runtime true innings_down
             {| successful := 0; failed := 0 |} "1001" (Some sample_match) empty_world in
  m_margin <$> matches (cur r.1) !! index_key sample_runtime "1001" = Some (Some "7 runs") ∧
  last (log r.1) = Some (LogDeliveriesFailed StorageError) ∧
  r.2 = Ret {| successful := 0; failed := 1 |}.
Proof. vm_compute. done. Qed.

Lemma child_failures_and_outcome_witness :
  (∃ w', process_players sample_runtime true children_down "1001"
           (JDict [("RG Sharma", JStr "740742ef")])
           (JDict [("Mumbai Indians", JList [JStr "RG Sharma"])]) empty_world
         = (w', Ret tt)) ∧
  (∃ w', process_officials sample_runtime true children_down "1001"
           (JDict [("officials", JDict [("umpires", JList [JStr "Nitin Menon"])])])
           empty_world
         = (w', Ret tt)).
Proof.
  destruct (child_failures_and_outcome sample_runtime true children_down)
    as (_ & Hplayers & Hofficials & _); [done|].
  split; [apply Hplayers|apply Hofficials].
Defined.

(** Match 1001 with the deliveries table out of reach: the innings row
    counts two balls and two runs, and no delivery is stored. *)
Lemma totals_disagree_when_insert_fails :
  let r := process_json_file sample_runtime true deliveries_down "1001"
             (Some sample_match) empty_world in
  r.2 = Ret true ∧ ¬ totals_agree sample_runtime "1001" (cur r.1).
Proof.
  split; [by vm_compute|]. intros H.
  pose proof (H 1) as H1. vm_compute in H1.
  destruct (H1 _ eq_refl) as [Hsum _]. discriminate Hsum.
Qed.

Lemma delivery_totals_agree_witness :
  let d := cur (process_json_file sample_runtime true no_fault "1001"
                  (Some sample_match) empty_world).1 in
  totals_agree sample_runtime "1001" d ∧
  i_total_runs <$> innings d !! (index_key sample_runtime "1001", 1) = Some 2 ∧
  sum_runs (innings_rows sample_runtime "1001" 1 d) = 2.
Proof.
  split; [|by vm_compute].
  apply delivery_totals_agree; [done|by split|by split].
Defined.

Lemma reingestion_duplicates_deliveries_only_witness :
  ∃ rows,
    d_batsman <$> rows = [JStr "RG Sharma"; JStr "Q de Kock"] ∧
    d_runs_total <$> rows = [1; 1] ∧
    ∀ n, (1 <= n)%nat ->
      matches (cur (ingest sample_runtime true no_fault n "1001" (Some sample_match)
                      empty_world)) =
        matches (cur (ingest sample_runtime true no_fault 1 "1001" (Some sample_match)
                        empty_world)) ∧
      match_players (cur (ingest sample_runtime true no_fault n "1001" (Some sample_match)
                            empty_world)) =
        match_players (cur (ingest sample_runtime true no_fault 1 "1001"
                              (Some sample_match) empty_world)) ∧
      innings (cur (ingest sample_runtime true no_fault n "1001" (Some sample_match)
                      empty_world)) =
        innings (cur (ingest sample_runtime true no_fault 1 "1001" (Some sample_match)
                        empty_world)) ∧
      deliveries (cur (ingest sample_runtime true no_fault n "1001" (Some sample_match)
                         empty_world)) =
        (deliveries (cur empty_world) ++ mjoin (replicate n rows))%list.
Proof.
  destruct (reingestion_duplicates_deliveries_only sample_runtime true no_fault "1001"
              (Some sample_match) empty_world)
    as (rows & _ & Hfile & Hn); [intros n k; reflexivity|].
  exists rows.
  destruct (Hfile sample_match eq_refl) as (ds & k & Hds & _ & He & Hall);
    [vm_compute; reflexivity|].
  assert (k = 0%nat) as Hk.
  { destruct k as [|k]; [reflexivity|]. vm_compute in He. discriminate He. }
  specialize (Hall Hk). vm_compute in Hds. injection Hds as <-.
  inversion Hall as [|x1 r1 l1 rest1 Hr1 Hrest]; subst.
  inversion Hrest as [|x2 r2 l2 rest2 Hr2 Hnil]; subst.
  inversion Hnil; subst.
  destruct Hr1 as (_ & _ & _ & _ & Hb1 & _ & _ & ri1 & both1 & Hri1 & _ & _ & _ & Ht1).
  destruct Hr2 as (_ & _ & _ & _ & Hb2 & _ & _ & ri2 & both2 & Hri2 & _ & _ & _ & Ht2).
  remember (d_batsman r1) as b1 eqn:Eb1. remember (d_batsman r2) as b2 eqn:Eb2.
  remember (d_runs_total r1) as t1 eqn:Et1. remember (d_runs_total r2) as t2 eqn:Et2.
  vm_compute in Hb1, Hb2, Hri1, Hri2.
  injection Hb1 as Hb1. injection Hb2 as Hb2.
  injection Hri1 as <-. injection Hri2 as <-.
  vm_compute in Ht1, Ht2. injection Ht1 as Ht1. injection Ht2 as Ht2.
  split; [|split; [|exact Hn]].
  - simpl. rewrite <- Eb1, <- Eb2, <- Hb1, <- Hb2. reflexivity.
  - simpl. rewrite <- Et1, <- Et2, <- Ht1, <- Ht2. reflexivity.
Defined.

(** Match 1001 ingested twice; one ingestion makes 32 storage calls.
    With the deliveries table out of reach during the second ingestion,
    both ingestions are reported successful, yet the second appends no
    delivery row: the table holds one copy of the deliveries of the match,
    not two.  With the innings table out of reach during the first
    ingestion, the first is reported failed and leaves no innings row,
    and the second stores it: the innings rows after two ingestions are
    not those after one. *)
Lemma reingestion_under_storage_failure :
  (let f := deliveries_down_from 32 in
   let w1 := ingest sample_runtime true f 1 "1001" (Some sample_match) empty_world in
   let w2 := ingest sample_runtime true f 2 "1001" (Some sample_match) empty_world in
   clock w1 = 32%nat ∧
   (process_json_file sample_runtime true f "1001" (Some sample_match) empty_world).2
     = Ret true ∧
   (process_json_file sample_runtime true f "1001" (Some sample_match) w1).2 = Ret true ∧
   length (deliveries (cur w1)) = 2%nat ∧
   deliveries (cur w2) = deliveries (cur w1)) ∧
  (let f := innings_down_before 32 in
   let w1 := ingest sample_runtime true f 1 "1001" (Some sample_match) empty_world in
   let w2 := ingest sample_runtime true f 2 "1001" (Some sample_match) empty_world in
   clock w1 = 32%nat ∧
   (process_json_file sample_runtime true f "1001" (Some sample_match) empty_world).2
     = Ret false ∧
   (process_json_file sample_runtime true f "1001" (Some sample_match) w1).2 = Ret true ∧
   size (innings (cur w1)) = 0%nat ∧ size (innings (cur w2)) = 1%nat).
Proof. vm_compute. repeat split; reflexivity. Qed.

(** Three ingestions of match 1001 into an empty store: one innings row,
    three links, six deliveries. *)
Example three_ingestions :
  let d := cur (ingest sample_runtime true no_fault 3 "1001" (Some sample_match)
                  empty_world) in
  size (matches d) = 1%nat ∧ size (innings d) = 1%nat ∧
  size (match_players d) = 3%nat ∧ length (deliveries d) = 6%nat ∧
  d_ball_sequence <$> deliveries d = [1; 2; 1; 2; 1; 2].
Proof. by vm_compute. Qed.

(** * The further properties at work on sample data *)

Lemma overs_notation_ordered_witness :
  (overs_played 17 6 < overs_played 18 6)%Q ∧ Qfloor (overs_played 17 6) = 17 / 6.
Proof. apply overs_notation_ordered; lia. Defined.

Lemma resolve_round_trip_witness :
  let w' := (get_or_create_player sample_runtime true no_fault (JStr " V Kohli ") JNull
               known_player_world).1 in
  ∃ s p, JStr " V Kohli " = JStr s ∧ strip s ≠ "" ∧
    players (cur w') !! index_key sample_runtime (truncate_name (strip s)) = Some p ∧
    p_id p = 1.
Proof.
  intros w'.
  apply (resolve_round_trip sample_runtime true no_fault (JStr " V Kohli ") JNull
           known_player_world w' 1).
  vm_compute. reflexivity.
Defined.

Lemma links_reference_players_witness :
  let w' := (process_json_file sample_runtime true no_fault "1001" (Some sample_match)
               empty_world).1 in
  links_known (cur w') ∧ links_known (saved w').
Proof.
  apply links_reference_players; intros mid pid [x Hx];
    change (match_players _) with (∅ : gmap (string * Z) link_row) in Hx;
    by rewrite lookup_empty in Hx.
Defined.

Lemma stored_deliveries_shape_witness :
  let w' := (process_json_file sample_runtime true no_fault "1001" (Some sample_match)
               empty_world).1 in
  rows_shaped (cur w') ∧ rows_shaped (saved w').
Proof. apply stored_deliveries_shape; by constructor. Defined.

Lemma every_delivery_accounted_witness :
  ∃ w' rows,
    process_over sample_runtime true deliveries_down "1001" (JDict []) 1
      (JStr "Mumbai Indians") (JStr "Chennai Super Kings") (JDict sample_over)
      mid_innings_world = (w', Ret tt) ∧
    (length rows <= 2)%nat ∧
    deliveries (cur w') = rows ∧
    total_deliveries (loc w') = Z.of_nat (length rows) ∧
    delivery_errors (loc w') = Z.of_nat (2 - length rows).
Proof.
  exact (every_delivery_accounted sample_runtime true deliveries_down "1001" (JDict []) 1
           (JStr "Mumbai Indians") (JStr "Chennai Super Kings") sample_over 0
           mid_innings_world eq_refl).
Defined.

Lemma success_is_committed_witness :
  let w' := (process_json_file sample_runtime true no_fault "1001" (Some sample_match)
               empty_world).1 in
  saved w' = cur w' ∧
  ∃ match_data h, Some sample_match = Some match_data ∧
    read_header sample_runtime match_data = Ret h ∧
    matches (cur w') !! index_key sample_runtime "1001" = Some (h_row h).
Proof.
  intros w'.
  apply (success_is_committed sample_runtime true no_fault "1001" (Some sample_match)
           empty_world w').
  vm_compute. reflexivity.
Defined.

Lemma successful_file_has_aggregates_witness :
  let w' := (process_json_file sample_runtime true no_fault "1001" (Some sample_match)
               empty_world).1 in
  ∃ k a, k ≠ 0 ∧
    innings (cur w') !! (index_key sample_runtime "1001", 1) = Some (aggregate_row k a).
Proof.
  intros w'.
  destruct (read_header sample_runtime sample_match) as [h|e] eqn:Hh;
    [|by vm_compute in Hh].
  destruct (successful_file_has_aggregates sample_runtime true no_fault "1001" sample_match
              h [JDict [("team", JStr "Mumbai Indians");
                        ("overs", JList [JDict sample_over])]]
              empty_world w') with 1
    as (k & a & _ & Hk & Hrow).
  - vm_compute. reflexivity.
  - exact Hh.
  - vm_compute in Hh. injection Hh as <-. reflexivity.
  - simpl. lia.
  - exists k, a. split; [exact Hk|exact Hrow].
Defined.

Lemma header_failure_aborts_file_witness :
  ∃ w', process_json_file sample_runtime true matches_down "1001" (Some sample_match)
          empty_world = (w', Ret false) ∧
    cur w' = saved w' ∧
    log w' = [LogProcessing "1001"; LogMatchFailed StorageError].
Proof.
  destruct (read_header sample_runtime sample_match) as [h|e] eqn:Hh;
    [|by vm_compute in Hh].
  destruct (header_failure_aborts_file sample_runtime true matches_down "1001" sample_match
              h empty_world Hh)
    as (w' & Hrun & Hc & _ & _ & Hlog); [intros n; reflexivity|left; reflexivity|].
  exists w'. split; [exact Hrun|]. split; [exact Hc|exact Hlog].
Defined.

Lemma unnumbered_over_fails_file_witness :
  ∃ w', count_file sample_runtime true no_fault {| successful := 0; failed := 0 |} "1002"
          (Some unnumbered_match) empty_world
        = (w', Ret {| successful := 0; failed := 0 + 1 |}).
Proof.
  destruct (read_header sample_runtime unnumbered_match) as [h|e] eqn:Hh;
    [|by vm_compute in Hh].
  destruct (unnumbered_over_fails_file sample_runtime true no_fault "1002" unnumbered_match
              h [JDict unnumbered_innings] unnumbered_innings [JDict unnumbered_over]
              unnumbered_over empty_world Hh)
    as (_ & Hcount & _).
  - vm_compute in Hh. injection Hh as <-. reflexivity.
  - left.
  - reflexivity.
  - left.
  - reflexivity.
  - apply (Hcount {| successful := 0; failed := 0 |}).
Defined.

Lemma officials_in_role_order_or_rolled_back_witness :
  let w' := (process_officials sample_runtime true no_fault "1001" sample_officials
               empty_world).1 in
  (log w' = log empty_world ∧ saved w' = cur w' ∧
   ∃ rows, all_official_rows "1001" sample_officials = Ret rows ∧
     match_officials (cur w') = (match_officials (cur empty_world) ++ rows)%list) ∨
  (∃ e, log w' = (log empty_world ++ [LogOfficialsFailed e])%list ∧ cur w' = saved w' ∧
     (true = false -> saved w' = saved empty_world)).
Proof.
  apply (officials_in_role_order_or_rolled_back sample_runtime true no_fault "1001" sample_officials
           empty_world).
  intros n. reflexivity.
Defined.

Lemma header_defaults_witness :
  ∃ h, read_header sample_runtime sample_match = Ret h ∧
    m_gender (h_row h) = JStr "male" ∧ m_overs (h_row h) = Some 20 ∧
    m_balls_per_over (h_row h) = Some 6.
Proof.
  destruct (read_header sample_runtime sample_match) as [h|e] eqn:Hh;
    [|by vm_compute in Hh].
  exists h. split; [reflexivity|].
  destruct (header_defaults sample_runtime
              [("meta", JDict [("data_version", JStr "1.1.0")]);
               ("info", JDict sample_info);
               ("innings", JList [JDict [("team", JStr "Mumbai Indians");
                                         ("overs", JList [JDict sample_over])]])]
              sample_info h eq_refl Hh)
    as (Hg & _ & _ & Hov & _ & Hb & _).
  split; [exact Hg|]. split; [apply Hov; reflexivity|].
  vm_compute in Hh. injection Hh as <-. reflexivity.
Defined.

Lemma setup_returns_with_all_tables_witness :
  let w' := (ensure_database_and_schema views_down empty_setup).1 in
  has_database (srv w') = true ∧
  ∀ q, q ∈ table_creation_queries -> created q (srv w').
Proof.
  intros w'. apply (setup_returns_with_all_tables views_down empty_setup w').
  vm_compute. reflexivity.
Defined.

Lemma setup_completes_when_only_views_fail_witness :
  ∃ w', ensure_database_and_schema no_setup_fault empty_setup = (w', Ret tt) ∧
    has_database (srv w') = true ∧
    (∀ q, q ∈ table_creation_queries -> created q (srv w')) ∧
    ((∀ n, no_setup_fault n SView = false) ->
     ∀ q, q ∈ view_queries -> created q (srv w')).
Proof.
  apply (setup_completes_when_only_views_fail no_setup_fault empty_setup).
  intros n k _. reflexivity.
Defined.

Lemma registry_id_never_erased_witness :
  let w' := (process_json_file sample_runtime true innings_down "1001" (Some sample_match)
               known_player_world).1 in
  registered sample_runtime "V Kohli" 1 (cur w') ∧
  registered sample_runtime "V Kohli" 1 (saved w').
Proof.
  apply registry_id_never_erased;
    (exists {| p_id := 1; p_name := "V Kohli"; p_registry_id := JStr "ba607b88" |};
     split; [reflexivity|split; reflexivity]).
Defined.

Lemma roster_link_stored_witness :
  ∃ w' p,
    link_player sample_runtime true no_fault "1001" "Mumbai Indians"
      (JDict [("RG Sharma", JStr "740742ef")]) (JStr "RG Sharma") empty_world
      = (w', Ret tt) ∧
    players (cur w') !! index_key sample_runtime "RG Sharma" = Some p ∧ p_id p = 1 ∧
    match_players (cur w') !! (index_key sample_runtime "1001", p_id p) =
      Some {| l_team := JStr "Mumbai Indians"; l_registry_name := JStr "740742ef" |}.
Proof.
  destruct (roster_link_stored sample_runtime true no_fault "1001" "Mumbai Indians"
              (JDict [("RG Sharma", JStr "740742ef")]) "RG Sharma" (JStr "740742ef")
              empty_world)
    as (w' & p & Hrun & Hp & Hid & Hlink);
    [reflexivity|discriminate|reflexivity|reflexivity|reflexivity|discriminate|].
  exists w', p. split; [exact Hrun|]. split; [exact Hp|]. split; [exact Hid|exact Hlink].
Defined.

